(** * hqtt: typed MQTT value cells and Home Assistant discovery documents

    A shallow embedding of the Go packages [mqtt], [discovery], [platform]
    and [hqtt] of nlowe/hqtt, with the properties of the value cells, the
    topic utilities and the discovery builder stated over it.

    Conventions of the embedding:
    - a Go [string] is a [string]; a [[]byte] is a [list byte];
    - a Go [error] is an [option error], [None] being [nil];
    - a pointer that may be [nil] is an [option];
    - a method that mutates its receiver returns the new receiver;
    - a Go [int] is a [Z]; slices are lists, slicing out of range panics. *)

From Stdlib Require Import String Ascii List ZArith NArith Nnat Lia Bool Permutation.
From Stdlib.Strings Require Import Byte.
From Stdlib.Floats Require Import PrimFloat.
Import ListNotations.
Local Open Scope string_scope.
Local Open Scope list_scope.

Set Implicit Arguments.
Set Warnings "-register-all".

(** ** Go errors: sentinels, wrapping and joining *)

Module Errors.

(** The package-level [errors.New]/[fmt.Errorf] values of the repository.  Go
    compares them by identity, so each is a constructor. *)
Inductive Sentinel : Type :=
| ErrNoMarshaler
| ErrNeverWritten
| ErrValueRequired
| ErrTopicRequired
| ErrMissingStateOrCommandTopic
| ErrInvalidDevice
| ErrComponentAlreadySubscribed.

Definition Sentinel_eqb (a b : Sentinel) : bool :=
  match a, b with
  | ErrNoMarshaler, ErrNoMarshaler
  | ErrNeverWritten, ErrNeverWritten
  | ErrValueRequired, ErrValueRequired
  | ErrTopicRequired, ErrTopicRequired
  | ErrMissingStateOrCommandTopic, ErrMissingStateOrCommandTopic
  | ErrInvalidDevice, ErrInvalidDevice
  | ErrComponentAlreadySubscribed, ErrComponentAlreadySubscribed => true
  | _, _ => false
  end.

(** An error value.  [Foreign] stands for an error made outside the
    repository (transport, codec, JSON encoder, context); [Wrapf p e] is
    [fmt.Errorf("<p>: %w", e)] (and any other single-error wrapper with an
    [Unwrap() error] method); [Joined] is the result of [errors.Join]. *)
Inductive error : Type :=
| Sentinel_ (s : Sentinel)
| Foreign (msg : string)
| Wrapf (prefix : string) (e : error)
| Joined (es : list error).

(** [errors.Join]: drops the nil errors, and is nil when none is left. *)
Definition nonnil (errs : list (option error)) : list error :=
  flat_map (fun o => match o with Some e => [e] | None => [] end) errs.

Definition Join (errs : list (option error)) : option error :=
  match nonnil errs with
  | [] => None
  | es => Some (Joined es)
  end.

(** [errors.Is] against a sentinel: the error itself, what it unwraps to, or
    any member of a join, depth first. *)
Fixpoint Is (e : error) (target : Sentinel) {struct e} : bool :=
  match e with
  | Sentinel_ s => Sentinel_eqb s target
  | Foreign _ => false
  | Wrapf _ e' => Is e' target
  | Joined es =>
      (fix any (l : list error) : bool :=
         match l with
         | [] => false
         | x :: l' => Is x target || any l'
         end) es
  end.

(** [Occurs x e]: the error value [x] is [e] or is reached from [e] through
    [Unwrap], the walk [errors.Is] makes. *)
Inductive Occurs (x : error) : error -> Prop :=
| Occurs_here : Occurs x x
| Occurs_wrapped : forall p e, Occurs x e -> Occurs x (Wrapf p e)
| Occurs_joined : forall es e, In e es -> Occurs x e -> Occurs x (Joined es).

(** A violation as the builder reports it: [fmt.Errorf("%s: %w", name, s)]. *)
Definition violation (name : string) (s : Sentinel) : error :=
  Wrapf name (Sentinel_ s).

End Errors.
Import Errors.

(** ** Package mqtt: topics *)

Module Topic.

Definition TopicSeparator : string := "/".

(** [strings.Trim] with a one-byte cutset is [trimLeftByte] of
    [trimRightByte]. *)
Fixpoint trimLeftByte (s : string) (c : ascii) : string :=
  match s with
  | EmptyString => EmptyString
  | String a s' => if Ascii.eqb a c then trimLeftByte s' c else s
  end.

Fixpoint trimRightByte (s : string) (c : ascii) : string :=
  match s with
  | EmptyString => EmptyString
  | String a s' =>
      match trimRightByte s' c with
      | EmptyString => if Ascii.eqb a c then EmptyString else String a EmptyString
      | r => String a r
      end
  end.

Definition TrimTopic (topic : string) : string :=
  trimLeftByte (trimRightByte topic "/"%char) "/"%char.

(** The body of the [for i, part := range parts] loop of [JoinTopic]; [n] is
    [len(parts)] of the whole argument list and [result] the builder. *)
Fixpoint JoinTopic_loop (n i : nat) (parts : list string) (result : string) : string :=
  match parts with
  | [] => result
  | part :: rest =>
      if String.eqb part "" || String.eqb part TopicSeparator
      then JoinTopic_loop n (S i) rest result
      else
        let result := (result ++ TrimTopic part)%string in
        let result :=
          if negb (Nat.eqb i (n - 1)) then (result ++ TopicSeparator)%string else result in
        JoinTopic_loop n (S i) rest result
  end.

Definition JoinTopic (parts : list string) : string :=
  JoinTopic_loop (length parts) 0 parts "".

End Topic.
Import Topic.

Example TrimTopic_test : map TrimTopic ["/a/b/"; "a/b"; "/"; ""; "/a"] = ["a/b"; "a/b"; ""; ""; "a"].
Proof. reflexivity. Qed.

Example JoinTopic_test :
  map JoinTopic [[""; "a"; ""; "b"]; ["a"; "/"; "b"]; ["/a/b/"; "c"]; [""; ""]]
  = ["a/b"; "a/b"; "a/b/c"; ""].
Proof. reflexivity. Qed.

(** ** Package mqtt: options, the transport interfaces and logging *)

Module Mqtt.

(** [QualityOfService] and [SubscriptionRetainHandling] are [uint8]. *)
Definition QualityOfService := N.
Definition QOSAtMostOnce : QualityOfService := 0%N.
Definition QOSAtLeastOnce : QualityOfService := 1%N.
Definition QOSExactlyOnce : QualityOfService := 2%N.

Record WriteOptions : Type := {
  QoS : QualityOfService;
  Retain : bool
}.

Definition SubscriptionRetainHandling := N.

Record ReadOptions : Type := {
  ReadQoS : QualityOfService;
  NoLocal : bool;
  RetainAsPublished : bool;
  RetainHandling : SubscriptionRetainHandling
}.

(** The zero value [WriteOptions{}] / [ReadOptions{}]. *)
Definition WriteOptions_zero : WriteOptions := {| QoS := 0%N; Retain := false |}.
Definition ReadOptions_zero : ReadOptions :=
  {| ReadQoS := 0%N; NoLocal := false; RetainAsPublished := false; RetainHandling := 0%N |}.

Record Subscription : Type := {
  Topic : string;
  Options : ReadOptions
}.

(** The zero value of a Go type ([var v T]). *)
Class Zero (T : Type) : Type := zero : T.

#[export] Instance Zero_string : Zero string := "".
#[export] Instance Zero_N : Zero N := 0%N.
#[export] Instance Zero_bool : Zero bool := false.

(** [mqtt.Writer]: the transport's publish capability.  [W] is the state of
    the transport; a call may change it and may fail. *)
Class Writer (W : Type) : Type :=
  WriteTopic : string -> WriteOptions -> list byte -> W -> W * option error.

(** [mqtt.Subscriber], over the transport state [S] and the handler type [H]. *)
Class Subscriber (S H : Type) : Type := {
  Subscribe : H -> list Subscription -> S -> S * option error;
  Unsubscribe : list string -> S -> S * option error
}.

(** What a cell hands to its [*slog.Logger]: level and message (the
    attributes of a record are not kept). *)
Inductive Level : Type := LevelDebug | LevelInfo | LevelWarn | LevelError.
Definition LogRecord : Type := (Level * string)%type.

(** A call either returns or panics. *)
Inductive Outcome (A : Type) : Type :=
| Returned (a : A)
| Panicked (why : string).
Arguments Panicked {A} why.

(** [s[:high]] and [s[low:]] on a slice of length [len(s)]: a bound outside
    [0 .. len(s)] is a run-time panic.  (Go lets [high] reach [cap(s)]; no
    caller here passes a [high] beyond the length.) *)
Definition slice_to {A : Type} (s : list A) (high : Z) : option (list A) :=
  if (0 <=? high)%Z && (high <=? Z.of_nat (length s))%Z
  then Some (firstn (Z.to_nat high) s) else None.

Definition slice_from {A : Type} (s : list A) (low : Z) : option (list A) :=
  if (0 <=? low)%Z && (low <=? Z.of_nat (length s))%Z
  then Some (skipn (Z.to_nat low) s) else None.

Definition ValueMarshaler (T : Type) : Type := T -> list byte * option error.
Definition ValueUnmarshaler (T : Type) : Type := list byte -> T * option error.

Definition StringMarshaler : ValueMarshaler string :=
  fun v => (list_byte_of_string v, None).
Definition StringUnmarshaler : ValueUnmarshaler string :=
  fun bytes => (string_of_list_byte bytes, None).

(** [encoding/json.Unmarshal(bytes, &v)] at type [T]: the value left in [v]
    and the error. *)
Class JsonUnmarshal (T : Type) : Type :=
  json_Unmarshal : list byte -> T -> T * option error.

(** [JsonValueUnmarshaler]: [var v T; return v, json.Unmarshal(bytes, &v)].
    The operand [v] is read once the call has filled it, which is how the gc
    compiler orders a variable and a call in one result list. *)
Definition JsonValueUnmarshaler {T : Type} `{Zero T} `{JsonUnmarshal T} : ValueUnmarshaler T :=
  fun bytes => json_Unmarshal bytes zero.

End Mqtt.
Import Mqtt.

(** ** Package mqtt: the outbound cell [Value] *)

Module Value.
Section Cell.
Context {T : Type}.

Record Value : Type := {
  topic : string;
  marshaler : option (ValueMarshaler T);
  opts : WriteOptions;
  v : T;
  initialized : bool
}.

Definition NewValueWithOptions `{Zero T} (topic : string) (marshal : option (ValueMarshaler T))
    (opts : WriteOptions) : Value :=
  {| topic := topic; marshaler := marshal; opts := opts; v := zero; initialized := false |}.

Definition NewValue `{Zero T} (topic : string) (marshal : option (ValueMarshaler T)) : Value :=
  NewValueWithOptions topic marshal WriteOptions_zero.

(** Nil-safe: the receiver is a pointer. *)
Definition FullyQualifiedTopic (p : option Value) (prefix : string) : string :=
  match p with
  | None => ""
  | Some c => JoinTopic [prefix; topic c]
  end.

Definition Get (c : Value) : T * bool := (v c, initialized c).

(** [Write]: the new cell, the new transport state, and the two results.
    [fmt.Errorf("marshal %+v: %w", newValue, err)] is [Wrapf "marshal" err]. *)
Definition Write {W : Type} `{Writer W} (c : Value) (w : W) (prefix : string) (newValue : T)
    : Value * W * (T * option error) :=
  match marshaler c with
  | None => (c, w, (newValue, Some (Sentinel_ ErrNoMarshaler)))
  | Some marshal =>
      let (data, err) := marshal newValue in
      match err with
      | Some e => (c, w, (v c, Some (Wrapf "marshal" e)))
      | None =>
          let c' := {| topic := topic c; marshaler := marshaler c; opts := opts c;
                       v := newValue; initialized := true |} in
          let (w', werr) := WriteTopic (JoinTopic [prefix; topic c']) (opts c') data w in
          (c', w', (v c', werr))
      end
  end.

Definition Republish {W : Type} `{Writer W} (c : Value) (w : W) (prefix : string)
    : Value * W * (T * option error) :=
  let currentValue := v c in
  if negb (initialized c) then (c, w, (v c, Some (Sentinel_ ErrNeverWritten)))
  else Write c w prefix currentValue.

End Cell.
Arguments Value T : clear implicits.
End Value.

(** ** Package mqtt: the inbound cell [RemoteValue]

    A watcher is a Go closure [func(T)]; what it does is a change of the
    world [W] outside the cell.  A watcher cannot change the cell it is
    registered on: the cell's lock is held while it runs. *)

Module RemoteValue.
Section Cell.
Context {T W : Type}.

Record RemoteValue : Type := {
  topic : string;
  unmarshaler : option (ValueUnmarshaler T);
  opts : ReadOptions;
  watchers : list (T -> W -> W);
  v : T;
  initialized : bool
}.

Definition NewRemoteValueWithOptions `{Zero T} (topic : string)
    (unmarshaler : option (ValueUnmarshaler T)) (opts : ReadOptions) : RemoteValue :=
  {| topic := topic; unmarshaler := unmarshaler; opts := opts;
     watchers := []; v := zero; initialized := false |}.

Definition NewRemoteValue `{Zero T} (topic : string)
    (unmarshaler : option (ValueUnmarshaler T)) : RemoteValue :=
  NewRemoteValueWithOptions topic unmarshaler ReadOptions_zero.

Definition with_unmarshaler (c : RemoteValue) (u : ValueUnmarshaler T) : RemoteValue :=
  {| topic := topic c; unmarshaler := Some u; opts := opts c;
     watchers := watchers c; v := v c; initialized := initialized c |}.

Definition with_value (c : RemoteValue) (x : T) : RemoteValue :=
  {| topic := topic c; unmarshaler := unmarshaler c; opts := opts c;
     watchers := watchers c; v := x; initialized := true |}.

Definition with_watchers (c : RemoteValue) (ws : list (T -> W -> W)) : RemoteValue :=
  {| topic := topic c; unmarshaler := unmarshaler c; opts := opts c;
     watchers := ws; v := v c; initialized := initialized c |}.

(** [for _, w := range v.watchers { w(v.v) }] *)
Definition notify (ws : list (T -> W -> W)) (x : T) (w : W) : W :=
  fold_left (fun w cb => cb x w) ws w.

(** [if v.unmarshaler == nil { v.unmarshaler = JsonValueUnmarshaler[T]() }]:
    the unmarshaler in place after that statement. *)
Definition installed `{Zero T} `{JsonUnmarshal T} (c : RemoteValue) : ValueUnmarshaler T :=
  match unmarshaler c with
  | Some u => u
  | None => JsonValueUnmarshaler
  end.

(** The body of [ServeMQTT] once the receiver is known not to be nil: the
    cell, the world and the log records written. *)
Definition ServeMQTT_locked `{Zero T} `{JsonUnmarshal T} (c : RemoteValue) (topic' : string)
    (payload : list byte) (w : W) : RemoteValue * W * list LogRecord :=
  if negb (String.eqb (topic c) topic') then (c, w, [])
  else
    let u := installed c in
    let c := with_unmarshaler c u in
    let (parsed, err) := u payload in
    match err with
    | Some _ => (c, w, [(LevelWarn, "Failed to unmarshal payload from mqtt")])
    | None =>
        let c := with_value c parsed in
        (c, notify (watchers c) (v c) w,
         [(LevelDebug, "Received new value from mqtt"); (LevelDebug, "Updating watchers")])
    end.

Definition ServeMQTT `{Zero T} `{JsonUnmarshal T} (p : option RemoteValue) (topic' : string)
    (payload : list byte) (w : W) : option RemoteValue * W * list LogRecord :=
  match p with
  | None => (None, w, [])
  | Some c =>
      let '(c', w', logged) := ServeMQTT_locked c topic' payload w in
      (Some c', w', logged)
  end.

Definition FullyQualifiedTopic (p : option RemoteValue) (prefix : string) : string :=
  match p with
  | None => ""
  | Some c => JoinTopic [prefix; topic c]
  end.

Definition AppendSubscribeOptions (p : option RemoteValue) (existing : list Subscription)
    (prefix : string) : list Subscription :=
  match p with
  | None => existing
  | Some c =>
      if String.eqb (topic c) "" then existing
      else existing ++ [{| Topic := FullyQualifiedTopic p prefix; Options := opts c |}]
  end.

Definition Get (c : RemoteValue) : T * bool := (v c, initialized c).

(** [Watch]: the cell, the id returned, the log. *)
Definition Watch (c : RemoteValue) (callback : T -> W -> W) : RemoteValue * Z * list LogRecord :=
  let c := with_watchers c (watchers c ++ [callback]) in
  (c, (Z.of_nat (length (watchers c)) - 1)%Z, [(LevelDebug, "Adding watcher")]).

(** [Unwatch].  A nil [watchers] slice is the empty list: on an empty slice
    the two comparisons of the guard already cover every [id]. *)
Definition Unwatch (c : RemoteValue) (id : Z) : Outcome (RemoteValue * list LogRecord) :=
  if match watchers c with [] => true | _ => false end
     || (id <? 1)%Z || (id >? Z.of_nat (length (watchers c)))%Z
  then Returned (c, [(LevelWarn, "Tried to remove an invalid watcher")])
  else
    match slice_to (watchers c) id, slice_from (watchers c) (id + 1) with
    | Some front, Some back =>
        Returned (with_watchers c (front ++ back), [(LevelDebug, "Removing watcher")])
    | _, _ => Panicked "slice bounds out of range"
    end.

(** [DesiredValue], over a comparable [T]. *)
Definition DesiredValue (eqb : T -> T -> bool) (x : T) : T -> bool :=
  fun vv => eqb x vv.

End Cell.
Arguments RemoteValue T W : clear implicits.
End RemoteValue.

(** ** [RemoteValue.Await], sequentially

    [Await] blocks its goroutine while the transport goroutine delivers
    messages.  The embedding runs one interleaving: the messages [inbound]
    arrive one after the other while [Await] waits; [Await] wakes at the
    first one that closes [done], and when none does the context is
    cancelled with [cause] after the last.  The locals [got] and [done] of a
    call live in a frame of the world, so that the closure handed to [Watch]
    can write them; a closure refers to the frame of its own call. *)

Module Awaiting.
Import RemoteValue.
Section Await.
Context {T A : Type} `{Zero T} `{JsonUnmarshal T}.

(** [closes] counts the [close(done)] calls; a second one is a Go panic. *)
Record Frame : Type := {
  got : T;
  closes : nat
}.

Definition World : Type := (A * list Frame)%type.

Fixpoint update_frame (k : nat) (f : Frame -> Frame) (frames : list Frame) : list Frame :=
  match frames, k with
  | [], _ => []
  | fr :: rest, O => f fr :: rest
  | fr :: rest, S k' => fr :: update_frame k' f rest
  end.

Definition frame_of (k : nat) (w : World) : Frame :=
  nth k (snd w) {| got := zero; closes := 0 |}.

(** [func(t T) { if desired(t) { got = t; close(done) } }] of the call whose
    frame is [k] (the debug line it logs is not kept). *)
Definition transient (k : nat) (desired : T -> bool) : T -> World -> World :=
  fun t w =>
    if desired t
    then (fst w, update_frame k (fun fr => {| got := t; closes := S (closes fr) |}) (snd w))
    else w.

(** The [select]: deliveries go on until [done] is closed. *)
Fixpoint wait (k : nat) (c : RemoteValue T World) (inbound : list (string * list byte))
    (w : World) : RemoteValue T World * World * list LogRecord :=
  match inbound with
  | [] => (c, w, [])
  | (topic', payload) :: rest =>
      if Nat.eqb (closes (frame_of k w)) 0
      then
        let '(c', w', logged) := ServeMQTT_locked c topic' payload w in
        let '(c'', w'', logged') := wait k c' rest w' in
        (c'', w'', logged ++ logged')
      else (c, w, [])
  end.

Definition Await (c : RemoteValue T World) (desired : T -> bool)
    (inbound : list (string * list byte)) (cause : error) (w : World)
    : Outcome (RemoteValue T World * World * (T * option error) * list LogRecord) :=
  let k := length (snd w) in
  let w := (fst w, snd w ++ [{| got := zero; closes := 0 |}]) in
  let '(c, id, logWatch) := Watch c (transient k desired) in
  let '(c, w, logServe) := wait k c inbound w in
  let fr := frame_of k w in
  let '(result, logSelect) :=
    if Nat.eqb (closes fr) 0
    then ((got fr, Some cause), [(LevelDebug, "Timeout waiting for value")])
    else ((got fr, None), []) in
  match Unwatch c id with
  | Returned (c, logUnwatch) =>
      Returned (c, w, result,
                [(LevelDebug, "Awaiting value")] ++ logWatch ++ logServe ++ logSelect ++ logUnwatch)
  | Panicked why => Panicked why
  end.

End Await.
Arguments Frame T : clear implicits.
Arguments World T A : clear implicits.
End Awaiting.

(** ** Properties of the inbound cell *)

Unset Implicit Arguments.

Module RemoteValueFacts.
Import RemoteValue.
Section Delivery.
Context {T W : Type} `{Zero T} `{JsonUnmarshal T}.
Implicit Types (c : RemoteValue T W) (w : W).

Lemma topic_mismatch c t :
  t <> topic c -> negb (String.eqb (topic c) t) = true.
Proof.
  intros Hne. destruct (String.eqb_spec (topic c) t) as [E | E]; [congruence | reflexivity].
Qed.

Lemma topic_match c : negb (String.eqb (topic c) (topic c)) = false.
Proof. now rewrite String.eqb_refl. Qed.

(** A message for another topic: nothing at all happens. *)
Lemma ServeMQTT_locked_other_topic c t payload w :
  t <> topic c -> ServeMQTT_locked c t payload w = (c, w, []).
Proof.
  intros Hne. unfold ServeMQTT_locked. now rewrite (topic_mismatch c t Hne).
Qed.

(** A message the unmarshaler in place rejects: only the unmarshaler field
    may have been filled in, and one warning is logged. *)
Lemma ServeMQTT_locked_rejected c payload w x e :
  installed c payload = (x, Some e) ->
  ServeMQTT_locked c (topic c) payload w
  = (with_unmarshaler c (installed c), w,
     [(LevelWarn, "Failed to unmarshal payload from mqtt")]).
Proof.
  intros Hu. unfold ServeMQTT_locked. rewrite topic_match. cbv zeta.
  now rewrite Hu.
Qed.

(** A message the unmarshaler in place accepts: the value is stored and every
    watcher runs on it, first registered first. *)
Lemma ServeMQTT_locked_accepted c payload w x :
  installed c payload = (x, None) ->
  ServeMQTT_locked c (topic c) payload w
  = (with_value (with_unmarshaler c (installed c)) x,
     fold_left (fun w cb => cb x w) (watchers c) w,
     [(LevelDebug, "Received new value from mqtt"); (LevelDebug, "Updating watchers")]).
Proof.
  intros Hu. unfold ServeMQTT_locked. rewrite topic_match. cbv zeta.
  now rewrite Hu.
Qed.

Lemma ServeMQTT_locked_watchers c t payload w :
  watchers (fst (fst (ServeMQTT_locked c t payload w))) = watchers c.
Proof.
  unfold ServeMQTT_locked.
  destruct (negb (String.eqb (topic c) t)); [reflexivity |].
  cbv zeta. destruct (installed c payload) as [x [e |]]; reflexivity.
Qed.

Lemma ServeMQTT_locked_topic c t payload w :
  topic (fst (fst (ServeMQTT_locked c t payload w))) = topic c.
Proof.
  unfold ServeMQTT_locked.
  destruct (negb (String.eqb (topic c) t)); [reflexivity |].
  cbv zeta. destruct (installed c payload) as [x [e |]]; reflexivity.
Qed.

(** C7. A payload on the cell's own topic that fails to deserialize leaves the
    stored value, the ever-received flag and the watcher list as they were,
    runs no watcher (the world is the one before) and logs one warning; a
    message on any other topic leaves the whole cell and the world untouched
    and logs nothing.  A nil cell ignores every message. *)
Theorem ServeMQTT_bad_payload_or_foreign_topic c t payload w :
  ((exists x e, t = topic c /\ installed c payload = (x, Some e)) ->
   exists c',
     ServeMQTT (Some c) t payload w
     = (Some c', w, [(LevelWarn, "Failed to unmarshal payload from mqtt")])
     /\ Get c' = Get c /\ watchers c' = watchers c /\ topic c' = topic c)
  /\ (t <> topic c -> ServeMQTT (Some c) t payload w = (Some c, w, []))
  /\ ServeMQTT (@None (RemoteValue T W)) t payload w = (None, w, []).
Proof.
  split; [| split].
  - intros (x & e & -> & Hu).
    exists (with_unmarshaler c (installed c)).
    unfold ServeMQTT. rewrite (ServeMQTT_locked_rejected c payload w x e Hu).
    repeat split.
  - intros Hne. unfold ServeMQTT.
    now rewrite (ServeMQTT_locked_other_topic c t payload w Hne).
  - reflexivity.
Qed.

(** C10. On a cell built with a nil unmarshaler, a message on the cell's topic
    installs [JsonValueUnmarshaler] and decodes with it: a payload it accepts
    is stored, sets the flag and runs the watchers in order; a payload it
    rejects is the ordinary decoding failure (state kept, no watcher run, a
    warning).  The unmarshaler stays installed, so the next message is
    decoded by it as well. *)
Theorem ServeMQTT_nil_unmarshaler_installs_json c payload w :
  unmarshaler c = None ->
  exists c' w' logged,
    ServeMQTT (Some c) (topic c) payload w = (Some c', w', logged)
    /\ unmarshaler c' = Some JsonValueUnmarshaler
    /\ installed c' = JsonValueUnmarshaler
    /\ watchers c' = watchers c /\ topic c' = topic c
    /\ match JsonValueUnmarshaler payload with
       | (x, None) =>
           Get c' = (x, true)
           /\ w' = fold_left (fun w cb => cb x w) (watchers c) w
       | (_, Some _) =>
           Get c' = Get c /\ w' = w
           /\ logged = [(LevelWarn, "Failed to unmarshal payload from mqtt")]
       end.
Proof.
  intros Hnil.
  assert (Hin : installed c = JsonValueUnmarshaler) by (unfold installed; now rewrite Hnil).
  destruct (JsonValueUnmarshaler payload) as [x [e |]] eqn:Hj.
  - exists (with_unmarshaler c (installed c)), w,
      [(LevelWarn, "Failed to unmarshal payload from mqtt")].
    unfold ServeMQTT. rewrite (ServeMQTT_locked_rejected c payload w x e) by congruence.
    rewrite Hin. repeat split.
  - exists (with_value (with_unmarshaler c (installed c)) x),
      (fold_left (fun w cb => cb x w) (watchers c) w),
      [(LevelDebug, "Received new value from mqtt"); (LevelDebug, "Updating watchers")].
    unfold ServeMQTT. rewrite (ServeMQTT_locked_accepted c payload w x) by congruence.
    rewrite Hin. repeat split.
Qed.

End Delivery.
End RemoteValueFacts.

(** ** Registering and removing watchers *)

Module WatcherFacts.
Import RemoteValue.
Section Unwatching.
Context {T W : Type}.
Implicit Types (c : RemoteValue T W) (id : Z).

(** An id below 1 or above the number of watchers is refused with a warning
    and changes nothing.  Note that 0, the id of the first watcher, is among
    the refused ids. *)
Lemma Unwatch_refused c id :
  (id < 1 \/ Z.of_nat (length (watchers c)) < id)%Z ->
  Unwatch c id = Returned (c, [(LevelWarn, "Tried to remove an invalid watcher")]).
Proof.
  intros Hid. unfold Unwatch.
  destruct (watchers c) as [| cb ws] eqn:Hws; [reflexivity |].
  destruct Hid as [Hlo | Hhi].
  - apply Z.ltb_lt in Hlo. now rewrite Hlo.
  - assert (Hgt : (id >? Z.of_nat (length (cb :: ws)))%Z = true)
      by (apply Z.gtb_lt; exact Hhi).
    rewrite Hgt. now rewrite orb_true_r.
Qed.

(** An accepted id strictly below the number of watchers removes that one. *)
Lemma Unwatch_removes c id :
  (1 <= id < Z.of_nat (length (watchers c)))%Z ->
  Unwatch c id
  = Returned (with_watchers c (firstn (Z.to_nat id) (watchers c)
                               ++ skipn (Z.to_nat (id + 1)) (watchers c)),
              [(LevelDebug, "Removing watcher")]).
Proof.
  intros [Hlo Hhi]. unfold Unwatch.
  destruct (watchers c) as [| cb ws] eqn:Hws; [simpl in Hhi; lia |].
  assert (H1 : (id <? 1)%Z = false) by (apply Z.ltb_ge; lia).
  assert (H2 : (id >? Z.of_nat (length (cb :: ws)))%Z = false).
  { rewrite Z.gtb_ltb. apply Z.ltb_ge. lia. }
  rewrite H1, H2. cbn [orb].
  unfold slice_to, slice_from.
  assert (H3 : ((0 <=? id) && (id <=? Z.of_nat (length (cb :: ws))))%Z = true).
  { apply andb_true_iff. split; apply Z.leb_le; lia. }
  assert (H4 : ((0 <=? id + 1) && (id + 1 <=? Z.of_nat (length (cb :: ws))))%Z = true).
  { apply andb_true_iff. split; apply Z.leb_le; lia. }
  now rewrite H3, H4.
Qed.

(** C1. On a cell with at least one watcher, [Unwatch] with the id equal to the
    number of watchers, an id no watcher was ever given, passes the guard
    ([id > len] lets [id = len] through) and panics in [v.watchers[id+1:]]:
    the call does not return, and the warning for an invalid id is never
    logged. *)
Theorem Unwatch_id_equal_to_count_panics c :
  watchers c <> [] ->
  Unwatch c (Z.of_nat (length (watchers c))) = Panicked "slice bounds out of range".
Proof.
  intros Hne. unfold Unwatch.
  destruct (watchers c) as [| cb ws] eqn:Hws; [congruence |].
  set (n := Z.of_nat (length (cb :: ws))).
  assert (Hn : (1 <= n)%Z) by (subst n; simpl length; lia).
  assert (H1 : (n <? 1)%Z = false) by (apply Z.ltb_ge; lia).
  assert (H2 : (n >? n)%Z = false) by (rewrite Z.gtb_ltb; apply Z.ltb_irrefl).
  rewrite H1, H2. cbn [orb].
  unfold slice_to, slice_from. fold n.
  assert (H3 : ((0 <=? n) && (n <=? n))%Z = true).
  { apply andb_true_iff. split; apply Z.leb_le; lia. }
  assert (H4 : ((0 <=? n + 1) && (n + 1 <=? n))%Z = false).
  { apply andb_false_iff. right. apply Z.leb_gt. lia. }
  now rewrite H3, H4.
Qed.

(** Removing the watcher that was appended last, when it was not the first. *)
Lemma Unwatch_appended c ws cb :
  ws <> [] -> watchers c = ws ++ [cb] ->
  Unwatch c (Z.of_nat (length (watchers c)) - 1)
  = Returned (with_watchers c ws, [(LevelDebug, "Removing watcher")]).
Proof.
  intros Hne Hws.
  assert (Hlen : length (watchers c) = S (length ws)).
  { rewrite Hws, length_app. simpl. lia. }
  assert (Hpos : (1 <= length ws)%nat) by (destruct ws; [congruence | simpl; lia]).
  rewrite Unwatch_removes by (rewrite Hlen; lia).
  rewrite Hlen.
  replace (Z.to_nat (Z.of_nat (S (length ws)) - 1)) with (length ws) by lia.
  replace (Z.to_nat (Z.of_nat (S (length ws)) - 1 + 1)) with (length ws + 1)%nat by lia.
  rewrite Hws. rewrite firstn_app, Nat.sub_diag, firstn_all. simpl firstn.
  rewrite skipn_all2 by (rewrite length_app; simpl; lia).
  now rewrite !app_nil_r.
Qed.

End Unwatching.
End WatcherFacts.

(** ** [Await] and its transient watcher *)

Module AwaitFacts.
Import RemoteValue Awaiting.
Section Awaits.
Context {T A : Type} `{Zero T} `{JsonUnmarshal T}.
Implicit Types (c : RemoteValue T (World T A)) (w : World T A).

(** Deliveries never touch the watcher list. *)
Lemma wait_watchers k inbound : forall c w,
  watchers (fst (fst (wait k c inbound w))) = watchers c.
Proof.
  induction inbound as [| [t payload] rest IH]; intros c w; simpl; [reflexivity |].
  destruct (Nat.eqb (closes (frame_of k w)) 0); [| reflexivity].
  pose proof (RemoteValueFacts.ServeMQTT_locked_watchers c t payload w) as Hs.
  destruct (ServeMQTT_locked c t payload w) as [[c' w'] logged].
  specialize (IH c' w').
  destruct (wait k c' rest w') as [[c'' w''] logged'].
  simpl in *. congruence.
Qed.

(** C2. On a cell that has no watcher yet, [Await] registers its transient
    watcher under id 0, and the deferred [Unwatch(0)] is refused by the guard
    [id < 1]: whichever way [Await] returns, the transient watcher is still
    registered afterwards and the attempt to remove it is only logged. *)
Theorem Await_on_fresh_cell_keeps_transient_watcher c desired inbound cause w :
  watchers c = [] ->
  exists c' w' result logged,
    Await c desired inbound cause w = Returned (c', w', result, logged)
    /\ watchers c' = [transient (length (snd w)) desired]
    /\ In (LevelWarn, "Tried to remove an invalid watcher") logged.
Proof.
  intros Hnone. unfold Await, Watch. cbv zeta. simpl fst. simpl snd.
  set (k := length (snd w)).
  set (c1 := with_watchers c (watchers c ++ [transient k desired])).
  set (w1 := (fst w, snd w ++ [{| got := zero; closes := 0 |}])).
  pose proof (wait_watchers k inbound c1 w1) as Hw.
  destruct (wait k c1 inbound w1) as [[c2 w2] logServe]. simpl in Hw.
  assert (Hc2 : watchers c2 = [transient k desired]).
  { rewrite Hw. subst c1. simpl. now rewrite Hnone. }
  assert (Hid : (Z.of_nat (length (watchers c1)) - 1 = 0)%Z).
  { subst c1. simpl. rewrite Hnone. reflexivity. }
  rewrite Hid.
  rewrite (WatcherFacts.Unwatch_refused c2 0%Z) by (left; lia).
  destruct (Nat.eqb (closes (frame_of k w2)) 0);
    eexists _, _, _, _; (split; [reflexivity | split; [exact Hc2 |]]);
    simpl; rewrite !in_app_iff; simpl; tauto.
Qed.

(** On a cell that already has a watcher the transient one is removed again,
    on both exits, and the watcher list is the one from before the call. *)
Lemma Await_restores_watchers c desired inbound cause w :
  watchers c <> [] ->
  exists c' w' result logged,
    Await c desired inbound cause w = Returned (c', w', result, logged)
    /\ watchers c' = watchers c.
Proof.
  intros Hsome. unfold Await, Watch. cbv zeta. simpl fst. simpl snd.
  set (k := length (snd w)).
  set (c1 := with_watchers c (watchers c ++ [transient k desired])).
  set (w1 := (fst w, snd w ++ [{| got := zero; closes := 0 |}])).
  pose proof (wait_watchers k inbound c1 w1) as Hw.
  destruct (wait k c1 inbound w1) as [[c2 w2] logServe]. simpl in Hw.
  assert (Hc2 : watchers c2 = watchers c ++ [transient k desired]) by (rewrite Hw; reflexivity).
  assert (Hlen : length (watchers c1) = length (watchers c2)) by now rewrite Hw.
  rewrite Hlen.
  rewrite (WatcherFacts.Unwatch_appended c2 (watchers c) (transient k desired) Hsome Hc2).
  destruct (Nat.eqb (closes (frame_of k w2)) 0);
    eexists _, _, _, _; (split; [reflexivity | reflexivity]).
Qed.

End Awaits.
End AwaitFacts.

(** ** Properties of the outbound cell *)

Module ValueFacts.
Import Value.
Section Writing.
Context {T W : Type} `{Zero T} `{Writer W}.
Implicit Types (c : Value T) (w : W) (x : T).

(** [serializes c x]: the cell has a marshaler and it accepts [x]. *)
Definition serializes c x : bool :=
  match marshaler c with
  | None => false
  | Some marshal => match snd (marshal x) with None => true | Some _ => false end
  end.

(** A history of [Write] calls on one cell, each with its prefix and value. *)
Fixpoint writes c w (calls : list (string * T)) : Value T * W :=
  match calls with
  | [] => (c, w)
  | (prefix, x) :: rest =>
      let '(c', w', _) := Write c w prefix x in writes c' w' rest
  end.

(** The errors the calls of a history returned, in order. *)
Fixpoint write_errors c w (calls : list (string * T)) : list (option error) :=
  match calls with
  | [] => []
  | (prefix, x) :: rest =>
      let '(c', w', (_, err)) := Write c w prefix x in err :: write_errors c' w' rest
  end.

Lemma Write_stores c w prefix x :
  serializes c x = true ->
  let c' := fst (fst (Write c w prefix x)) in
  v c' = x /\ initialized c' = true /\ marshaler c' = marshaler c.
Proof.
  unfold serializes, Write. destruct (marshaler c) as [marshal |] eqn:Hm; [| discriminate].
  destruct (marshal x) as [data [e |]]; simpl; [discriminate |].
  intros _. destruct (WriteTopic _ _ data w) as [w' werr]. simpl. repeat split.
Qed.

Lemma Write_skips c w prefix x :
  serializes c x = false ->
  fst (fst (Write c w prefix x)) = c /\ snd (fst (Write c w prefix x)) = w
  /\ snd (snd (Write c w prefix x)) <> None.
Proof.
  unfold serializes, Write. destruct (marshaler c) as [marshal |] eqn:Hm.
  - destruct (marshal x) as [data [e |]]; simpl; [| discriminate].
    intros _. repeat split. discriminate.
  - intros _. repeat split. discriminate.
Qed.

(** While no call gets past serialization the cell and the transport stay
    as they are. *)
Lemma writes_all_skipped calls : forall c w,
  forallb (fun call => negb (serializes c (snd call))) calls = true ->
  writes c w calls = (c, w).
Proof.
  induction calls as [| [prefix x] rest IH]; intros c w Hall; simpl in *; [reflexivity |].
  apply andb_true_iff in Hall. destruct Hall as [Hx Hrest].
  apply negb_true_iff in Hx.
  destruct (Write_skips c w prefix x Hx) as (Hc & Hw & _).
  destruct (Write c w prefix x) as [[c' w'] r]. simpl in Hc, Hw. subst c' w'.
  now apply IH.
Qed.

Lemma Write_marshaler c w prefix x :
  marshaler (fst (fst (Write c w prefix x))) = marshaler c.
Proof.
  unfold Write. destruct (marshaler c) as [marshal |] eqn:Hm; [| simpl; exact Hm].
  destruct (marshal x) as [data [e |]]; [simpl; exact Hm |].
  destruct (WriteTopic _ _ data w) as [w' werr]. reflexivity.
Qed.

Lemma Write_initialized c w prefix x :
  initialized (fst (fst (Write c w prefix x))) = initialized c || serializes c x.
Proof.
  destruct (serializes c x) eqn:Hs.
  - destruct (Write_stores c w prefix x Hs) as (_ & Hi & _).
    rewrite Hi. now rewrite orb_true_r.
  - destruct (Write_skips c w prefix x Hs) as (Hc & _ & _).
    rewrite Hc. now rewrite orb_false_r.
Qed.

(** The flag after a history: it was set before, or some call serialized. *)
Lemma writes_initialized calls : forall c w,
  initialized (fst (writes c w calls))
  = initialized c || existsb (fun call => serializes c (snd call)) calls.
Proof.
  induction calls as [| [prefix x] rest IH]; intros c w; simpl.
  - now rewrite orb_false_r.
  - pose proof (Write_initialized c w prefix x) as Hi.
    pose proof (Write_marshaler c w prefix x) as Hm.
    destruct (Write c w prefix x) as [[c' w'] r]. simpl in Hi, Hm.
    rewrite IH, Hi, <- orb_assoc. f_equal. f_equal.
    clear IH. induction rest as [| [p y] rest' IHr]; [reflexivity |].
    simpl. rewrite IHr. unfold serializes. now rewrite Hm.
Qed.

(** C8, as amended. [Write] of a value that serializes, then [Get], gives that
    value with the flag set, whatever the transport answered; and a cell
    made by the constructor on which every [Write] so far stopped before or
    at serialization still reports the zero value with the flag unset. *)
Theorem Write_then_Get_and_Get_before_stored_Write :
  (forall c w prefix x,
      serializes c x = true -> Get (fst (fst (Write c w prefix x))) = (x, true))
  /\ (forall topic marshal opts w calls,
         forallb (fun call =>
                    negb (serializes (NewValueWithOptions topic marshal opts) (snd call)))
                 calls = true ->
         Get (fst (writes (NewValueWithOptions topic marshal opts) w calls)) = (zero, false)).
Proof.
  split.
  - intros c w prefix x Hs.
    destruct (Write_stores c w prefix x Hs) as (Hv & Hi & _).
    unfold Get. now rewrite Hv, Hi.
  - intros topic marshal opts w calls Hall.
    now rewrite (writes_all_skipped calls _ w Hall).
Qed.

End Writing.
End ValueFacts.

Set Implicit Arguments.

(** ** Package discovery: the builder over a [jsontext.Encoder]

    The encoder belongs to [encoding/json]; the embedding keeps what the
    builder can observe of it.  An encoder is the list of tokens it has
    accepted.  [rejects e t] is the error with which the encoder in state [e]
    refuses the token [t] (a refused token is not written), and [Bytes] is the
    text it has buffered for its tokens. *)

Module Discovery.

(** A JSON value, as [json.MarshalEncode] with [discovery.Marshalers] renders
    a Go value that has no [MarshalJSONTo] of its own. *)
Inductive JValue : Type :=
| JNull
| JBool (b : bool)
| JNumber (z : Z)
| JString (s : string)
| JArray (items : list JValue)
| JObject (fields : list (string * JValue)).

(** What is handed to the encoder: the [jsontext] tokens the builder writes,
    and [Encoded j] for the tokens of one whole value [j]. *)
Inductive Token : Type :=
| BeginObject
| EndObject
| Null
| Str (s : string)
| Encoded (j : JValue).

Definition Encoder : Type := list Token.

Class JsonEncoder : Type := {
  rejects : Encoder -> Token -> option error;
  Bytes : Encoder -> list byte
}.

(** A call that uses the encoder: its result and the encoder afterwards. *)
Definition Enc (A : Type) : Type := Encoder -> A * Encoder.

Definition ret {A : Type} (a : A) : Enc A := fun e => (a, e).

(** [json.MarshalerTo]: the method [MarshalJSONTo(e) error]. *)
Definition MarshalerTo : Type := Enc (option error).

(** The calls of an argument list, run left to right. *)
Fixpoint run_all (calls : list (Enc (option error))) : Enc (list (option error)) :=
  fun e =>
    match calls with
    | [] => ([], e)
    | call :: rest =>
        let (r, e1) := call e in
        let (rs, e2) := run_all rest e1 in
        (r :: rs, e2)
    end.

(** [errors.Join(call1(e), call2(e), ...)]. *)
Definition JoinCalls (calls : list (Enc (option error))) : Enc (option error) :=
  fun e => let (rs, e') := run_all calls e in (Join rs, e').

(** The bookkeeping behind [json.MarshalEncode]'s check that a
    [MarshalJSONTo] method wrote exactly one value: the nesting depth and the
    number of tokens at the innermost level.  The stack has the innermost
    level first. *)
Fixpoint track (tokens : list Token) (stack : list nat) : list nat :=
  match tokens with
  | [] => stack
  | t :: rest =>
      match t, stack with
      | BeginObject, n :: s => track rest (0 :: S n :: s)
      | EndObject, _ :: s => track rest s
      | (Null | Str _ | Encoded _), n :: s => track rest (S n :: s)
      | _, [] => []
      end
  end.

Definition DepthLength (e : Encoder) : nat * nat :=
  let stack := track e [0] in (length stack, hd 0 stack).

Definition wrote_one_value (before after : Encoder) : bool :=
  let (prevDepth, prevLength) := DepthLength before in
  let (currDepth, currLength) := DepthLength after in
  Nat.eqb prevDepth currDepth && Nat.eqb (S prevLength) currLength.

Section Builder.
Context `{JsonEncoder}.

(** [e.WriteToken(t)] *)
Definition WriteToken (t : Token) : Enc (option error) :=
  fun e =>
    match rejects e t with
    | Some err => (Some err, e)
    | None => (None, e ++ [t])
    end.

(** [json.MarshalEncode(e, v, json.WithMarshalers(Marshalers))] at type [T]. *)
Class JsonMarshal (T : Type) : Type :=
  MarshalEncode : T -> Enc (option error).

(** A value with a [MarshalJSONTo] method: the method runs; its error comes
    back wrapped in a [*json.SemanticError] (which unwraps to it), and a
    method that returns nil without having written exactly one value is an
    error too. *)
#[export] Instance JsonMarshal_MarshalerTo : JsonMarshal MarshalerTo :=
  fun m e =>
    let (err, e') := m e in
    match err with
    | Some x => (Some (Wrapf "json: cannot marshal" x), e')
    | None =>
        if wrote_one_value e e' then (None, e')
        else (Some (Foreign "json: marshal method wrote no single value"), e')
    end.

Definition MaybeMarshalTopic (k topic : string) : Enc (option error) :=
  if String.eqb topic "" then ret None
  else JoinCalls [WriteToken (Str k); WriteToken (Str topic)].

Definition MarshalRequiredTopic (name k topic : string) : Enc (option error) :=
  if String.eqb topic "" then ret (Some (violation name ErrTopicRequired))
  else MaybeMarshalTopic k topic.

Definition MarshalRequiredValueTopic {T : Type} (name k : string)
    (v : option (Value.Value T)) (prefix : string) : Enc (option error) :=
  MarshalRequiredTopic name k (Value.FullyQualifiedTopic v prefix).

Definition MarshalRequiredRemoteValueTopic {T W : Type} (name k : string)
    (v : option (RemoteValue.RemoteValue T W)) (prefix : string) : Enc (option error) :=
  MarshalRequiredTopic name k (RemoteValue.FullyQualifiedTopic v prefix).

Definition MaybeMarshalValueTopic {T : Type} (k : string)
    (v : option (Value.Value T)) (prefix : string) : Enc (option error) :=
  MaybeMarshalTopic k (Value.FullyQualifiedTopic v prefix).

Definition MaybeMarshalRemoteValueTopic {T W : Type} (k : string)
    (v : option (RemoteValue.RemoteValue T W)) (prefix : string) : Enc (option error) :=
  MaybeMarshalTopic k (RemoteValue.FullyQualifiedTopic v prefix).

Definition MaybeMarshalStateAndCommandTopics {T W : Type} (name sk : string)
    (s : option (Value.Value T)) (ck : string) (c : option (RemoteValue.RemoteValue T W))
    (prefix : string) : Enc (option error) :=
  match s, c with
  | None, None => ret None
  | None, Some _ | Some _, None => ret (Some (violation name ErrMissingStateOrCommandTopic))
  | Some _, Some _ =>
      JoinCalls [MarshalRequiredValueTopic name sk s prefix;
                 MarshalRequiredRemoteValueTopic name ck c prefix]
  end.

(** [v] is a pointer [*T]. *)
Definition MaybeMarshalStd {T : Type} `{JsonMarshal T} (k : string) (v : option T)
    : Enc (option error) :=
  match v with
  | None => ret None
  | Some x => JoinCalls [WriteToken (Str k); MarshalEncode x]
  end.

Definition MarshalStd {T : Type} `{JsonMarshal T} (name k : string) (v : option T)
    : Enc (option error) :=
  match v with
  | None => ret (Some (violation name ErrValueRequired))
  | Some _ => MaybeMarshalStd k v
  end.

Definition MaybeMarshalStdSlice {T : Type} `{JsonMarshal (list T)} (k : string) (v : list T)
    : Enc (option error) :=
  match v with
  | [] => ret None
  | _ => JoinCalls [WriteToken (Str k); MarshalEncode v]
  end.

(** [==] on a comparable type. *)
Class Comparable (T : Type) : Type := equal : T -> T -> bool.

Definition MarshalStdComparable {T : Type} `{Zero T} `{Comparable T} `{JsonMarshal T}
    (name k : string) (v : T) : Enc (option error) :=
  if equal v zero then ret (Some (violation name ErrValueRequired))
  else MaybeMarshalStd k (Some v).

Definition MaybeMarshalStdComparable {T : Type} `{Zero T} `{Comparable T} `{JsonMarshal T}
    (k : string) (v : T) : Enc (option error) :=
  if equal v zero then ret None
  else MaybeMarshalStd k (Some v).

Definition MarshalStdIfNot {T : Type} `{Zero T} `{Comparable T} `{JsonMarshal T}
    (not : T) (vk : string) (v : T) : Enc (option error) :=
  if equal v not || equal v zero then ret None
  else JoinCalls [WriteToken (Str vk); MarshalEncode v].

(** The [for vk, vv := range v] loop of [MaybeInlineMarshalStd]; the map is
    given as its entries in the order the [range] visits them, which Go
    leaves unspecified. *)
Fixpoint MaybeInlineMarshalStd_loop {T : Type} `{JsonMarshal T} (err : option error)
    (v : list (string * T)) : Enc (option error) :=
  fun e =>
    match v with
    | [] => (err, e)
    | (vk, vv) :: rest =>
        let (rs, e') := run_all [WriteToken (Str vk); MarshalEncode vv] e in
        MaybeInlineMarshalStd_loop (Join (err :: rs)) rest e'
    end.

Definition MaybeInlineMarshalStd {T : Type} `{JsonMarshal T} (v : list (string * T))
    : Enc (option error) :=
  match v with
  | [] => ret None
  | _ => MaybeInlineMarshalStd_loop None v
  end.

End Builder.

(** How the standard values of the builder are rendered. *)
Section Standard.
Context `{JsonEncoder}.

Definition encode_as {T : Type} (render : T -> JValue) : JsonMarshal T :=
  fun v => WriteToken (Encoded (render v)).

#[export] Instance JsonMarshal_string : JsonMarshal string := encode_as JString.
#[export] Instance JsonMarshal_bool : JsonMarshal bool := encode_as JBool.
#[export] Instance JsonMarshal_N : JsonMarshal N := encode_as (fun n => JNumber (Z.of_N n)).
#[export] Instance JsonMarshal_strings : JsonMarshal (list string) :=
  encode_as (fun l => JArray (map JString l)).

End Standard.

#[export] Instance Comparable_string : Comparable string := String.eqb.
#[export] Instance Comparable_bool : Comparable bool := Bool.eqb.
#[export] Instance Comparable_N : Comparable N := N.eqb.

End Discovery.
Import Discovery.

(** The abbreviated field keys of the discovery payload. *)
Module Field.
Definition FieldStateTopic := "stat_t".
Definition FieldCommandTopic := "cmd_t".
Definition FieldDevice := "dev".
Definition FieldOrigin := "o".
Definition FieldComponents := "cmps".
Definition FieldEntityCategory := "ent_cat".
Definition FieldIcon := "ic".
Definition FieldPicture := "picture".
Definition FieldPlatform := "p".
Definition FieldDefaultEntityID := "def_ent_id".
Definition FieldUniqueID := "uniq_id".
Definition FieldPayloadOn := "pl_on".
Definition FieldPayloadOff := "pl_off".
Definition FieldOnCommandType := "on_cmd_type".
Definition FieldOptimistic := "opt".
Definition FieldQualityOfService := "qos".
Definition FieldRetain := "ret".
Definition FieldAvailabilityTopic := "avty_t".
Definition FieldPayloadAvailable := "pl_avail".
Definition FieldPayloadNotAvailable := "pl_not_avail".
Definition FieldExpireMeasurementsAfter := "exp_after".
Definition FieldForceUpdate := "frc_upd".
Definition FieldAttributesTopic := "json_attr_t".
Definition FieldOptions := "opts".
Definition FieldSuggestedDisplayPrecision := "sug_dsp_prc".
Definition FieldStateClass := "stat_cla".
Definition FieldUnitOfMeasurement := "unit_of_meas".
Definition FieldOffDelay := "off_dly".
Definition FieldColorModeStateTopic := "clrm_stat_t".
Definition FieldColorModeCommandTopic := "clrm_cmd_t".
Definition FieldSupportedColorModes := "sup_clrm".
Definition FieldBrightnessCommandTopic := "bri_cmd_t".
Definition FieldBrightnessStateTopic := "bri_stat_t".
Definition FieldBrightnessScale := "bri_scl".
Definition FieldColorTemperatureCommandTopic := "clr_temp_cmd_t".
Definition FieldColorTemperatureStateTopic := "clr_temp_stat_t".
Definition FieldColorTemperatureInKelvin := "clr_temp_k".
Definition FieldMinKelvin := "min_k".
Definition FieldMaxKelvin := "max_k".
Definition FieldMinMireds := "min_mirs".
Definition FieldMaxMireds := "max_mirs".
Definition FieldHueSatCommandTopic := "hs_cmd_t".
Definition FieldHueSatStateTopic := "hs_stat_t".
Definition FieldXYCommandTopic := "xy_cmd_t".
Definition FieldXYStateTopic := "xy_stat_t".
Definition FieldRGBCommandTopic := "rgb_cmd_t".
Definition FieldRGBStateTopic := "rgb_stat_t".
Definition FieldRGBWCommandTopic := "rgbW_cmd_t".
Definition FieldRGBWStateTopic := "rgbW_stat_t".
Definition FieldRGBWWCommandTopic := "rgbWW_cmd_t".
Definition FieldRGBWWStateTopic := "rgbWW_stat_t".
Definition FieldWhiteCommandTopic := "whit_cmd_t".
Definition FieldWhiteScale := "whit_scl".
Definition FieldEffectCommandTopic := "fx_cmd_t".
Definition FieldEffectStateTopic := "fx_stat_t".
Definition FieldEffectList := "fx_list".
Definition IDSep := "__".
End Field.
Import Field.

(** ** Package hass: the string types shared by the platforms *)

Module Hass.

Definition Availability := string.
Definition Available : Availability := "online".
Definition Unavailable : Availability := "offline".

Record CustomAvailability : Type := {
  CustomAvailable : Availability;
  CustomUnavailable : Availability
}.

Definition PowerState := string.
Definition PowerStateOn : PowerState := "ON".
Definition PowerStateOff : PowerState := "OFF".

Record CustomPowerState : Type := {
  On : PowerState;
  Off : PowerState
}.

Definition ColorMode := string.
Definition StateClass := string.

Definition AvailabilityMarshaler : ValueMarshaler Availability := StringMarshaler.
Definition AvailabilityUnmarshaler : ValueUnmarshaler Availability := StringUnmarshaler.
Definition PowerStateMarshaler : ValueMarshaler PowerState := StringMarshaler.
Definition PowerStateUnmarshaler : ValueUnmarshaler PowerState := StringUnmarshaler.

End Hass.
Import Hass.

(** ** The [hqtt.Platform] interface *)

(** [ServeMQTT] is the [mqtt.Handler] part of the interface; no platform of
    the repository uses the [Writer] it is passed, which is left out. *)
Class Platform `{JsonEncoder} (P W : Type) : Type := {
  PlatformName : P -> string;
  Subscriptions : P -> string -> list Subscription;
  MarshalDiscoveryTo : P -> string -> Enc (option error);
  ServeMQTT : P -> string -> list byte -> W -> P * W * list LogRecord
}.

(** [time.Duration], in nanoseconds, and [*url.URL], by its [String()]. *)
Definition Duration := Z.
Definition URL := string.
#[export] Instance Zero_Duration : Zero Duration := 0%Z.
#[export] Instance Comparable_Duration : Comparable Duration := Z.eqb.

(** ** Package platform: the sensor platforms *)

Module Sensors.
Section Sensor.
Context `{JsonEncoder} {TValue TAttributes W : Type}.
(** [discovery.Marshalers] renders a duration as [int64(t.Seconds())]; the
    rendering of the state type is that of [encoding/json]. *)
Context `{JsonMarshal Duration} `{JsonMarshal (list TValue)}.

Record Sensor : Type := {
  ExpireMeasurementsAfter : Duration;
  ForceUpdate : bool;
  Attributes : option (Value.Value TAttributes);
  EnumOptions : list TValue;
  SuggestedDisplayPrecision : N;
  SensorStateClass : StateClass;
  State : option (Value.Value TValue);
  UnitOfMeasurement : string
}.

Definition Sensor_MarshalDiscoveryTo (s : Sensor) (prefix : string) : Enc (option error) :=
  JoinCalls [
    MaybeMarshalStdComparable FieldExpireMeasurementsAfter (ExpireMeasurementsAfter s);
    MaybeMarshalStdComparable FieldForceUpdate (ForceUpdate s);
    MaybeMarshalValueTopic FieldAttributesTopic (Attributes s) prefix;
    MaybeMarshalStdSlice FieldOptions (EnumOptions s);
    MaybeMarshalStdComparable FieldSuggestedDisplayPrecision (SuggestedDisplayPrecision s);
    MaybeMarshalStdComparable FieldStateClass (SensorStateClass s);
    MarshalRequiredValueTopic "state" FieldStateTopic (State s) prefix;
    MaybeMarshalStdComparable FieldUnitOfMeasurement (UnitOfMeasurement s)
  ].

#[export] Instance Platform_Sensor : Platform Sensor W := {
  PlatformName := fun _ => "sensor";
  Subscriptions := fun _ _ => [];
  MarshalDiscoveryTo := Sensor_MarshalDiscoveryTo;
  ServeMQTT := fun s _ _ w => (s, w, [])
}.

End Sensor.
Arguments Sensor TValue TAttributes : clear implicits.

Section BinarySensor.
Context `{JsonEncoder} {TAttributes W : Type}.
Context `{JsonMarshal Duration} `{JsonMarshal (list PowerState)}.

Record BinarySensor : Type := {
  Embedded : Sensor PowerState TAttributes;
  OffDelay : Duration
}.

Definition NewBinarySensor (state : option (Value.Value PowerState))
    (attrs : option (Value.Value TAttributes)) : BinarySensor :=
  {| Embedded := {| ExpireMeasurementsAfter := zero; ForceUpdate := false;
                    Attributes := attrs; EnumOptions := [];
                    SuggestedDisplayPrecision := 0%N; SensorStateClass := "";
                    State := state; UnitOfMeasurement := "" |};
     OffDelay := zero |}.

Definition BinarySensor_MarshalDiscoveryTo (s : BinarySensor) (prefix : string)
    : Enc (option error) :=
  JoinCalls [
    Sensor_MarshalDiscoveryTo (Embedded s) prefix;
    MaybeMarshalStdComparable FieldOffDelay (OffDelay s)
  ].

#[export] Instance Platform_BinarySensor : Platform BinarySensor W := {
  PlatformName := fun _ => "binary_sensor";
  Subscriptions := fun s prefix => Subscriptions (P := Sensor PowerState TAttributes) (W := W) (Embedded s) prefix;
  MarshalDiscoveryTo := BinarySensor_MarshalDiscoveryTo;
  ServeMQTT := fun s topic message w =>
    let '(inner, w', logged) := ServeMQTT (Embedded s) topic message w in
    ({| Embedded := inner; OffDelay := OffDelay s |}, w', logged)
}.

End BinarySensor.
Arguments BinarySensor TAttributes : clear implicits.
End Sensors.

(** ** Package platform: the light platform *)

Module Lights.

Definition LightOnCommandType := string.
Definition LightOnCommandTypeLast : LightOnCommandType := "last".
Definition DefaultLightOnCommandType : LightOnCommandType := LightOnCommandTypeLast.
Definition LightOnCommandTypeFirst : LightOnCommandType := "first".
Definition LightOnCommandTypeBrightness : LightOnCommandType := "brightness".

Record HueSat : Type := { Hue : float; Saturation : float }.
Record RGB : Type := { R : N; G : N; B : N }.
Record RGBW : Type := { RGBW_RGB : RGB; RGBW_W : N }.
Record RGBWW : Type := { RGBWW_RGBW : RGBW; RGBWW_WW : N }.
Record XY : Type := { X : float; Y : float }.

#[export] Instance Zero_HueSat : Zero HueSat := {| Hue := 0%float; Saturation := 0%float |}.
#[export] Instance Zero_XY : Zero XY := {| X := 0%float; Y := 0%float |}.
#[export] Instance Zero_RGB : Zero RGB := {| R := 0%N; G := 0%N; B := 0%N |}.
#[export] Instance Zero_RGBW : Zero RGBW := {| RGBW_RGB := zero; RGBW_W := 0%N |}.
#[export] Instance Zero_RGBWW : Zero RGBWW := {| RGBWW_RGBW := zero; RGBWW_WW := 0%N |}.

Section Light.
Context `{JsonEncoder} {W : Type}.
(** [encoding/json.Unmarshal] at the types of the command cells, for the
    cells left without an unmarshaler. *)
Context `{JsonUnmarshal string} `{JsonUnmarshal N} `{JsonUnmarshal HueSat}
        `{JsonUnmarshal XY} `{JsonUnmarshal RGB} `{JsonUnmarshal RGBW} `{JsonUnmarshal RGBWW}.

Record Light : Type := {
  OnCommandType : LightOnCommandType;
  Optimistic : bool;
  State : option (Value.Value PowerState);
  Command : option (RemoteValue.RemoteValue PowerState W);
  CustomPowerStateValues : CustomPowerState;
  ColorMode_ : option (Value.Value ColorMode);
  ColorModeCommand : option (RemoteValue.RemoteValue ColorMode W);
  SupportedColorModes : list ColorMode;
  Brightness : option (Value.Value N);
  BrightnessCommand : option (RemoteValue.RemoteValue N W);
  BrightnessScale : N;
  ColorTemperature : option (Value.Value N);
  ColorTemperatureCommand : option (RemoteValue.RemoteValue N W);
  ColorTemperatureInKelvin : bool;
  MaxKelvin : N;
  MinKelvin : N;
  MaxMireds : N;
  MinMireds : N;
  HueSat_ : option (Value.Value HueSat);
  HueSatCommand : option (RemoteValue.RemoteValue HueSat W);
  XY_ : option (Value.Value XY);
  XYCommand : option (RemoteValue.RemoteValue XY W);
  RGB_ : option (Value.Value RGB);
  RGBCommand : option (RemoteValue.RemoteValue RGB W);
  RGBW_ : option (Value.Value RGBW);
  RGBWCommand : option (RemoteValue.RemoteValue RGBW W);
  RGBWW_ : option (Value.Value RGBWW);
  RGBWWCommand : option (RemoteValue.RemoteValue RGBWW W);
  WhiteBrightnessCommand : option (RemoteValue.RemoteValue N W);
  WhiteScale : N;
  Effect : option (Value.Value string);
  EffectCommand : option (RemoteValue.RemoteValue string W);
  PossibleEffects : list string
}.

Definition Light_Subscriptions (l : Light) (prefix : string) : list Subscription :=
  let result := [] in
  let result := RemoteValue.AppendSubscribeOptions (Command l) result prefix in
  let result := RemoteValue.AppendSubscribeOptions (ColorModeCommand l) result prefix in
  let result := RemoteValue.AppendSubscribeOptions (BrightnessCommand l) result prefix in
  let result := RemoteValue.AppendSubscribeOptions (ColorTemperatureCommand l) result prefix in
  let result := RemoteValue.AppendSubscribeOptions (HueSatCommand l) result prefix in
  let result := RemoteValue.AppendSubscribeOptions (XYCommand l) result prefix in
  let result := RemoteValue.AppendSubscribeOptions (RGBCommand l) result prefix in
  let result := RemoteValue.AppendSubscribeOptions (RGBWCommand l) result prefix in
  let result := RemoteValue.AppendSubscribeOptions (RGBWWCommand l) result prefix in
  let result := RemoteValue.AppendSubscribeOptions (WhiteBrightnessCommand l) result prefix in
  let result := RemoteValue.AppendSubscribeOptions (EffectCommand l) result prefix in
  result.

(** The [switch topic]: the position of the first [case] whose expression
    equals [topic], or the number of cases for [default]. *)
Fixpoint first_case (topic : string) (cases : list string) : nat :=
  match cases with
  | [] => 0
  | k :: rest => if String.eqb topic k then 0 else S (first_case topic rest)
  end.

(** The body of case [i], run only when case [i] is the one chosen. *)
Definition case_body {T : Type} `{Zero T} `{JsonUnmarshal T} (chosen i : nat)
    (cell : option (RemoteValue.RemoteValue T W)) (topic : string) (payload : list byte)
    (w : W) : option (RemoteValue.RemoteValue T W) * W * list LogRecord :=
  if Nat.eqb chosen i then RemoteValue.ServeMQTT cell topic payload w else (cell, w, []).

Definition Light_ServeMQTT (l : Light) (topic : string) (payload : list byte) (w : W)
    : Light * W * list LogRecord :=
  let chosen := first_case topic [
    RemoteValue.FullyQualifiedTopic (Command l) "";
    RemoteValue.FullyQualifiedTopic (ColorModeCommand l) "";
    RemoteValue.FullyQualifiedTopic (BrightnessCommand l) "";
    RemoteValue.FullyQualifiedTopic (ColorTemperatureCommand l) "";
    RemoteValue.FullyQualifiedTopic (HueSatCommand l) "";
    RemoteValue.FullyQualifiedTopic (XYCommand l) "";
    RemoteValue.FullyQualifiedTopic (RGBCommand l) "";
    RemoteValue.FullyQualifiedTopic (RGBWCommand l) "";
    RemoteValue.FullyQualifiedTopic (RGBWWCommand l) "";
    RemoteValue.FullyQualifiedTopic (WhiteBrightnessCommand l) "";
    RemoteValue.FullyQualifiedTopic (EffectCommand l) ""
  ] in
  let '(command, w, l0) := case_body chosen 0 (Command l) topic payload w in
  let '(colorMode, w, l1) := case_body chosen 1 (ColorModeCommand l) topic payload w in
  let '(brightness, w, l2) := case_body chosen 2 (BrightnessCommand l) topic payload w in
  let '(colorTemp, w, l3) := case_body chosen 3 (ColorTemperatureCommand l) topic payload w in
  let '(hueSat, w, l4) := case_body chosen 4 (HueSatCommand l) topic payload w in
  let '(xy, w, l5) := case_body chosen 5 (XYCommand l) topic payload w in
  let '(rgb, w, l6) := case_body chosen 6 (RGBCommand l) topic payload w in
  let '(rgbw, w, l7) := case_body chosen 7 (RGBWCommand l) topic payload w in
  let '(rgbww, w, l8) := case_body chosen 8 (RGBWWCommand l) topic payload w in
  let '(white, w, l9) := case_body chosen 9 (WhiteBrightnessCommand l) topic payload w in
  let '(effect, w, l10) := case_body chosen 10 (EffectCommand l) topic payload w in
  ({| OnCommandType := OnCommandType l; Optimistic := Optimistic l;
      State := State l; Command := command;
      CustomPowerStateValues := CustomPowerStateValues l;
      ColorMode_ := ColorMode_ l; ColorModeCommand := colorMode;
      SupportedColorModes := SupportedColorModes l;
      Brightness := Brightness l; BrightnessCommand := brightness;
      BrightnessScale := BrightnessScale l;
      ColorTemperature := ColorTemperature l; ColorTemperatureCommand := colorTemp;
      ColorTemperatureInKelvin := ColorTemperatureInKelvin l;
      MaxKelvin := MaxKelvin l; MinKelvin := MinKelvin l;
      MaxMireds := MaxMireds l; MinMireds := MinMireds l;
      HueSat_ := HueSat_ l; HueSatCommand := hueSat;
      XY_ := XY_ l; XYCommand := xy;
      RGB_ := RGB_ l; RGBCommand := rgb;
      RGBW_ := RGBW_ l; RGBWCommand := rgbw;
      RGBWW_ := RGBWW_ l; RGBWWCommand := rgbww;
      WhiteBrightnessCommand := white; WhiteScale := WhiteScale l;
      Effect := Effect l; EffectCommand := effect;
      PossibleEffects := PossibleEffects l |},
   w, l0 ++ l1 ++ l2 ++ l3 ++ l4 ++ l5 ++ l6 ++ l7 ++ l8 ++ l9 ++ l10).

Definition Light_MarshalDiscoveryTo (l : Light) (prefix : string) : Enc (option error) :=
  JoinCalls [
    MarshalStdIfNot DefaultLightOnCommandType FieldOnCommandType (OnCommandType l);

    MaybeMarshalStdComparable FieldOptimistic (Optimistic l);

    MaybeMarshalValueTopic FieldStateTopic (State l) prefix;
    MarshalRequiredRemoteValueTopic "command" FieldCommandTopic (Command l) prefix;

    MaybeMarshalStdComparable FieldPayloadOn (On (CustomPowerStateValues l));
    MaybeMarshalStdComparable FieldPayloadOff (Off (CustomPowerStateValues l));

    MaybeMarshalStateAndCommandTopics "color mode"
      FieldColorModeStateTopic (ColorMode_ l)
      FieldColorModeCommandTopic (ColorModeCommand l)
      prefix;
    MaybeMarshalStd FieldSupportedColorModes (Some (SupportedColorModes l));
    MaybeMarshalStateAndCommandTopics "brightness"
      FieldBrightnessStateTopic (Brightness l)
      FieldBrightnessCommandTopic (BrightnessCommand l)
      prefix;
    MaybeMarshalStdComparable FieldBrightnessScale (BrightnessScale l);

    MaybeMarshalStateAndCommandTopics "color temperature"
      FieldColorTemperatureStateTopic (ColorTemperature l)
      FieldColorTemperatureCommandTopic (ColorTemperatureCommand l)
      prefix;
    MaybeMarshalStdComparable FieldColorTemperatureInKelvin (ColorTemperatureInKelvin l);
    MaybeMarshalStdComparable FieldMaxKelvin (MaxKelvin l);
    MaybeMarshalStdComparable FieldMinKelvin (MinKelvin l);
    MaybeMarshalStdComparable FieldMaxMireds (MaxMireds l);
    MaybeMarshalStdComparable FieldMinMireds (MinMireds l);

    MaybeMarshalStateAndCommandTopics "hue sat"
      FieldHueSatStateTopic (ColorTemperature l)
      FieldHueSatCommandTopic (ColorTemperatureCommand l)
      prefix;

    MaybeMarshalStateAndCommandTopics "xy"
      FieldXYCommandTopic (XY_ l)
      FieldXYStateTopic (XYCommand l)
      prefix;

    MaybeMarshalStateAndCommandTopics "rgb"
      FieldRGBStateTopic (RGB_ l)
      FieldRGBCommandTopic (RGBCommand l)
      prefix;
    MaybeMarshalStateAndCommandTopics "rgbw"
      FieldRGBWStateTopic (RGBW_ l)
      FieldRGBWCommandTopic (RGBWCommand l)
      prefix;
    MaybeMarshalStateAndCommandTopics "rgbww"
      FieldRGBWWStateTopic (RGBWW_ l)
      FieldRGBWWCommandTopic (RGBWWCommand l)
      prefix;

    MaybeMarshalRemoteValueTopic FieldWhiteCommandTopic (WhiteBrightnessCommand l) prefix;
    MaybeMarshalStdComparable FieldWhiteScale (WhiteScale l);

    MaybeMarshalStateAndCommandTopics "effect"
      FieldEffectStateTopic (Effect l)
      FieldEffectCommandTopic (EffectCommand l)
      prefix;
    MaybeMarshalStdSlice FieldEffectList (PossibleEffects l)
  ].

#[export] Instance Platform_Light : Platform Light W := {
  PlatformName := fun _ => "light";
  Subscriptions := Light_Subscriptions;
  MarshalDiscoveryTo := Light_MarshalDiscoveryTo;
  ServeMQTT := Light_ServeMQTT
}.

End Light.
Arguments Light W : clear implicits.
End Lights.

(** ** Package hqtt: origin and device *)

Module Device.

Record Origin : Type := {
  OriginName : string;
  SoftwareVersion : string;
  SupportURL : option URL
}.

Definition DefaultOrigin : Origin :=
  {| OriginName := "hqtt"; SoftwareVersion := "master";
     SupportURL := Some "https://github.com/nlowe/hqtt" |}.

Record DeviceConnection : Type := {
  Kind : string;
  Value : string
}.

Record Device : Type := {
  DiscoveryID : string;
  Name : string;
  Serial : string;
  Manufacturer : string;
  Model : string;
  ModelID : string;
  ConfigurationURL : option URL;
  Connections : list DeviceConnection;
  HardwareVersion : string;
  FirmwareVersion : string;
  Identifiers : list string;
  SuggestedArea : string;
  DeviceOrigin : option Origin;
  ViaDevice : string
}.

(** [discovery.IDSanitizer]: every old string is one byte, so the replacer
    works byte by byte. *)
Definition unsafe_in_id (a : ascii) : bool :=
  existsb (Ascii.eqb a) [" "; ":"; "."; "!"; "?"; "/"]%char.

Fixpoint IDSanitizer_Replace (s : string) : string :=
  match s with
  | EmptyString => EmptyString
  | String a rest =>
      ((if unsafe_in_id a then IDSep else String a EmptyString)
       ++ IDSanitizer_Replace rest)%string
  end.

Definition writeSep (result : string) : string :=
  if (0 <? String.length result)%nat then (result ++ IDSep)%string else result.

Fixpoint ID_identifiers (n i : nat) (idents : list string) (result : string) : string :=
  match idents with
  | [] => result
  | ident :: rest =>
      let result := (result ++ IDSanitizer_Replace ident)%string in
      let result := if (i <? n - 1)%nat then writeSep result else result in
      ID_identifiers n (S i) rest result
  end.

Definition ID_field (field result : string) : string :=
  if String.eqb field "" then result
  else (writeSep result ++ IDSanitizer_Replace field)%string.

Definition ID (d : Device) : string :=
  if negb (String.eqb (DiscoveryID d) "") then DiscoveryID d
  else
    let result := ID_identifiers (length (Identifiers d)) 0 (Identifiers d) "" in
    let result := ID_field (Name d) result in
    let result := ID_field (Serial d) result in
    let result := ID_field (Manufacturer d) result in
    let result := ID_field (Model d) result in
    ID_field (ModelID d) result.

Definition Valid (d : Device) : option error :=
  match Identifiers d, Connections d with
  | [], [] => Some (Sentinel_ ErrInvalidDevice)
  | _, _ => None
  end.

(** The struct tags: a field tagged [omitempty] is left out when it would
    encode as [null], [""], [[]] or [{}]. *)
Definition omitempty (k : string) (j : JValue) : list (string * JValue) :=
  match j with
  | JNull | JString EmptyString | JArray [] | JObject [] => []
  | _ => [(k, j)]
  end.

Definition URL_json (u : option URL) : JValue :=
  match u with
  | None => JNull
  | Some s => JString s
  end.

Definition DeviceConnection_json (c : DeviceConnection) : JValue :=
  JArray [JString (Kind c); JString (Value c)].

Definition Device_json (d : Device) : JValue :=
  JObject (omitempty "name" (JString (Name d))
           ++ omitempty "sn" (JString (Serial d))
           ++ omitempty "mf" (JString (Manufacturer d))
           ++ omitempty "mdl" (JString (Model d))
           ++ omitempty "mdl_id" (JString (ModelID d))
           ++ omitempty "cu" (URL_json (ConfigurationURL d))
           ++ omitempty "cns" (JArray (map DeviceConnection_json (Connections d)))
           ++ omitempty "hw" (JString (HardwareVersion d))
           ++ omitempty "sw" (JString (FirmwareVersion d))
           ++ omitempty "ids" (JArray (map JString (Identifiers d)))
           ++ omitempty "sa" (JString (SuggestedArea d))
           ++ omitempty "via_device" (JString (ViaDevice d))).

Definition Origin_json (o : Origin) : JValue :=
  JObject ([("name", JString (OriginName o))]
           ++ omitempty "sw" (JString (SoftwareVersion o))
           ++ omitempty "url" (URL_json (SupportURL o))).

Section Configure.
Context `{JsonEncoder} {W : Type} `{Writer W}.

#[export] Instance JsonMarshal_Device : JsonMarshal Device := encode_as Device_json.
#[export] Instance JsonMarshal_Origin : JsonMarshal Origin := encode_as Origin_json.

(** [cmp.Or(d.Origin, &DefaultOrigin)] *)
Definition origin_or_default (d : Device) : Origin :=
  match DeviceOrigin d with
  | Some o => o
  | None => DefaultOrigin
  end.

(** [fmt.Sprintf(`%s/device/%s/config`, discoveryPrefix, d.ID())] *)
Definition config_topic (discoveryPrefix : string) (d : Device) : string :=
  (discoveryPrefix ++ "/device/" ++ ID d ++ "/config")%string.

(** [Configure]: the transport afterwards and the error returned.  The
    components are the entries of the map in the order [range] visits them. *)
Definition Configure (d : Device) (w : W) (discoveryPrefix : string)
    (components : list (string * MarshalerTo)) : W * option error :=
  match Valid d with
  | Some err => (w, Some err)
  | None =>
      let (err, e) :=
        JoinCalls [
          WriteToken BeginObject;

          MarshalStd "device" FieldDevice (Some d);
          MarshalStd "origin" FieldOrigin (Some (origin_or_default d));

          WriteToken (Str FieldComponents);
          WriteToken BeginObject;

          MaybeInlineMarshalStd components;

          WriteToken EndObject;
          WriteToken EndObject
        ] [] in
      match err with
      | Some x => (w, Some (Wrapf "configure: marshal discovery config" x))
      | None =>
          WriteTopic (config_topic discoveryPrefix d)
                     {| QoS := 0%N; Retain := true |} (Bytes e) w
      end
  end.

End Configure.
End Device.

(** ** Package hqtt: components *)

Module Component.
Section Component.
Context `{JsonEncoder} {P W : Type} `{Platform P W}.

Record Component : Type := {
  ComponentPlatform : P;
  TopicPrefix : string;
  Name : string;
  EntityCategory : string;
  Icon : string;
  Picture : option URL;
  Availability : option (Value.Value Hass.Availability);
  CustomAvailabilityValues : CustomAvailability;
  DefaultEntityID : string;
  UniqueID : string;
  ComponentWriteOptions : WriteOptions;
  subscribedTopics : list string
}.

Definition with_subscribedTopics (c : Component) (topics : list string) : Component :=
  {| ComponentPlatform := ComponentPlatform c; TopicPrefix := TopicPrefix c;
     Name := Name c; EntityCategory := EntityCategory c; Icon := Icon c;
     Picture := Picture c; Availability := Availability c;
     CustomAvailabilityValues := CustomAvailabilityValues c;
     DefaultEntityID := DefaultEntityID c; UniqueID := UniqueID c;
     ComponentWriteOptions := ComponentWriteOptions c;
     subscribedTopics := topics |}.

(** [strings.CutPrefix] *)
Fixpoint CutPrefix (s prefix : string) : option string :=
  match prefix, s with
  | EmptyString, _ => Some s
  | String a p', String b s' => if Ascii.eqb a b then CutPrefix s' p' else None
  | String _ _, EmptyString => None
  end.

(** The handler a component registers: a message under another prefix is
    dropped, the others go to the platform with the prefix cut off. *)
Definition Handler : Type := string -> list byte -> P -> W -> P * W * list LogRecord.

Definition handler (c : Component) : Handler :=
  fun topic payload platform w =>
    match CutPrefix topic (TrimTopic (TopicPrefix c)) with
    | None => (platform, w, [])
    | Some rest => ServeMQTT platform (TrimTopic rest) payload w
    end.

Section Subscribing.
Context {S : Type} `{Subscriber S Handler}.

(** [Subscribe]: the component, the transport afterwards, the error. *)
Definition Subscribe (c : Component) (s : S) : Component * S * option error :=
  if negb (Nat.eqb (length (subscribedTopics c)) 0)
  then (c, s, Some (Sentinel_ ErrComponentAlreadySubscribed))
  else
    let subscriptions := Subscriptions (ComponentPlatform c) (TopicPrefix c) in
    let c' := with_subscribedTopics c (map Topic subscriptions) in
    let (s', err) :=
      Mqtt.Subscribe (handler c') (Subscriptions (ComponentPlatform c') (TopicPrefix c')) s in
    (c', s', err).

Definition Unsubscribe (c : Component) (s : S) : Component * S * option error :=
  if Nat.eqb (length (subscribedTopics c)) 0 then (c, s, None)
  else
    let topics := subscribedTopics c in
    let c' := with_subscribedTopics c [] in
    let (s', err) := Mqtt.Unsubscribe (H := Handler) topics s in
    (c', s', err).

End Subscribing.

Definition MarshalJSONTo (c : Component) : MarshalerTo :=
  let nameToken := if negb (String.eqb (Name c) "") then Str (Name c) else Null in
  JoinCalls [
    WriteToken BeginObject;

    MarshalStdComparable "platform" FieldPlatform (PlatformName (ComponentPlatform c));

    WriteToken (Str "name");
    WriteToken nameToken;

    MaybeMarshalStdComparable FieldEntityCategory (EntityCategory c);
    MaybeMarshalStdComparable FieldIcon (Icon c);
    MaybeMarshalStd FieldPicture (Picture c);

    MarshalRequiredValueTopic "availability" FieldAvailabilityTopic (Availability c) (TopicPrefix c);
    MaybeMarshalStdComparable FieldPayloadAvailable (CustomAvailable (CustomAvailabilityValues c));
    MaybeMarshalStdComparable FieldPayloadNotAvailable (CustomUnavailable (CustomAvailabilityValues c));

    MaybeMarshalStdComparable FieldDefaultEntityID (DefaultEntityID c);
    MaybeMarshalStdComparable FieldUniqueID (UniqueID c);
    MaybeMarshalStdComparable FieldQualityOfService (QoS (ComponentWriteOptions c));
    MaybeMarshalStdComparable FieldRetain (Retain (ComponentWriteOptions c));

    MarshalDiscoveryTo (ComponentPlatform c) (TopicPrefix c);

    WriteToken EndObject
  ].

End Component.
Arguments Component P : clear implicits.
End Component.

Unset Implicit Arguments.

(** ** How errors travel through [errors.Join] and the builder *)

Module JoinFacts.

Lemma nonnil_In (e : error) (errs : list (option error)) :
  In (Some e) errs -> In e (nonnil errs).
Proof.
  unfold nonnil. intros Hin. apply in_flat_map.
  exists (Some e). split; [exact Hin | now left].
Qed.

(** A joined error holds whatever its members hold. *)
Lemma Join_Occurs (x e : error) (errs : list (option error)) :
  In (Some e) errs -> Occurs x e ->
  exists err, Join errs = Some err /\ Occurs x err.
Proof.
  intros Hin Hx. apply nonnil_In in Hin. unfold Join.
  destruct (nonnil errs) as [| e0 es] eqn:Hes; [contradiction |].
  exists (Joined (e0 :: es)). split; [reflexivity |].
  now apply Occurs_joined with (e := e).
Qed.

Lemma Is_Joined (es : list error) (s : Sentinel) :
  Is (Joined es) s = existsb (fun e => Is e s) es.
Proof.
  simpl. induction es as [| e es IH]; [reflexivity |].
  simpl. now rewrite IH.
Qed.

(** What occurs in an error is found by [errors.Is]. *)
Lemma Occurs_Is (x e : error) (s : Sentinel) :
  Occurs x e -> Is x s = true -> Is e s = true.
Proof.
  intros Hocc Hx. induction Hocc as [| p e _ IH | es e Hin _ IH].
  - exact Hx.
  - simpl. exact IH.
  - rewrite Is_Joined. apply existsb_exists. now exists e.
Qed.

Lemma violation_Is (name : string) (s : Sentinel) : Is (violation name s) s = true.
Proof. destruct s; reflexivity. Qed.

(** [reports call x]: whatever state the encoder is in, [call] fails with an
    error in which [x] occurs. *)
Definition reports (call : Enc (option error)) (x : error) : Prop :=
  forall e, exists err, fst (call e) = Some err /\ Occurs x err.

Lemma run_all_reports (x : error) (call : Enc (option error)) :
  reports call x ->
  forall calls, In call calls ->
  forall e, exists err, In (Some err) (fst (run_all calls e)) /\ Occurs x err.
Proof.
  intros Hrep calls. induction calls as [| c0 rest IH]; intros Hin e; [contradiction |].
  simpl. destruct (c0 e) as [r e1] eqn:Hc0.
  destruct Hin as [-> | Hin].
  - destruct (Hrep e) as (err & Herr & Hocc). rewrite Hc0 in Herr. simpl in Herr. subst r.
    destruct (run_all rest e1) as [rs e2]. simpl.
    exists err. split; [now left | exact Hocc].
  - destruct (IH Hin e1) as (err & Herr & Hocc).
    destruct (run_all rest e1) as [rs e2]. simpl in *.
    exists err. split; [now right | exact Hocc].
Qed.

(** A call that always fails with [x] makes the whole join fail with [x],
    wherever it stands in the argument list. *)
Lemma JoinCalls_reports (x : error) (call : Enc (option error)) (calls : list (Enc (option error))) :
  In call calls -> reports call x -> reports (JoinCalls calls) x.
Proof.
  intros Hin Hrep e. unfold JoinCalls.
  destruct (run_all_reports x call Hrep calls Hin e) as (err & Herr & Hocc).
  destruct (run_all calls e) as [rs e']. simpl in *.
  now apply Join_Occurs with (e := err).
Qed.

Lemma ret_reports (x : error) : reports (ret (Some x)) x.
Proof. intros e. exists x. split; [reflexivity | constructor]. Qed.

Section WithEncoder.
Context `{JsonEncoder}.

Lemma MarshalEncode_reports (m : MarshalerTo) (x : error) :
  reports m x -> reports (MarshalEncode m) x.
Proof.
  intros Hrep e. unfold MarshalEncode, JsonMarshal_MarshalerTo.
  destruct (Hrep e) as (err & Herr & Hocc).
  destruct (m e) as [r e']. simpl in Herr. subst r. simpl.
  exists (Wrapf "json: cannot marshal" err). split; [reflexivity |].
  now constructor.
Qed.

(** The loop keeps the error it was given and adds those of the entries. *)
Lemma MaybeInlineMarshalStd_loop_keeps (x : error) (v : list (string * MarshalerTo)) :
  forall acc e0 e, acc = Some e0 -> Occurs x e0 ->
  exists err, fst (MaybeInlineMarshalStd_loop acc v e) = Some err /\ Occurs x err.
Proof.
  induction v as [| [vk vv] rest IH]; intros acc e0 e Hacc Hocc; simpl.
  - exists e0. now split.
  - destruct (WriteToken (Str vk) e) as [r1 e1].
    destruct (MarshalEncode vv e1) as [r2 e2].
    destruct (Join_Occurs x e0 [acc; r1; r2]) as (err & Herr & Hocc');
      [left; now symmetry | exact Hocc |].
    now apply IH with (e0 := err).
Qed.

Lemma MaybeInlineMarshalStd_loop_reports (x : error) (k : string) (m : MarshalerTo)
    (v : list (string * MarshalerTo)) :
  In (k, m) v -> reports m x ->
  forall acc, reports (MaybeInlineMarshalStd_loop acc v) x.
Proof.
  intros Hin Hrep. induction v as [| [vk vv] rest IH]; intros acc e; [contradiction |].
  simpl. destruct (WriteToken (Str vk) e) as [r1 e1].
  destruct Hin as [Heq | Hin].
  - inversion Heq; subst vk vv.
    destruct (MarshalEncode_reports m x Hrep e1) as (err & Herr & Hocc).
    destruct (MarshalEncode m e1) as [r2 e2]. simpl in Herr. subst r2.
    destruct (Join_Occurs x err [acc; r1; Some err]) as (err' & Herr' & Hocc');
      [right; right; now left | exact Hocc |].
    now apply MaybeInlineMarshalStd_loop_keeps with (e0 := err').
  - destruct (MarshalEncode vv e1) as [r2 e2]. now apply IH.
Qed.

Lemma MaybeInlineMarshalStd_reports (x : error) (k : string) (m : MarshalerTo)
    (v : list (string * MarshalerTo)) :
  In (k, m) v -> reports m x -> reports (MaybeInlineMarshalStd v) x.
Proof.
  intros Hin Hrep. unfold MaybeInlineMarshalStd.
  destruct v as [| entry rest]; [contradiction |].
  now apply MaybeInlineMarshalStd_loop_reports with (k := k) (m := m).
Qed.

Lemma MarshalRequiredTopic_reports (name k : string) :
  reports (MarshalRequiredTopic name k "") (violation name ErrTopicRequired).
Proof. apply ret_reports. Qed.

End WithEncoder.
End JoinFacts.

(** ** Document assembly: validation and aggregation *)

Module ConfigureFacts.
Import JoinFacts Device.

Section Components.
Context `{JsonEncoder} {P W : Type} `{Platform P W}.

(** A component without an availability topic reports it. *)
Lemma Component_reports_availability (c : Component.Component P) :
  Value.FullyQualifiedTopic (Component.Availability c) (Component.TopicPrefix c) = "" ->
  reports (Component.MarshalJSONTo c) (violation "availability" ErrTopicRequired).
Proof.
  intros Htopic. unfold Component.MarshalJSONTo.
  eapply JoinCalls_reports; [do 7 right; left; reflexivity |].
  unfold MarshalRequiredValueTopic. rewrite Htopic. apply MarshalRequiredTopic_reports.
Qed.

(** A component whose platform has no name reports it. *)
Lemma Component_reports_platform (c : Component.Component P) :
  PlatformName (Component.ComponentPlatform c) = "" ->
  reports (Component.MarshalJSONTo c) (violation "platform" ErrValueRequired).
Proof.
  intros Hname. unfold Component.MarshalJSONTo.
  eapply JoinCalls_reports; [right; left; reflexivity |].
  unfold MarshalStdComparable. rewrite Hname. apply ret_reports.
Qed.

(** What the platform reports, the component reports. *)
Lemma Component_reports_platform_violation (c : Component.Component P) (x : error) :
  reports (MarshalDiscoveryTo (Component.ComponentPlatform c) (Component.TopicPrefix c)) x ->
  reports (Component.MarshalJSONTo c) x.
Proof.
  intros Hrep. unfold Component.MarshalJSONTo.
  eapply JoinCalls_reports; [do 14 right; left; reflexivity | exact Hrep].
Qed.

End Components.

Section Platforms.
Context `{JsonEncoder} {W : Type}.

(** A sensor without a state topic reports it. *)
Lemma Sensor_reports_state {TValue TAttributes : Type}
    `{JsonMarshal Duration} `{JsonMarshal (list TValue)}
    (s : Sensors.Sensor TValue TAttributes) (prefix : string) :
  Value.FullyQualifiedTopic (Sensors.State s) prefix = "" ->
  reports (Sensors.Sensor_MarshalDiscoveryTo s prefix) (violation "state" ErrTopicRequired).
Proof.
  intros Htopic. unfold Sensors.Sensor_MarshalDiscoveryTo.
  eapply JoinCalls_reports; [do 6 right; left; reflexivity |].
  unfold MarshalRequiredValueTopic. rewrite Htopic. apply MarshalRequiredTopic_reports.
Qed.

(** A light without a command topic reports it. *)
Lemma Light_reports_command
    `{JsonUnmarshal string} `{JsonUnmarshal N} `{JsonUnmarshal Lights.HueSat}
    `{JsonUnmarshal Lights.XY} `{JsonUnmarshal Lights.RGB} `{JsonUnmarshal Lights.RGBW}
    `{JsonUnmarshal Lights.RGBWW}
    (l : Lights.Light W) (prefix : string) :
  RemoteValue.FullyQualifiedTopic (Lights.Command l) prefix = "" ->
  reports (Lights.Light_MarshalDiscoveryTo l prefix) (violation "command" ErrTopicRequired).
Proof.
  intros Htopic. unfold Lights.Light_MarshalDiscoveryTo.
  eapply JoinCalls_reports; [do 3 right; left; reflexivity |].
  unfold MarshalRequiredRemoteValueTopic. rewrite Htopic. apply MarshalRequiredTopic_reports.
Qed.

End Platforms.

Section Assembly.
Context `{JsonEncoder} {W : Type} `{Writer W}.
Implicit Types (d : Device) (w : W) (components : list (string * MarshalerTo)).

Lemma Valid_spec d :
  Valid d = match Identifiers d, Connections d with
            | [], [] => Some (Sentinel_ ErrInvalidDevice)
            | _, _ => None
            end.
Proof. reflexivity. Qed.

(** C3. A device with neither identifier nor connection makes [Configure]
    return [ErrInvalidDevice] with the transport left as it was, whatever the
    components; a device with an identifier or a connection passes [Valid]. *)
Theorem Configure_validates_device_first d w discoveryPrefix components :
  (Identifiers d = [] -> Connections d = [] ->
   Valid d = Some (Sentinel_ ErrInvalidDevice)
   /\ Configure d w discoveryPrefix components = (w, Some (Sentinel_ ErrInvalidDevice)))
  /\ (Identifiers d <> [] \/ Connections d <> [] -> Valid d = None).
Proof.
  split.
  - intros Hids Hcns.
    assert (Hv : Valid d = Some (Sentinel_ ErrInvalidDevice))
      by (rewrite Valid_spec, Hids, Hcns; reflexivity).
    split; [exact Hv |]. unfold Configure. now rewrite Hv.
  - intros [Hids | Hcns]; rewrite Valid_spec.
    + destruct (Identifiers d); [congruence | reflexivity].
    + destruct (Identifiers d); [| reflexivity].
      destruct (Connections d); [congruence | reflexivity].
Qed.

(** What any one component reports is in the error of the whole assembly,
    and a failed assembly writes nothing. *)
Lemma Configure_reports d w discoveryPrefix components k m x :
  Valid d = None -> In (k, m) components -> reports m x ->
  exists err, Configure d w discoveryPrefix components = (w, Some err) /\ Occurs x err.
Proof.
  intros Hv Hin Hrep. unfold Configure. rewrite Hv.
  match goal with |- context [JoinCalls ?cs []] => set (calls := cs) end.
  assert (Hj : reports (JoinCalls calls) x).
  { eapply JoinCalls_reports.
    2: exact (MaybeInlineMarshalStd_reports x k m components Hin Hrep).
    subst calls. do 5 right. left. reflexivity. }
  destruct (Hj []) as (err & Herr & Hocc).
  destruct (JoinCalls calls []) as [r e']. simpl in Herr. subst r.
  exists (Wrapf "configure: marshal discovery config" err).
  split; [reflexivity | now constructor].
Qed.

(** X24.  Aggregation.  When some component of a valid device reports a
    violation, [Configure] returns one error and writes nothing; every
    violation that any component of the map reports occurs in that one
    error, and [errors.Is] finds the sentinel of each of them in it. *)
Theorem Configure_reports_every_violation d w discoveryPrefix components :
  Valid d = None ->
  (exists k m x, In (k, m) components /\ reports m x) ->
  exists err,
    Configure d w discoveryPrefix components = (w, Some err)
    /\ (forall k m x, In (k, m) components -> reports m x -> Occurs x err)
    /\ (forall k m name s,
           In (k, m) components -> reports m (violation name s) -> Is err s = true).
Proof.
  intros Hv (k0 & m0 & x0 & Hin0 & Hrep0).
  destruct (Configure_reports d w discoveryPrefix components k0 m0 x0 Hv Hin0 Hrep0)
    as (err & Herr & _).
  exists err. split; [exact Herr |].
  assert (Hall : forall k m x, In (k, m) components -> reports m x -> Occurs x err).
  { intros k m x Hin Hrep.
    destruct (Configure_reports d w discoveryPrefix components k m x Hv Hin Hrep)
      as (err' & Herr' & Hocc).
    rewrite Herr in Herr'. now inversion Herr'; subst. }
  split; [exact Hall |].
  intros k m name s Hin Hrep.
  apply Occurs_Is with (x := violation name s); [now apply Hall with (k := k) (m := m) |].
  apply violation_Is.
Qed.

End Assembly.
End ConfigureFacts.

(** ** Paired state and command topics *)

Module PairFacts.
Section Pairs.
Context `{JsonEncoder} {T W : Type}.
Implicit Types (s : option (Value.Value T)) (c : option (RemoteValue.RemoteValue T W)).

Lemma WriteToken_accepted (t : Token) (e : Encoder) :
  rejects e t = None -> WriteToken t e = (None, e ++ [t]).
Proof. intros Hok. unfold WriteToken. now rewrite Hok. Qed.

(** A non-empty topic that the encoder accepts is written under its key. *)
Lemma MarshalRequiredTopic_written (name k topic : string) (e : Encoder) :
  topic <> "" ->
  rejects e (Str k) = None -> rejects (e ++ [Str k]) (Str topic) = None ->
  MarshalRequiredTopic name k topic e = (None, e ++ [Str k; Str topic]).
Proof.
  intros Hne Hk Ht. unfold MarshalRequiredTopic, MaybeMarshalTopic.
  destruct (String.eqb_spec topic "") as [E | _]; [contradiction |].
  unfold JoinCalls. simpl.
  rewrite (WriteToken_accepted _ _ Hk), (WriteToken_accepted _ _ Ht).
  now rewrite <- app_assoc.
Qed.

(** Neither cell: nothing written, no error. *)
Lemma pair_neither (name sk ck prefix : string) (e : Encoder) :
  MaybeMarshalStateAndCommandTopics (T := T) (W := W) name sk None ck None prefix e = (None, e).
Proof. reflexivity. Qed.

(** Exactly one cell: one error, nothing written. *)
Lemma pair_only_one (name sk ck prefix : string) s c (e : Encoder) :
  (s = None /\ c <> None) \/ (s <> None /\ c = None) ->
  MaybeMarshalStateAndCommandTopics name sk s ck c prefix e
  = (Some (violation name ErrMissingStateOrCommandTopic), e).
Proof.
  intros [[-> Hc] | [Hs ->]].
  - destruct c; [reflexivity | congruence].
  - destruct s; [reflexivity | congruence].
Qed.

(** Both cells, with topics, on an encoder that accepts the four tokens:
    both topics are written, each under the key passed for it. *)
Lemma pair_both (name sk ck prefix : string) (sv : Value.Value T)
    (cv : RemoteValue.RemoteValue T W) (e : Encoder) :
  let ts := Value.FullyQualifiedTopic (Some sv) prefix in
  let tc := RemoteValue.FullyQualifiedTopic (Some cv) prefix in
  ts <> "" -> tc <> "" ->
  rejects e (Str sk) = None -> rejects (e ++ [Str sk]) (Str ts) = None ->
  rejects (e ++ [Str sk; Str ts]) (Str ck) = None ->
  rejects ((e ++ [Str sk; Str ts]) ++ [Str ck]) (Str tc) = None ->
  MaybeMarshalStateAndCommandTopics name sk (Some sv) ck (Some cv) prefix e
  = (None, e ++ [Str sk; Str ts; Str ck; Str tc]).
Proof.
  intros ts tc Hts Htc H1 H2 H3 H4.
  unfold MaybeMarshalStateAndCommandTopics, JoinCalls. simpl run_all.
  unfold MarshalRequiredValueTopic, MarshalRequiredRemoteValueTopic.
  fold ts. fold tc.
  rewrite (MarshalRequiredTopic_written name sk ts e Hts H1 H2).
  rewrite (MarshalRequiredTopic_written name ck tc _ Htc H3 H4).
  simpl. now rewrite <- app_assoc.
Qed.

End Pairs.
End PairFacts.

(** ** Subscribing a component *)

Module SubscribeFacts.
Import Component.
Section Guards.
Context `{JsonEncoder} {P W : Type} `{Platform P W}.
Context {S : Type} `{Subscriber S (Handler (P := P) (W := W))}.
Implicit Types (c : Component P) (s : S).

(** A component that tracks a topic refuses [Subscribe] and leaves the
    transport alone. *)
Lemma Subscribe_refused c s :
  subscribedTopics c <> [] ->
  Subscribe c s = (c, s, Some (Sentinel_ ErrComponentAlreadySubscribed)).
Proof.
  intros Hne. unfold Subscribe.
  destruct (subscribedTopics c); [congruence | reflexivity].
Qed.

(** With a platform that has a subscription, the second [Subscribe] in a row
    is refused. *)
Lemma Subscribe_twice_refused c s :
  subscribedTopics c = [] ->
  Subscriptions (ComponentPlatform c) (TopicPrefix c) <> [] ->
  let '(c1, s1, _) := Subscribe c s in
  Subscribe c1 s1 = (c1, s1, Some (Sentinel_ ErrComponentAlreadySubscribed)).
Proof.
  intros Hnone Hsubs. unfold Subscribe at 1. rewrite Hnone. simpl.
  destruct (Mqtt.Subscribe _ _ s) as [s1 e1].
  apply Subscribe_refused. simpl.
  destruct (Subscriptions (ComponentPlatform c) (TopicPrefix c)); [congruence | discriminate].
Qed.

(** [Unsubscribe] with nothing tracked returns nil and leaves the transport
    alone. *)
Lemma Unsubscribe_idle c s :
  subscribedTopics c = [] -> Unsubscribe c s = (c, s, None).
Proof. intros Hnone. unfold Unsubscribe. now rewrite Hnone. Qed.

(** C9. With a platform that has no subscription, [Subscribe] leaves the list
    of tracked topics empty, so the guard of the second [Subscribe] in a row
    does not fire: the call goes to the transport once more and returns
    whatever the transport returns, not [ErrComponentAlreadySubscribed]. *)
Theorem Subscribe_twice_without_subscriptions_reaches_transport c s :
  subscribedTopics c = [] ->
  Subscriptions (ComponentPlatform c) (TopicPrefix c) = [] ->
  let c1 := with_subscribedTopics c [] in
  let first := Mqtt.Subscribe (handler c1) [] s in
  let second := Mqtt.Subscribe (handler c1) [] (fst first) in
  Subscribe c s = (c1, fst first, snd first)
  /\ Subscribe c1 (fst first) = (c1, fst second, snd second).
Proof.
  intros Hnone Hsubs c1 first second.
  assert (Hfirst : Subscribe c s = (c1, fst first, snd first)).
  { unfold Subscribe. rewrite Hnone. simpl. rewrite Hsubs. simpl.
    fold c1. fold first. now destruct first. }
  split; [exact Hfirst |].
  unfold Subscribe. simpl. rewrite Hsubs. simpl.
  change (with_subscribedTopics c1 []) with c1.
  fold second. now destruct second.
Qed.

End Guards.
End SubscribeFacts.

(** ** Topic joining *)

Module TopicFacts.

(** Joining one string is trimming it. *)
Lemma JoinTopic_singleton (r : string) : JoinTopic [r] = TrimTopic r.
Proof.
  unfold JoinTopic. simpl.
  destruct (String.eqb_spec r "") as [-> | Hne]; [reflexivity |].
  destruct (String.eqb_spec r TopicSeparator) as [-> | Hsep]; reflexivity.
Qed.

(** So joining is idempotent on a list exactly when the joined string has no
    separator left at either end. *)
Lemma JoinTopic_idempotent_iff (parts : list string) :
  JoinTopic [JoinTopic parts] = JoinTopic parts
  <-> TrimTopic (JoinTopic parts) = JoinTopic parts.
Proof. now rewrite JoinTopic_singleton. Qed.

(** *** When joining is idempotent

    A segment is kept whole when trimming it leaves something; on a list of
    such segments no separator is left dangling and joining is idempotent. *)

Definition starts_with_separator (s : string) : bool :=
  match s with
  | String a _ => Ascii.eqb a "/"%char
  | EmptyString => false
  end.

Fixpoint ends_with_separator (s : string) : bool :=
  match s with
  | EmptyString => false
  | String a EmptyString => Ascii.eqb a "/"%char
  | String _ rest => ends_with_separator rest
  end.

(** The string [JoinTopic] builds when it discards no segment. *)
Fixpoint joined (parts : list string) : string :=
  match parts with
  | [] => ""
  | [p] => TrimTopic p
  | p :: rest => (TrimTopic p ++ "/" ++ joined rest)%string
  end.

Lemma append_assoc (a b c : string) : ((a ++ b) ++ c = a ++ (b ++ c))%string.
Proof. induction a as [| x a IH]; simpl; [reflexivity | now rewrite IH]. Qed.

Lemma trimLeftByte_fixed (s : string) :
  starts_with_separator s = false -> trimLeftByte s "/"%char = s.
Proof. destruct s as [| a s]; simpl; [reflexivity |]. now intros ->. Qed.

Lemma trimRightByte_fixed (s : string) :
  ends_with_separator s = false -> trimRightByte s "/"%char = s.
Proof.
  induction s as [| a s IH]; [reflexivity |].
  destruct s as [| b s'].
  - simpl. now intros ->.
  - intros Hend. change (ends_with_separator (String b s') = false) in Hend.
    change (trimRightByte (String a (String b s')) "/"%char)
      with (match trimRightByte (String b s') "/"%char with
            | EmptyString => if Ascii.eqb a "/"%char then EmptyString else String a EmptyString
            | r => String a r
            end).
    now rewrite (IH Hend).
Qed.

Lemma TrimTopic_fixed (s : string) :
  starts_with_separator s = false -> ends_with_separator s = false -> TrimTopic s = s.
Proof.
  intros Hs He. unfold TrimTopic.
  rewrite (trimRightByte_fixed s He). now apply trimLeftByte_fixed.
Qed.

Lemma trimRightByte_ends (s : string) :
  ends_with_separator (trimRightByte s "/"%char) = false.
Proof.
  induction s as [| a s IH]; [reflexivity |]. simpl.
  destruct (trimRightByte s "/"%char) as [| b r] eqn:Hr.
  - destruct (Ascii.eqb a "/"%char) eqn:Ha; simpl; [reflexivity | exact Ha].
  - exact IH.
Qed.

Lemma trimLeftByte_ends (s : string) :
  ends_with_separator s = false -> ends_with_separator (trimLeftByte s "/"%char) = false.
Proof.
  induction s as [| a s IH]; [reflexivity |]. intros Hend. simpl.
  destruct (Ascii.eqb a "/"%char) eqn:Ha; [| exact Hend].
  apply IH. destruct s as [| b s']; [reflexivity | exact Hend].
Qed.

Lemma trimLeftByte_starts (s : string) :
  starts_with_separator (trimLeftByte s "/"%char) = false.
Proof.
  induction s as [| a s IH]; [reflexivity |]. simpl.
  destruct (Ascii.eqb a "/"%char) eqn:Ha; [exact IH | simpl; exact Ha].
Qed.

Lemma TrimTopic_clean (s : string) :
  starts_with_separator (TrimTopic s) = false /\ ends_with_separator (TrimTopic s) = false.
Proof.
  unfold TrimTopic. split.
  - apply trimLeftByte_starts.
  - apply trimLeftByte_ends, trimRightByte_ends.
Qed.

Lemma starts_append (a b : string) :
  a <> "" -> starts_with_separator (a ++ b) = starts_with_separator a.
Proof. destruct a; [congruence | reflexivity]. Qed.

Lemma ends_append (a b : string) :
  b <> "" -> ends_with_separator (a ++ b) = ends_with_separator b.
Proof.
  intros Hb. induction a as [| x a IH]; [reflexivity |].
  simpl. destruct (a ++ b)%string eqn:Hab; [| exact IH].
  destruct a; simpl in Hab; [congruence | discriminate].
Qed.

Lemma kept_not_discarded (p : string) :
  TrimTopic p <> "" -> (String.eqb p "" || String.eqb p TopicSeparator) = false.
Proof.
  intros Hkept.
  destruct (String.eqb_spec p "") as [-> | _]; [now contradiction Hkept |].
  destruct (String.eqb_spec p TopicSeparator) as [-> | _]; [now contradiction Hkept |].
  reflexivity.
Qed.

Lemma JoinTopic_loop_joined (n : nat) (parts : list string) :
  Forall (fun p => TrimTopic p <> "") parts ->
  forall i result, (i + length parts = n)%nat ->
  JoinTopic_loop n i parts result = (result ++ joined parts)%string.
Proof.
  induction 1 as [| p rest Hp Hrest IH]; intros i result Hn.
  - simpl. induction result as [| a r IHr]; simpl; [reflexivity | now rewrite <- IHr].
  - cbn [JoinTopic_loop]. rewrite (kept_not_discarded p Hp). cbv zeta.
    destruct rest as [| q rest'].
    + simpl in Hn. replace (Nat.eqb i (n - 1)) with true
        by (symmetry; apply Nat.eqb_eq; lia).
      reflexivity.
    + replace (Nat.eqb i (n - 1)) with false
        by (symmetry; apply Nat.eqb_neq; simpl in Hn; lia).
      cbn [negb]. rewrite IH by (simpl in *; lia).
      change (joined (p :: q :: rest')) with (TrimTopic p ++ "/" ++ joined (q :: rest'))%string.
      unfold TopicSeparator. now rewrite !append_assoc.
Qed.

Lemma joined_clean (parts : list string) :
  Forall (fun p => TrimTopic p <> "") parts -> parts <> [] ->
  joined parts <> ""
  /\ starts_with_separator (joined parts) = false
  /\ ends_with_separator (joined parts) = false.
Proof.
  induction 1 as [| p rest Hp Hrest IH]; intros Hne; [congruence |].
  destruct rest as [| q rest'].
  - simpl. split; [exact Hp | apply TrimTopic_clean].
  - destruct IH as (Hj & _ & He); [discriminate |].
    change (joined (p :: q :: rest')) with (TrimTopic p ++ "/" ++ joined (q :: rest'))%string.
    split; [| split].
    + destruct (TrimTopic p); [congruence | discriminate].
    + rewrite starts_append by exact Hp. apply TrimTopic_clean.
    + rewrite ends_append by discriminate.
      rewrite (ends_append "/" (joined (q :: rest')) Hj). exact He.
Qed.

(** Joining is idempotent on every list of segments that are all kept. *)
Lemma JoinTopic_idempotent_on_kept_segments (parts : list string) :
  Forall (fun p => TrimTopic p <> "") parts ->
  JoinTopic [JoinTopic parts] = JoinTopic parts.
Proof.
  intros Hkept. rewrite JoinTopic_singleton.
  unfold JoinTopic. rewrite (JoinTopic_loop_joined (length parts) parts Hkept 0 "") by lia.
  change ("" ++ joined parts)%string with (joined parts).
  destruct parts as [| p rest]; [reflexivity |].
  destruct (joined_clean (p :: rest) Hkept) as (_ & Hs & He); [discriminate |].
  now apply TrimTopic_fixed.
Qed.

(** C6. A discarded last segment leaves the separator written after the
    segment before it: joining ["a"; ""] gives "a/", and joining that again
    gives "a".  The same happens with a bare separator as last segment. *)
Theorem JoinTopic_keeps_separator_before_discarded_last_segment :
  JoinTopic ["a"; ""] = "a/"
  /\ JoinTopic [JoinTopic ["a"; ""]] = "a"
  /\ JoinTopic ["a"; "/"] = "a/"
  /\ JoinTopic [JoinTopic ["a"; "/"]] = "a".
Proof. repeat split. Qed.

End TopicFacts.

(** ** Concrete transports, codecs and cells *)

Module Scenario.
Import RemoteValue.
Import (hints) Sensors Lights Device.

(** A transport whose publish always fails, one that records what it is
    asked to publish, and a subscriber that records its calls. *)
#[local] Instance failing_writer : Writer unit :=
  fun _ _ _ w => (w, Some (Foreign "publish failed")).

Definition Published : Type := (string * WriteOptions * list byte)%type.

#[local] Instance recording_writer : Writer (list Published) :=
  fun topic options value w => (w ++ [(topic, options, value)], None).

Inductive Call : Type :=
| Subscribed (topics : list string)
| Unsubscribed (topics : list string).

#[local] Instance recording_subscriber {H : Type} : Subscriber (list Call) H := {
  Subscribe := fun _ subscriptions s => (s ++ [Subscribed (map Topic subscriptions)], None);
  Unsubscribe := fun topics s => (s ++ [Unsubscribed topics], None)
}.

(** [json.Unmarshal] into a [bool]: the two literals, anything else is an
    error that leaves the variable alone. *)
#[local] Instance json_bool : JsonUnmarshal bool :=
  fun bytes v =>
    let text := string_of_list_byte bytes in
    if String.eqb text "true" then (true, None)
    else if String.eqb text "false" then (false, None)
    else (v, Some (Foreign "json: invalid character")).

(** An encoder that accepts every token. *)
#[local] Instance lenient : JsonEncoder := {
  rejects := fun _ _ => None;
  Bytes := fun _ => []
}.

(** A watcher that notes the value it is called with. *)
Definition note {T : Type} : T -> list T -> list T := fun t seen => seen ++ [t].

(** A [bool] cell on the topic "lamp/set", built without an unmarshaler, and
    the same cell with one watcher. *)
Definition lamp : RemoteValue bool (list bool) := NewRemoteValue "lamp/set" None.
Definition watched_lamp : RemoteValue bool (list bool) := fst (fst (Watch lamp note)).

Definition bytes (s : string) : list byte := list_byte_of_string s.

Lemma Unwatch_id_equal_to_count_panics_witness :
  Unwatch watched_lamp (Z.of_nat (length (watchers watched_lamp)))
  = Panicked "slice bounds out of range".
Proof.
  apply (WatcherFacts.Unwatch_id_equal_to_count_panics watched_lamp). discriminate.
Defined.

(** The first watcher, id 0, cannot be removed, and a second one can. *)
Example Unwatch_first_and_second :
  Unwatch watched_lamp 0
  = Returned (watched_lamp, [(LevelWarn, "Tried to remove an invalid watcher")])
  /\ option_map (fun c => length (watchers c))
       (match Unwatch (fst (fst (Watch watched_lamp note))) 1 with
        | Returned (c, _) => Some c
        | Panicked _ => None
        end) = Some 1%nat.
Proof. split; reflexivity. Qed.

Lemma ServeMQTT_bad_payload_or_foreign_topic_witness :
  (exists c',
      ServeMQTT (Some watched_lamp) "lamp/set" (bytes "maybe") [true]
      = (Some c', [true], [(LevelWarn, "Failed to unmarshal payload from mqtt")])
      /\ Get c' = Get watched_lamp /\ watchers c' = watchers watched_lamp
      /\ topic c' = topic watched_lamp)
  /\ ServeMQTT (Some watched_lamp) "lamp/get" (bytes "true") [true]
     = (Some watched_lamp, [true], []).
Proof.
  split.
  - apply (proj1 (RemoteValueFacts.ServeMQTT_bad_payload_or_foreign_topic
                    watched_lamp "lamp/set" (bytes "maybe") [true])).
    exists false, (Foreign "json: invalid character"). split; reflexivity.
  - apply (proj1 (proj2 (RemoteValueFacts.ServeMQTT_bad_payload_or_foreign_topic
                           watched_lamp "lamp/get" (bytes "true") [true]))).
    discriminate.
Defined.

Lemma ServeMQTT_nil_unmarshaler_installs_json_witness :
  exists c' w' logged,
    ServeMQTT (Some watched_lamp) (topic watched_lamp) (bytes "true") [] = (Some c', w', logged)
    /\ unmarshaler c' = Some JsonValueUnmarshaler
    /\ installed c' = JsonValueUnmarshaler
    /\ watchers c' = watchers watched_lamp /\ topic c' = topic watched_lamp
    /\ Get c' = (true, true)
    /\ w' = [true].
Proof.
  destruct (RemoteValueFacts.ServeMQTT_nil_unmarshaler_installs_json
              watched_lamp (bytes "true") [] eq_refl)
    as (c' & w' & logged & Hserve & Hu & Hin & Hws & Ht & Hget & Hw).
  exists c', w', logged. repeat split; assumption.
Defined.

(** The installed decoder is the one used for the next message: a good
    payload, then a bad one, then a good one. *)
Example ServeMQTT_three_messages :
  let c1 := fst (fst (ServeMQTT_locked watched_lamp "lamp/set" (bytes "true") [])) in
  let c2 := fst (fst (ServeMQTT_locked c1 "lamp/set" (bytes "maybe") [true])) in
  let r3 := ServeMQTT_locked c2 "lamp/set" (bytes "false") [true] in
  Get c1 = (true, true) /\ Get c2 = (true, true)
  /\ Get (fst (fst r3)) = (false, true) /\ snd (fst r3) = [true; false].
Proof. repeat split. Qed.

(** *** Awaiting on a cell nobody watches yet, as the example program does
    with Home Assistant's status cell *)

Definition awaited_lamp : RemoteValue bool (Awaiting.World bool unit) :=
  NewRemoteValue "lamp/set" None.

Definition is_on : bool -> bool := DesiredValue Bool.eqb true.

Lemma Await_on_fresh_cell_keeps_transient_watcher_witness :
  exists c' w' result logged,
    Awaiting.Await awaited_lamp is_on [("lamp/set", bytes "true")]
                   (Foreign "context canceled") (tt, [])
    = Returned (c', w', result, logged)
    /\ watchers c' = [Awaiting.transient (length (snd (tt, @nil (Awaiting.Frame bool)))) is_on]
    /\ In (LevelWarn, "Tried to remove an invalid watcher") logged.
Proof.
  apply (AwaitFacts.Await_on_fresh_cell_keeps_transient_watcher
           awaited_lamp is_on [("lamp/set", bytes "true")]
           (Foreign "context canceled") (tt, [])).
  reflexivity.
Defined.

(** Both exits leave the transient watcher behind; after the satisfied exit
    the next matching message reaches it and closes [done] a second time. *)
Example Await_exits_and_second_close :
  match Awaiting.Await awaited_lamp is_on [] (Foreign "context canceled") (tt, []) with
  | Returned (c', _, result, _) =>
      result = (false, Some (Foreign "context canceled")) /\ length (watchers c') = 1%nat
  | Panicked _ => False
  end
  /\ match Awaiting.Await awaited_lamp is_on
             [("lamp/set", bytes "false"); ("lamp/set", bytes "true")]
             (Foreign "context canceled") (tt, []) with
     | Returned (c', w', result, _) =>
         result = (true, None) /\ length (watchers c') = 1%nat
         /\ Awaiting.closes (Awaiting.frame_of 0 w') = 1%nat
         /\ Awaiting.closes
              (Awaiting.frame_of 0
                 (snd (fst (ServeMQTT_locked c' "lamp/set" (bytes "true") w')))) = 2%nat
     | Panicked _ => False
     end.
Proof. split; cbn; repeat split. Qed.

(** *** Writing through a transport that fails *)

Definition relay : Value.Value string := Value.NewValue "relay" (Some StringMarshaler).
Definition mute : Value.Value string := Value.NewValue "mute" None.

(** The one [Write] of this history returned an error, so no [Write] on the
    cell has succeeded, and yet [Get] reports the flag set. *)
Lemma Write_with_failed_publish_sets_the_flag :
  ValueFacts.write_errors relay tt [("home", "ON")] = [Some (Foreign "publish failed")]
  /\ Value.Get (fst (ValueFacts.writes relay tt [("home", "ON")])) = ("ON", true).
Proof. split; reflexivity. Qed.

Lemma Write_then_Get_and_Get_before_stored_Write_witness :
  Value.Get (fst (fst (Value.Write relay tt "home" "ON"))) = ("ON", true)
  /\ Value.Get (fst (ValueFacts.writes (Value.NewValueWithOptions "mute" None WriteOptions_zero)
                                       tt [("home", "ON"); ("home", "OFF")]))
     = (zero, false).
Proof.
  split.
  - apply (proj1 (ValueFacts.Write_then_Get_and_Get_before_stored_Write
                    (T := string) (W := unit)) relay tt "home" "ON").
    reflexivity.
  - apply (proj2 (ValueFacts.Write_then_Get_and_Get_before_stored_Write
                    (T := string) (W := unit))
                 "mute" None WriteOptions_zero tt [("home", "ON"); ("home", "OFF")]).
    reflexivity.
Defined.

(** *** Devices and components *)

(** Durations are rendered as whole seconds. *)
#[local] Instance JsonMarshal_Duration : JsonMarshal Duration :=
  encode_as (fun d => JNumber (Z.quot d 1000000000)).

Definition nameless : Device.Device :=
  {| Device.DiscoveryID := ""; Device.Name := "Example Device"; Device.Serial := "";
     Device.Manufacturer := ""; Device.Model := ""; Device.ModelID := "";
     Device.ConfigurationURL := None; Device.Connections := [];
     Device.HardwareVersion := ""; Device.FirmwareVersion := "";
     Device.Identifiers := []; Device.SuggestedArea := "";
     Device.DeviceOrigin := None; Device.ViaDevice := "" |}.

Definition bench : Device.Device :=
  {| Device.DiscoveryID := ""; Device.Name := "Example Device"; Device.Serial := "";
     Device.Manufacturer := ""; Device.Model := ""; Device.ModelID := "";
     Device.ConfigurationURL := None; Device.Connections := [];
     Device.HardwareVersion := ""; Device.FirmwareVersion := "";
     Device.Identifiers := ["hqtt/example/fake_light"]; Device.SuggestedArea := "";
     Device.DeviceOrigin := None; Device.ViaDevice := "" |}.

Example bench_ID : Device.ID bench = "hqtt__example__fake_light__Example__Device".
Proof. reflexivity. Qed.

Definition sensor_of (state : option (Value.Value string)) : Sensors.Sensor string unit :=
  {| Sensors.ExpireMeasurementsAfter := 0%Z; Sensors.ForceUpdate := false;
     Sensors.Attributes := None; Sensors.EnumOptions := [];
     Sensors.SuggestedDisplayPrecision := 0%N; Sensors.SensorStateClass := "";
     Sensors.State := state; Sensors.UnitOfMeasurement := "" |}.

Definition component_of {P : Type} (platform : P) (id : string)
    (availability : option (Value.Value Availability)) : Component.Component P :=
  {| Component.ComponentPlatform := platform; Component.TopicPrefix := id;
     Component.Name := ""; Component.EntityCategory := ""; Component.Icon := "";
     Component.Picture := None; Component.Availability := availability;
     Component.CustomAvailabilityValues :=
       {| CustomAvailable := ""; CustomUnavailable := "" |};
     Component.DefaultEntityID := ""; Component.UniqueID := id;
     Component.ComponentWriteOptions := WriteOptions_zero;
     Component.subscribedTopics := [] |}.

(** A thermometer without an availability cell and a hygrometer without a
    state cell. *)
Definition thermometer : Component.Component (Sensors.Sensor string unit) :=
  component_of (sensor_of (Some (Value.NewValue "state" (Some StringMarshaler))))
               "thermo" None.

Definition hygrometer : Component.Component (Sensors.Sensor string unit) :=
  component_of (sensor_of None) "hygro"
               (Some (Value.NewValue "available" (Some AvailabilityMarshaler))).

Definition instruments : list (string * MarshalerTo) :=
  [("thermo", Component.MarshalJSONTo (W := unit) thermometer);
   ("hygro", Component.MarshalJSONTo (W := unit) hygrometer)].

Lemma Configure_validates_device_first_witness :
  (Device.Valid nameless = Some (Sentinel_ ErrInvalidDevice)
   /\ Device.Configure nameless (@nil Published) "homeassistant" instruments
      = ([], Some (Sentinel_ ErrInvalidDevice)))
  /\ Device.Valid bench = None.
Proof.
  split.
  - apply (proj1 (ConfigureFacts.Configure_validates_device_first
                    nameless (@nil Published) "homeassistant" instruments));
      reflexivity.
  - apply (proj2 (ConfigureFacts.Configure_validates_device_first
                    bench (@nil Published) "homeassistant" instruments)).
    left. discriminate.
Defined.

Lemma thermometer_reports :
  JoinFacts.reports (Component.MarshalJSONTo (W := unit) thermometer)
                    (violation "availability" ErrTopicRequired).
Proof. apply ConfigureFacts.Component_reports_availability. reflexivity. Qed.

Lemma hygrometer_reports :
  JoinFacts.reports (Component.MarshalJSONTo (W := unit) hygrometer)
                    (violation "state" ErrTopicRequired).
Proof.
  apply ConfigureFacts.Component_reports_platform_violation.
  apply (ConfigureFacts.Sensor_reports_state (sensor_of None) "hygro"). reflexivity.
Qed.

Lemma Configure_reports_every_violation_witness :
  exists err,
    Device.Configure bench (@nil Published) "homeassistant" instruments = ([], Some err)
    /\ Occurs (violation "availability" ErrTopicRequired) err
    /\ Occurs (violation "state" ErrTopicRequired) err
    /\ Is err ErrTopicRequired = true.
Proof.
  destruct (ConfigureFacts.Configure_reports_every_violation
              bench (@nil Published) "homeassistant" instruments eq_refl
              (ex_intro _ "thermo" (ex_intro _ _ (ex_intro _ _
                 (conj (or_introl eq_refl) thermometer_reports)))))
    as (err & Hconf & Hall & His).
  exists err. split; [exact Hconf |]. split; [| split].
  - apply (Hall "thermo" _ _ (or_introl eq_refl) thermometer_reports).
  - apply (Hall "hygro" _ _ (or_intror (or_introl eq_refl)) hygrometer_reports).
  - apply (His "hygro" _ "state" ErrTopicRequired
               (or_intror (or_introl eq_refl)) hygrometer_reports).
Defined.

(** With both cells in place the same two components are published, in one
    retained message. *)
Example Configure_publishes_complete_components :
  let complete :=
    [("thermo", Component.MarshalJSONTo (W := unit)
                  (component_of (Component.ComponentPlatform thermometer) "thermo"
                                (Component.Availability hygrometer)))] in
  match Device.Configure bench (@nil Published) "homeassistant" complete with
  | ([(topic, options, _)], None) =>
      topic = "homeassistant/device/hqtt__example__fake_light__Example__Device/config"
      /\ Retain options = true
  | _ => False
  end.
Proof. cbn. split; reflexivity. Qed.

Lemma Subscribe_twice_without_subscriptions_reaches_transport_witness :
  Component.Subscribe (W := unit) hygrometer (@nil Call)
  = (hygrometer, [Subscribed []], None)
  /\ Component.Subscribe (W := unit) hygrometer [Subscribed []]
     = (hygrometer, [Subscribed []; Subscribed []], None).
Proof.
  refine (SubscribeFacts.Subscribe_twice_without_subscriptions_reaches_transport
            (W := unit) (S := list Call) hygrometer [] _ _); reflexivity.
Defined.

(** *** A light and its paired topics *)

Definition light_of
    (colorTemperature : option (Value.Value N))
    (colorTemperatureCommand : option (RemoteValue N unit))
    (hueSat : option (Value.Value Lights.HueSat))
    (hueSatCommand : option (RemoteValue Lights.HueSat unit))
    (xy : option (Value.Value Lights.XY))
    (xyCommand : option (RemoteValue Lights.XY unit)) : Lights.Light unit :=
  {| Lights.OnCommandType := Lights.LightOnCommandTypeLast;
     Lights.Optimistic := false;
     Lights.State := None;
     Lights.Command := Some (NewRemoteValue "command" (Some PowerStateUnmarshaler));
     Lights.CustomPowerStateValues := {| On := ""; Off := "" |};
     Lights.ColorMode_ := None; Lights.ColorModeCommand := None;
     Lights.SupportedColorModes := [];
     Lights.Brightness := None; Lights.BrightnessCommand := None;
     Lights.BrightnessScale := 0%N;
     Lights.ColorTemperature := colorTemperature;
     Lights.ColorTemperatureCommand := colorTemperatureCommand;
     Lights.ColorTemperatureInKelvin := false;
     Lights.MaxKelvin := 0%N; Lights.MinKelvin := 0%N;
     Lights.MaxMireds := 0%N; Lights.MinMireds := 0%N;
     Lights.HueSat_ := hueSat; Lights.HueSatCommand := hueSatCommand;
     Lights.XY_ := xy; Lights.XYCommand := xyCommand;
     Lights.RGB_ := None; Lights.RGBCommand := None;
     Lights.RGBW_ := None; Lights.RGBWCommand := None;
     Lights.RGBWW_ := None; Lights.RGBWWCommand := None;
     Lights.WhiteBrightnessCommand := None; Lights.WhiteScale := 0%N;
     Lights.Effect := None; Lights.EffectCommand := None;
     Lights.PossibleEffects := [] |}.

Definition hue_state : option (Value.Value Lights.HueSat) := Some (Value.NewValue "hs" None).
Definition hue_command : option (RemoteValue Lights.HueSat unit) :=
  Some (NewRemoteValue "hs/set" None).
Definition xy_state : option (Value.Value Lights.XY) := Some (Value.NewValue "xy" None).
Definition xy_command : option (RemoteValue Lights.XY unit) :=
  Some (NewRemoteValue "xy/set" None).
Definition temp_state : option (Value.Value N) := Some (Value.NewValue "temp" None).
Definition temp_command : option (RemoteValue N unit) := Some (NewRemoteValue "temp/set" None).

Definition light_preamble : Encoder :=
  [Str "cmd_t"; Str "lamp/command"; Str "sup_clrm"; Encoded (JArray [])].

(** C5. [Light.MarshalDiscoveryTo] passes the colour-temperature cells to the
    "hue sat" pair and passes the keys of the "xy" pair the wrong way round.
    So with both hue/sat cells configured neither hue/sat key is written;
    with only the hue/sat state cell configured no error is raised; the
    colour-temperature topics are written a second time under the hue/sat
    keys; and the xy state topic is written under the xy command key and the
    xy command topic under the xy state key. *)
Theorem Light_hue_sat_and_xy_pairs_are_miswired :
  Lights.Light_MarshalDiscoveryTo (light_of None None hue_state hue_command None None) "lamp" []
  = (None, light_preamble)
  /\ Lights.Light_MarshalDiscoveryTo (light_of None None hue_state None None None) "lamp" []
     = (None, light_preamble)
  /\ Lights.Light_MarshalDiscoveryTo (light_of temp_state temp_command None None None None)
                                     "lamp" []
     = (None, light_preamble
              ++ [Str FieldColorTemperatureStateTopic; Str "lamp/temp";
                  Str FieldColorTemperatureCommandTopic; Str "lamp/temp/set";
                  Str FieldHueSatStateTopic; Str "lamp/temp";
                  Str FieldHueSatCommandTopic; Str "lamp/temp/set"])
  /\ Lights.Light_MarshalDiscoveryTo (light_of None None None None xy_state xy_command) "lamp" []
     = (None, light_preamble
              ++ [Str FieldXYCommandTopic; Str "lamp/xy";
                  Str FieldXYStateTopic; Str "lamp/xy/set"]).
Proof. repeat split. Qed.

(** The pairs that are wired as the helper expects behave as a unit; here
    the xy pair with one cell missing. *)
Example Light_pair_with_one_cell :
  Lights.Light_MarshalDiscoveryTo (light_of None None None None xy_state None) "lamp" []
  = (Some (Joined [violation "xy" ErrMissingStateOrCommandTopic]), light_preamble).
Proof. reflexivity. Qed.

End Scenario.

(** * Further properties of the code *)

(** ** Topics *)

Module TopicLaws.
Import TopicFacts.

(** X1. Trimming leaves no separator at either end, and trimming again
    changes nothing. *)
Theorem TrimTopic_idempotent_and_clean (s : string) :
  TrimTopic (TrimTopic s) = TrimTopic s
  /\ starts_with_separator (TrimTopic s) = false
  /\ ends_with_separator (TrimTopic s) = false.
Proof.
  destruct (TrimTopic_clean s) as [Hs He].
  split; [now apply TrimTopic_fixed | now split].
Qed.

Lemma append_not_empty (a b : string) : b <> "" -> (a ++ b)%string <> "".
Proof. destruct a; simpl; [tauto | discriminate]. Qed.

(** What joining a prefix and a topic gives, case by case. *)
Lemma JoinTopic_pair (a b : string) :
  JoinTopic [a; b]
  = if String.eqb a "" || String.eqb a "/"
    then (if String.eqb b "" || String.eqb b "/" then "" else TrimTopic b)
    else (if String.eqb b "" || String.eqb b "/" then TrimTopic a ++ "/"
          else (TrimTopic a ++ "/") ++ TrimTopic b)%string.
Proof.
  unfold JoinTopic. simpl. unfold TopicSeparator.
  destruct (String.eqb a "" || String.eqb a "/");
    destruct (String.eqb b "" || String.eqb b "/"); reflexivity.
Qed.

Lemma discarded_iff (a : string) :
  String.eqb a "" || String.eqb a "/" = true <-> a = "" \/ a = "/".
Proof.
  rewrite orb_true_iff. now rewrite !String.eqb_eq.
Qed.

(** X2. The joined topic of a prefix and a cell topic is empty exactly when
    the prefix is empty or a bare separator and the cell topic trims to
    nothing.  With any other prefix the joined topic is never empty, so a
    cell without a topic of its own still has a fully qualified topic. *)
Theorem JoinTopic_pair_empty_iff (prefix topic : string) :
  JoinTopic [prefix; topic] = ""
  <-> (prefix = "" \/ prefix = "/") /\ TrimTopic topic = "".
Proof.
  rewrite JoinTopic_pair.
  destruct (String.eqb prefix "" || String.eqb prefix "/") eqn:Hp.
  - apply discarded_iff in Hp.
    destruct (String.eqb topic "" || String.eqb topic "/") eqn:Ht.
    + apply discarded_iff in Ht. split; [intros _ | reflexivity].
      split; [exact Hp |]. now destruct Ht as [-> | ->].
    + split; [intros H; now split | now intros [_ H]].
  - assert (Hn : ~ (prefix = "" \/ prefix = "/")).
    { intros H. apply discarded_iff in H. congruence. }
    destruct (String.eqb topic "" || String.eqb topic "/").
    + split; [intros H | tauto].
      exfalso. revert H. apply append_not_empty. discriminate.
    + split; [intros H | tauto].
      exfalso. revert H. rewrite append_assoc. apply append_not_empty. discriminate.
Qed.

(** X3. On segments that all survive trimming, joining gives the trimmed
    segments with one separator between neighbours, a string with no
    separator at either end, and joining that string again returns it. *)
Theorem JoinTopic_of_kept_segments (parts : list string) :
  Forall (fun p => TrimTopic p <> "") parts ->
  JoinTopic parts = joined parts
  /\ TrimTopic (JoinTopic parts) = JoinTopic parts
  /\ JoinTopic [JoinTopic parts] = JoinTopic parts.
Proof.
  intros Hkept.
  assert (Hj : JoinTopic parts = joined parts).
  { unfold JoinTopic.
    now rewrite (JoinTopic_loop_joined (length parts) parts Hkept 0 "") by lia. }
  assert (Hi : JoinTopic [JoinTopic parts] = JoinTopic parts)
    by now apply JoinTopic_idempotent_on_kept_segments.
  split; [exact Hj |]. split; [| exact Hi].
  now rewrite <- JoinTopic_singleton.
Qed.

End TopicLaws.

(** ** The outbound cell *)

Module ValueLaws.
Import Value ValueFacts.
Section Publishing.
Context {T W : Type} `{Zero T} `{Writer W}.
Implicit Types (c : Value T) (w : W) (x : T).

(** The cell after a [Write] that stored [x]. *)
Definition stored c x : Value T :=
  {| topic := topic c; marshaler := marshaler c; opts := opts c;
     v := x; initialized := true |}.

Lemma Write_published c w prefix x marshal data :
  marshaler c = Some marshal -> marshal x = (data, None) ->
  Write c w prefix x
  = (stored c x,
     fst (WriteTopic (JoinTopic [prefix; topic c]) (opts c) data w),
     (x, snd (WriteTopic (JoinTopic [prefix; topic c]) (opts c) data w))).
Proof.
  intros Hm Hx. unfold Write. rewrite Hm, Hx. simpl.
  destruct (WriteTopic (JoinTopic [prefix; topic c]) (opts c) data w) as [w' werr].
  unfold stored. now rewrite Hm.
Qed.

(** What a history of [Write] calls hands to the transport: for each call
    whose value serializes, the joined topic, the cell's options and the
    serialized bytes. *)
Definition publication (cell_topic : string) (marshal : option (ValueMarshaler T))
    (options : WriteOptions) (call : string * T) : list (string * WriteOptions * list byte) :=
  match marshal with
  | None => []
  | Some m =>
      match m (snd call) with
      | (data, None) => [(JoinTopic [fst call; cell_topic], options, data)]
      | (_, Some _) => []
      end
  end.

Definition publications c (calls : list (string * T)) : list (string * WriteOptions * list byte) :=
  flat_map (publication (topic c) (marshaler c) (opts c)) calls.

Definition send (w : W) (m : string * WriteOptions * list byte) : W :=
  fst (WriteTopic (fst (fst m)) (snd (fst m)) (snd m) w).

(** The value of the last call of a history that serialized, if any. *)
Definition last_stored c (calls : list (string * T)) : option T :=
  match rev (filter (fun call => serializes c (snd call)) calls) with
  | [] => None
  | call :: _ => Some (snd call)
  end.

Lemma Write_step c w prefix x :
  let c' := fst (fst (Write c w prefix x)) in
  topic c' = topic c /\ marshaler c' = marshaler c /\ opts c' = opts c
  /\ snd (fst (Write c w prefix x))
     = fold_left send (publication (topic c) (marshaler c) (opts c) (prefix, x)) w
  /\ Get c' = if serializes c x then (x, true) else Get c.
Proof.
  unfold Write, publication, serializes. cbn [snd].
  destruct (marshaler c) as [marshal |] eqn:Hm.
  - destruct (marshal x) as [data [e |]] eqn:Hx.
    + simpl. repeat split; assumption.
    + unfold send. cbn [fold_left fst snd topic opts].
      destruct (WriteTopic (JoinTopic [prefix; topic c]) (opts c) data w) as [w' werr].
      simpl. repeat split.
  - simpl. repeat split; assumption.
Qed.

Lemma filter_serializes_ext c c' (calls : list (string * T)) :
  marshaler c' = marshaler c ->
  filter (fun call => serializes c' (snd call)) calls
  = filter (fun call => serializes c (snd call)) calls.
Proof.
  intros Hm. induction calls as [| call rest IH]; [reflexivity |].
  simpl. rewrite IH. unfold serializes. now rewrite Hm.
Qed.

(** X4. Over any history of [Write] calls on a cell, the transport is handed
    exactly the values that serialized, in call order, each once, under the
    topic joined from that call's prefix and with the cell's options; a call
    that fails to serialize hands it nothing.  [Get] then returns the value of
    the last call that serialized, or what it returned before the history
    when none did. *)
Theorem writes_publish_what_serialized (calls : list (string * T)) : forall c w,
  snd (writes c w calls) = fold_left send (publications c calls) w
  /\ Get (fst (writes c w calls))
     = match last_stored c calls with
       | Some x => (x, true)
       | None => Get c
       end.
Proof.
  induction calls as [| [prefix x] rest IH]; intros c w; [split; reflexivity |].
  destruct (Write_step c w prefix x) as (Ht & Hm & Ho & Hw & Hg).
  simpl writes. unfold publications. simpl flat_map. rewrite fold_left_app.
  destruct (Write c w prefix x) as [[c' w'] r]. simpl in Ht, Hm, Ho, Hw, Hg.
  destruct (IH c' w') as [IHw IHg]. split.
  - rewrite IHw. unfold publications. now rewrite Ht, Hm, Ho, Hw.
  - rewrite IHg. unfold last_stored.
    rewrite (filter_serializes_ext c c' rest Hm). simpl filter.
    destruct (serializes c x) eqn:Hs.
    + simpl rev.
      destruct (rev (filter (fun call => serializes c (snd call)) rest)) as [| call tl];
        [exact Hg | reflexivity].
    + destruct (rev (filter (fun call => serializes c (snd call)) rest)) as [| call tl];
        [exact Hg | reflexivity].
Qed.

(** X5. [Republish] on a cell that never stored a value fails with
    [ErrNeverWritten] and touches neither cell nor transport.  After a
    [Write] that stored [x], [Republish] sends the serialization of [x]
    again, to the topic joined from the prefix it is given, and leaves the
    cell as the [Write] left it, whether or not the first publish failed. *)
Theorem Republish_resends_the_stored_value c w prefix x :
  (initialized c = false ->
   Republish c w prefix = (c, w, (v c, Some (Sentinel_ ErrNeverWritten))))
  /\ (forall marshal data prefix',
         marshaler c = Some marshal -> marshal x = (data, None) ->
         let c1 := fst (fst (Write c w prefix x)) in
         let w1 := snd (fst (Write c w prefix x)) in
         Republish c1 w1 prefix'
         = (c1,
            fst (WriteTopic (JoinTopic [prefix'; topic c]) (opts c) data w1),
            (x, snd (WriteTopic (JoinTopic [prefix'; topic c]) (opts c) data w1)))).
Proof.
  split.
  - intros Hi. unfold Republish. now rewrite Hi.
  - intros marshal data prefix' Hm Hx c1 w1.
    assert (Hc1 : c1 = stored c x).
    { unfold c1. now rewrite (Write_published c w prefix x marshal data Hm Hx). }
    rewrite Hc1. unfold Republish. simpl.
    rewrite (Write_published (stored c x) w1 prefix' x marshal data Hm Hx).
    reflexivity.
Qed.

End Publishing.
End ValueLaws.

(** ** The inbound cell: observers and histories of messages *)

Module ObserverLaws.
Import RemoteValue.
Section Observers.
Context {T W : Type} `{Zero T} `{JsonUnmarshal T}.
Implicit Types (c : RemoteValue T W) (w : W) (id : Z).

(** Registering callbacks one after the other: the cell and the ids handed
    back. *)
Fixpoint watch_all c (callbacks : list (T -> W -> W)) : RemoteValue T W * list Z :=
  match callbacks with
  | [] => (c, [])
  | callback :: rest =>
      let '(c', id, _) := Watch c callback in
      let (c'', ids) := watch_all c' rest in
      (c'', id :: ids)
  end.

(** A history of messages handed to the cell. *)
Fixpoint serve_all c (messages : list (string * list byte)) w : RemoteValue T W * W :=
  match messages with
  | [] => (c, w)
  | (topic', payload) :: rest =>
      let '(c', w', _) := ServeMQTT_locked c topic' payload w in
      serve_all c' rest w'
  end.

(** The value a message yields for a cell with the given topic and
    unmarshaler: none on another topic or when decoding fails. *)
Definition decoded (cell_topic : string) (decode : ValueUnmarshaler T)
    (message : string * list byte) : list T :=
  if String.eqb cell_topic (fst message)
  then match decode (snd message) with
       | (x, None) => [x]
       | (_, Some _) => []
       end
  else [].

Lemma watch_all_watchers (callbacks : list (T -> W -> W)) : forall c,
  watchers (fst (watch_all c callbacks)) = watchers c ++ callbacks
  /\ snd (watch_all c callbacks)
     = map (fun k => Z.of_nat (length (watchers c) + k)) (seq 0 (length callbacks))
  /\ topic (fst (watch_all c callbacks)) = topic c
  /\ installed (fst (watch_all c callbacks)) = installed c
  /\ Get (fst (watch_all c callbacks)) = Get c.
Proof.
  induction callbacks as [| cb rest IH]; intros c.
  - simpl. rewrite app_nil_r. repeat split.
  - simpl. specialize (IH (with_watchers c (watchers c ++ [cb]))).
    destruct (watch_all (with_watchers c (watchers c ++ [cb])) rest) as [c'' ids].
    simpl in *. destruct IH as (Hw & Hids & Ht & Hin & Hg).
    repeat split; try assumption.
    + rewrite Hw. now rewrite <- app_assoc.
    + rewrite Hids. f_equal.
      * rewrite length_app. simpl. lia.
      * rewrite <- seq_shift, map_map. apply map_ext. intros k.
        rewrite length_app. simpl. f_equal. lia.
Qed.

Lemma ServeMQTT_locked_step c t payload w :
  let c' := fst (fst (ServeMQTT_locked c t payload w)) in
  topic c' = topic c /\ installed c' = installed c /\ watchers c' = watchers c
  /\ Get c' = match decoded (topic c) (installed c) (t, payload) with
              | [] => Get c
              | x :: _ => (x, true)
              end
  /\ snd (fst (ServeMQTT_locked c t payload w))
     = fold_left (fun w x => notify (watchers c) x w)
                 (decoded (topic c) (installed c) (t, payload)) w.
Proof.
  unfold ServeMQTT_locked, decoded. simpl fst. simpl snd.
  destruct (String.eqb (topic c) t); simpl; [| repeat split].
  destruct (installed c payload) as [x [e |]]; simpl; repeat split.
Qed.

(** X6. Over any history of messages, the cell keeps its observer list; [Get]
    returns the value of the last message that arrived on the cell's exact
    topic and decoded, or what it returned before when there was none; and
    the observers have run once per such message, in message order and
    within a message in registration order, and for no other message. *)
Theorem serve_all_keeps_last_good_value (messages : list (string * list byte)) : forall c w,
  let values := flat_map (decoded (topic c) (installed c)) messages in
  watchers (fst (serve_all c messages w)) = watchers c
  /\ Get (fst (serve_all c messages w))
     = match rev values with
       | [] => Get c
       | x :: _ => (x, true)
       end
  /\ snd (serve_all c messages w)
     = fold_left (fun w x => fold_left (fun w cb => cb x w) (watchers c) w) values w.
Proof.
  induction messages as [| [t payload] rest IH]; intros c w; [repeat split |].
  destruct (ServeMQTT_locked_step c t payload w) as (Ht & Hin & Hws & Hg & Hw).
  simpl serve_all. cbv zeta. simpl flat_map.
  destruct (ServeMQTT_locked c t payload w) as [[c' w'] logged].
  simpl in Ht, Hin, Hws, Hg, Hw.
  specialize (IH c' w'). cbv zeta in IH. rewrite Ht, Hin, Hws in IH.
  destruct IH as (IHws & IHg & IHw).
  split; [exact IHws |]. split.
  - rewrite IHg, rev_app_distr.
    destruct (rev (flat_map (decoded (topic c) (installed c)) rest)) as [| y tl];
      [| reflexivity].
    simpl. rewrite Hg.
    unfold decoded. simpl. destruct (String.eqb (topic c) t); [| reflexivity].
    destruct (installed c payload) as [x [e |]]; reflexivity.
  - rewrite IHw, fold_left_app, Hw. reflexivity.
Qed.

(** X7. Callbacks registered one after the other on a cell without observers
    get the ids 0, 1, 2, ... in that order, and a message that decodes then
    runs all of them, each once, first registered first, on the decoded
    value. *)
Theorem observers_run_in_registration_order c (callbacks : list (T -> W -> W))
    (payload : list byte) (x : T) w :
  watchers c = [] -> installed c payload = (x, None) ->
  let registered := watch_all c callbacks in
  snd registered = map Z.of_nat (seq 0 (length callbacks))
  /\ watchers (fst registered) = callbacks
  /\ ServeMQTT (Some (fst registered)) (topic c) payload w
     = (Some (with_value (with_unmarshaler (fst registered) (installed c)) x),
        fold_left (fun w cb => cb x w) callbacks w,
        [(LevelDebug, "Received new value from mqtt"); (LevelDebug, "Updating watchers")]).
Proof.
  intros Hnone Hx registered.
  destruct (watch_all_watchers callbacks c) as (Hw & Hids & Ht & Hin & _).
  fold registered in Hw, Hids, Ht, Hin. rewrite Hnone in Hw, Hids. simpl in Hw, Hids.
  split; [exact Hids |]. split; [exact Hw |].
  unfold ServeMQTT. rewrite <- Ht.
  rewrite (RemoteValueFacts.ServeMQTT_locked_accepted (fst registered) payload w x)
    by (rewrite Hin; exact Hx).
  now rewrite Hw, Hin.
Qed.

End Observers.
End ObserverLaws.

(** ** Removing observers *)

Module UnwatchLaws.
Import RemoteValue.
Section Removal.
Context {T W : Type}.
Implicit Types (c : RemoteValue T W) (id : Z).

(** The three ways [Unwatch] can go, by the id alone. *)
Lemma Unwatch_cases c id :
  let n := Z.of_nat (length (watchers c)) in
  Unwatch c id
  = if (id <? 1)%Z || (n <? id)%Z
    then Returned (c, [(LevelWarn, "Tried to remove an invalid watcher")])
    else if (id <? n)%Z
         then Returned (with_watchers c (firstn (Z.to_nat id) (watchers c)
                                         ++ skipn (Z.to_nat (id + 1)) (watchers c)),
                        [(LevelDebug, "Removing watcher")])
         else Panicked "slice bounds out of range".
Proof.
  intros n.
  destruct ((id <? 1)%Z || (n <? id)%Z) eqn:Hguard.
  - apply WatcherFacts.Unwatch_refused. fold n.
    apply orb_true_iff in Hguard. destruct Hguard as [Hlo | Hhi].
    + left. now apply Z.ltb_lt.
    + right. now apply Z.ltb_lt.
  - apply orb_false_iff in Hguard. destruct Hguard as [Hlo Hhi].
    apply Z.ltb_ge in Hlo. apply Z.ltb_ge in Hhi.
    destruct (id <? n)%Z eqn:Hin.
    + apply Z.ltb_lt in Hin. apply WatcherFacts.Unwatch_removes. fold n. lia.
    + apply Z.ltb_ge in Hin. assert (Heq : id = n) by lia. subst id.
      unfold Unwatch. fold n.
      destruct (watchers c) as [| cb ws] eqn:Hws; [simpl in n; lia |].
      assert (H1 : (n <? 1)%Z = false) by (apply Z.ltb_ge; lia).
      assert (H2 : (n >? n)%Z = false) by (rewrite Z.gtb_ltb; apply Z.ltb_irrefl).
      rewrite H1, H2. cbn [orb]. unfold slice_to, slice_from. fold n.
      assert (H3 : ((0 <=? n) && (n <=? n))%Z = true)
        by (apply andb_true_iff; split; apply Z.leb_le; lia).
      assert (H4 : ((0 <=? n + 1) && (n + 1 <=? n))%Z = false)
        by (apply andb_false_iff; right; apply Z.leb_gt; lia).
      now rewrite H3, H4.
Qed.

Lemma In_firstn {A : Type} (n : nat) (l : list A) (x : A) : In x (firstn n l) -> In x l.
Proof. intros Hx. rewrite <- (firstn_skipn n l). apply in_or_app. now left. Qed.

Lemma In_skipn {A : Type} (n : nat) (l : list A) (x : A) : In x (skipn n l) -> In x l.
Proof. intros Hx. rewrite <- (firstn_skipn n l). apply in_or_app. now right. Qed.

(** X8. Whatever the id, an [Unwatch] that returns leaves the stored value,
    the flag, the topic and the unmarshaler alone, removes at most one
    observer, never adds one, and never removes the observer registered
    first. *)
Theorem Unwatch_keeps_value_and_first_observer c id c' logged :
  Unwatch c id = Returned (c', logged) ->
  Get c' = Get c /\ topic c' = topic c /\ unmarshaler c' = unmarshaler c
  /\ hd_error (watchers c') = hd_error (watchers c)
  /\ (length (watchers c) - 1 <= length (watchers c') <= length (watchers c))%nat
  /\ (forall cb, In cb (watchers c') -> In cb (watchers c)).
Proof.
  rewrite Unwatch_cases. cbv zeta.
  destruct ((id <? 1)%Z || (Z.of_nat (length (watchers c)) <? id)%Z) eqn:Hguard.
  - intros Hr. inversion Hr; subst. repeat split; auto; lia.
  - apply orb_false_iff in Hguard. destruct Hguard as [Hlo _]. apply Z.ltb_ge in Hlo.
    destruct (id <? Z.of_nat (length (watchers c)))%Z eqn:Hin; [| discriminate].
    apply Z.ltb_lt in Hin. intros Hr. inversion Hr; subst. simpl.
    repeat split.
    + destruct (watchers c) as [| cb ws]; [simpl in Hin; lia |].
      destruct (Z.to_nat id) as [| k] eqn:Hk; [lia | reflexivity].
    + rewrite length_app, length_firstn, length_skipn. lia.
    + rewrite length_app, length_firstn, length_skipn. lia.
    + intros cb Hcb. apply in_app_or in Hcb. destruct Hcb as [Hcb | Hcb].
      * now apply In_firstn in Hcb.
      * now apply In_skipn in Hcb.
Qed.

(** X9. An id from 1 up to the number of observers minus one removes the
    observer at that position, and every observer registered after it moves
    one position down: the id [Watch] returned for such an observer now
    addresses its successor. *)
Theorem Unwatch_removes_position_and_shifts c id :
  (1 <= id < Z.of_nat (length (watchers c)))%Z ->
  exists c',
    Unwatch c id = Returned (c', [(LevelDebug, "Removing watcher")])
    /\ length (watchers c') = (length (watchers c) - 1)%nat
    /\ forall j,
         nth_error (watchers c') j
         = if (j <? Z.to_nat id)%nat then nth_error (watchers c) j
           else nth_error (watchers c) (S j).
Proof.
  intros Hid. eexists. split; [now apply WatcherFacts.Unwatch_removes |].
  cbn [watchers with_watchers]. split.
  - rewrite length_app, length_firstn, length_skipn. lia.
  - intros j. rewrite nth_error_app, length_firstn.
    replace (Nat.min (Z.to_nat id) (length (watchers c))) with (Z.to_nat id) by lia.
    rewrite nth_error_firstn.
    destruct (Nat.ltb_spec j (Z.to_nat id)) as [Hlt | Hge]; [reflexivity |].
    rewrite nth_error_skipn. f_equal. lia.
Qed.

End Removal.
End UnwatchLaws.

(** ** What [Await] returns *)

Module AwaitLaws.
Import RemoteValue Awaiting.
Section Results.
Context {T A : Type} `{Zero T} `{JsonUnmarshal T}.
Implicit Types (c : RemoteValue T (World T A)) (w : World T A).

(** A callback that leaves the locals of every [Await] call alone. *)
Definition keeps_frames (cb : T -> World T A -> World T A) : Prop :=
  forall t w, snd (cb t w) = snd w.


Lemma update_frame_nth (k : nat) (f : Frame T -> Frame T) (frames : list (Frame T))
    (d : Frame T) :
  (k < length frames)%nat -> nth k (update_frame k f frames) d = f (nth k frames d).
Proof.
  revert k. induction frames as [| fr rest IH]; intros k Hk; [simpl in Hk; lia |].
  destruct k; simpl; [reflexivity |]. apply IH. simpl in Hk. lia.
Qed.

Lemma notify_keeps_frames (ws : list (T -> World T A -> World T A)) (x : T) :
  Forall keeps_frames ws -> forall w, snd (notify ws x w) = snd w.
Proof.
  unfold notify. induction 1 as [| cb rest Hcb _ IH]; intros w; [reflexivity |].
  simpl. rewrite IH. apply Hcb.
Qed.

Lemma wait_done (k : nat) c (inbound : list (string * list byte)) w :
  closes (frame_of k w) <> 0%nat -> wait k c inbound w = (c, w, []).
Proof.
  intros Hdone. destruct inbound as [| [t payload] rest]; [reflexivity |].
  simpl. destruct (Nat.eqb_spec (closes (frame_of k w)) 0); [contradiction | reflexivity].
Qed.

(** The frame of the call once the wait is over. *)
Lemma wait_frame (k : nat) (desired : T -> bool) (ws : list (T -> World T A -> World T A))
    (inbound : list (string * list byte)) :
  Forall keeps_frames ws ->
  forall c w,
    watchers c = ws ++ [transient k desired] ->
    (k < length (snd w))%nat -> closes (frame_of k w) = 0%nat ->
    frame_of k (snd (fst (wait k c inbound w)))
    = match find desired (flat_map (ObserverLaws.decoded (topic c) (installed c)) inbound) with
      | Some x => {| got := x; closes := 1 |}
      | None => frame_of k w
      end
    /\ watchers (fst (fst (wait k c inbound w))) = watchers c.
Proof.
  intros Hws. induction inbound as [| [t payload] rest IH]; intros c w Hc Hk Hopen.
  - simpl. now split.
  - cbn [wait]. rewrite Hopen. cbn [Nat.eqb].
    destruct (ObserverLaws.ServeMQTT_locked_step c t payload w) as (Ht & Hin & Hw & _ & Hworld).
    destruct (ServeMQTT_locked c t payload w) as [[c' w'] logged].
    simpl in Ht, Hin, Hw, Hworld. cbn [flat_map].
    assert (Hc' : watchers c' = ws ++ [transient k desired]) by congruence.
    unfold ObserverLaws.decoded in *. cbn [fst snd] in *.
    destruct (String.eqb (topic c) t).
    2: { simpl in Hworld. subst w'. cbn [app].
         specialize (IH c' w Hc' Hk Hopen). rewrite Ht, Hin in IH.
         destruct (wait k c' rest w) as [[c'' w''] logged']. simpl in *.
         destruct IH as [IHf IHw]. split; [exact IHf | congruence]. }
    destruct (installed c payload) as [x [e |]].
    { simpl in Hworld. subst w'. cbn [app].
      specialize (IH c' w Hc' Hk Hopen). rewrite Ht, Hin in IH.
      destruct (wait k c' rest w) as [[c'' w''] logged']. simpl in *.
      destruct IH as [IHf IHw]. split; [exact IHf | congruence]. }
    simpl in Hworld. rewrite Hc in Hworld. unfold notify in Hworld.
    rewrite fold_left_app in Hworld. simpl in Hworld.
    fold (notify ws x w) in Hworld.
    pose proof (notify_keeps_frames ws x Hws w) as Hsame.
    cbn [app find]. unfold transient in Hworld.
    destruct (desired x) eqn:Hd.
    + assert (Hfr : frame_of k w' = {| got := x; closes := 1 |}).
      { subst w'. unfold frame_of. simpl snd.
        rewrite update_frame_nth by (rewrite Hsame; exact Hk).
        rewrite Hsame. fold (frame_of k w). now rewrite Hopen. }
      rewrite wait_done by (rewrite Hfr; discriminate).
      simpl. split; [exact Hfr | congruence].
    + assert (Hk' : (k < length (snd w'))%nat) by (subst w'; now rewrite Hsame).
      assert (Hfr : frame_of k w' = frame_of k w)
        by (subst w'; unfold frame_of; now rewrite Hsame).
      assert (Hopen' : closes (frame_of k w') = 0%nat) by now rewrite Hfr.
      specialize (IH c' w' Hc' Hk' Hopen'). rewrite Ht, Hin, Hfr in IH.
      destruct (wait k c' rest w') as [[c'' w''] logged']. simpl in *.
      destruct IH as [IHf IHw]. split; [exact IHf | congruence].
Qed.

(** In the one schedule of [Awaiting.Await], where nothing is delivered any
    more once [done] is closed: when the observers already on the cell leave
    the locals of [Await] alone, what [Await] returns is decided by the
    messages that arrive on the cell's exact topic and decode: the first
    such value that satisfies the predicate, with a nil error, or, when
    there is none, the zero value with the cause of the cancellation.
    [ScheduleLaws] has the other schedules. *)
Lemma Await_returns_first_desired_value c (desired : T -> bool)
    (inbound : list (string * list byte)) (cause : error) w :
  Forall keeps_frames (watchers c) ->
  exists c' w' logged,
    Await c desired inbound cause w
    = Returned (c', w',
                match find desired
                           (flat_map (ObserverLaws.decoded (topic c) (installed c)) inbound) with
                | Some x => (x, None)
                | None => (zero, Some cause)
                end,
                logged).
Proof.
  intros Hws. unfold Await, Watch. cbv zeta. simpl fst. simpl snd.
  set (k := length (snd w)).
  set (tr := transient k desired).
  set (c1 := with_watchers c (watchers c ++ [tr])).
  set (w1 := (fst w, snd w ++ [{| got := zero; closes := 0 |}])).
  assert (Hfresh : frame_of k w1 = {| got := zero; closes := 0 |}).
  { unfold frame_of, w1, k. simpl snd. now rewrite nth_middle. }
  destruct (wait_frame k desired (watchers c) inbound Hws c1 w1) as [Hframe Hwatch].
  { reflexivity. }
  { unfold w1, k. simpl snd. rewrite length_app. simpl. lia. }
  { now rewrite Hfresh. }
  change (topic c1) with (topic c) in Hframe.
  change (installed c1) with (installed c) in Hframe.
  rewrite Hfresh in Hframe.
  destruct (wait k c1 inbound w1) as [[c2 w2] logServe]. simpl in Hframe, Hwatch.
  assert (Hlen : length (watchers c1) = length (watchers c2)) by now rewrite Hwatch.
  rewrite Hlen.
  assert (Hc2 : watchers c2 = watchers c ++ [tr]) by (rewrite Hwatch; reflexivity).
  assert (Hret : exists c' logUnwatch,
             Unwatch c2 (Z.of_nat (length (watchers c2)) - 1) = Returned (c', logUnwatch)).
  { rewrite UnwatchLaws.Unwatch_cases. cbv zeta.
    destruct ((Z.of_nat (length (watchers c2)) - 1 <? 1)%Z
              || (Z.of_nat (length (watchers c2)) <? Z.of_nat (length (watchers c2)) - 1)%Z);
      [eexists _, _; reflexivity |].
    assert (Hin : (Z.of_nat (length (watchers c2)) - 1 <? Z.of_nat (length (watchers c2)))%Z
                  = true) by (apply Z.ltb_lt; lia).
    rewrite Hin. eexists _, _; reflexivity. }
  destruct Hret as (c' & logUnwatch & Hret). rewrite Hret.
  rewrite Hframe.
  destruct (find desired (flat_map (ObserverLaws.decoded (topic c) (installed c)) inbound));
    simpl; eexists _, _, _; reflexivity.
Qed.

End Results.
End AwaitLaws.

(** ** [Await] under every schedule

    [Await] runs in the caller's goroutine while the transport's goroutine
    delivers messages to the cell, and each of [Watch], [ServeMQTT] and
    [Unwatch] runs under the cell's lock.  A run of [Await] that ends is
    therefore fixed by three choices of the scheduler: the messages
    delivered after [Watch] and before the [select] takes a case
    ([before_select]: deliveries go on after [done] is closed, until the
    caller's goroutine runs); the case the [select] takes ([ctx_first]: the
    context is done as well and its case is taken; when [done] is still open
    the [select] can only have taken the context's case); and the messages
    delivered before the deferred [Unwatch] gets the lock
    ([before_unwatch]).  A [close] of a channel that is closed already is a
    run-time panic in the delivering goroutine, which ends the program. *)

Set Implicit Arguments.

Module Interleaved.
Import RemoteValue Awaiting.
Section Await.
Context {T A : Type} `{Zero T} `{JsonUnmarshal T}.

(** Some [done] has been closed a second time. *)
Definition closed_twice (w : World T A) : bool :=
  existsb (fun fr => (2 <=? closes fr)%nat) (snd w).

(** The transport hands the messages to the cell one after the other. *)
Fixpoint deliver (c : RemoteValue T (World T A)) (messages : list (string * list byte))
    (w : World T A) : Outcome (RemoteValue T (World T A) * World T A * list LogRecord) :=
  match messages with
  | [] => Returned (c, w, [])
  | (topic', payload) :: rest =>
      let '(c', w', logged) := ServeMQTT_locked c topic' payload w in
      if closed_twice w' then Panicked "close of closed channel"
      else
        match deliver c' rest w' with
        | Returned (c'', w'', logged') => Returned (c'', w'', logged ++ logged')
        | Panicked why => Panicked why
        end
  end.

Record Schedule : Type := {
  before_select : list (string * list byte);
  ctx_first : bool;
  before_unwatch : list (string * list byte)
}.

Definition Await (c : RemoteValue T (World T A)) (desired : T -> bool) (s : Schedule)
    (cause : error) (w : World T A)
    : Outcome (RemoteValue T (World T A) * World T A * (T * option error) * list LogRecord) :=
  let k := length (snd w) in
  let w := (fst w, snd w ++ [{| got := zero; closes := 0 |}]) in
  let '(c, id, logWatch) := Watch c (transient k desired) in
  match deliver c (before_select s) w with
  | Panicked why => Panicked why
  | Returned (c, w, logBefore) =>
      let fr := frame_of k w in
      let '(result, logSelect) :=
        if Nat.eqb (closes fr) 0 || ctx_first s
        then ((got fr, Some cause), [(LevelDebug, "Timeout waiting for value")])
        else ((got fr, None), []) in
      match deliver c (before_unwatch s) w with
      | Panicked why => Panicked why
      | Returned (c, w, logAfter) =>
          match Unwatch c id with
          | Returned (c, logUnwatch) =>
              Returned (c, w, result,
                        [(LevelDebug, "Awaiting value")] ++ logWatch ++ logBefore
                          ++ logSelect ++ logAfter ++ logUnwatch)
          | Panicked why => Panicked why
          end
      end
  end.

End Await.
Arguments Schedule : clear implicits.
End Interleaved.

Unset Implicit Arguments.

Module ScheduleLaws.
Import RemoteValue Awaiting Interleaved AwaitLaws.
Section Schedules.
Context {T A : Type} `{Zero T} `{JsonUnmarshal T}.
Implicit Types (c : RemoteValue T (World T A)) (w : World T A).





End Schedules.
End ScheduleLaws.

(** ** The builder on an encoder that accepts every token *)

Module BuilderLaws.
Import JoinFacts.
Section Accepting.
Context `{JsonEncoder}.

(** The encoder refuses nothing. *)
Definition accepting : Prop := forall (e : Encoder) (t : Token), rejects e t = None.

(** A call that never fails. *)
Definition quiet (call : Enc (option error)) : Prop := forall e, fst (call e) = None.

Lemma Join_none (rs : list (option error)) :
  Forall (fun r => r = None) rs -> Join rs = None.
Proof.
  intros Hall. unfold Join, nonnil.
  induction Hall as [| r rest Hr _ IH]; [reflexivity |].
  subst r. simpl. exact IH.
Qed.

Lemma run_all_quiet (calls : list (Enc (option error))) :
  Forall quiet calls -> forall e, Forall (fun r => r = None) (fst (run_all calls e)).
Proof.
  induction 1 as [| call rest Hcall _ IH]; intros e; [constructor |].
  simpl. specialize (Hcall e). destruct (call e) as [r e1]. simpl in Hcall. subst r.
  specialize (IH e1). destruct (run_all rest e1) as [rs e2]. simpl in *.
  now constructor.
Qed.

Lemma JoinCalls_quiet (calls : list (Enc (option error))) :
  Forall quiet calls -> quiet (JoinCalls calls).
Proof.
  intros Hall e. unfold JoinCalls.
  pose proof (run_all_quiet calls Hall e) as Hrs.
  destruct (run_all calls e) as [rs e']. simpl in *. now apply Join_none.
Qed.

Lemma ret_quiet : quiet (ret None).
Proof. intros e. reflexivity. Qed.

Section Helpers.
Hypothesis Haccept : accepting.

Lemma WriteToken_quiet (t : Token) : quiet (WriteToken t).
Proof. intros e. unfold WriteToken. now rewrite Haccept. Qed.

Lemma WriteToken_accepting (t : Token) (e : Encoder) : WriteToken t e = (None, e ++ [t]).
Proof. unfold WriteToken. now rewrite Haccept. Qed.

Lemma encode_as_quiet {T : Type} (render : T -> JValue) (x : T) :
  quiet (MarshalEncode (JsonMarshal := encode_as render) x).
Proof. apply WriteToken_quiet. Qed.

Lemma MaybeMarshalTopic_quiet (k topic : string) : quiet (MaybeMarshalTopic k topic).
Proof.
  unfold MaybeMarshalTopic. destruct (String.eqb topic ""); [apply ret_quiet |].
  apply JoinCalls_quiet. repeat constructor; apply WriteToken_quiet.
Qed.

Lemma MarshalRequiredTopic_quiet (name k topic : string) :
  topic <> "" -> quiet (MarshalRequiredTopic name k topic).
Proof.
  intros Hne. unfold MarshalRequiredTopic.
  destruct (String.eqb_spec topic ""); [contradiction | apply MaybeMarshalTopic_quiet].
Qed.

Lemma MaybeMarshalStd_quiet {T : Type} `{JsonMarshal T} (k : string) (v : option T) :
  (forall x, quiet (MarshalEncode x)) -> quiet (MaybeMarshalStd k v).
Proof.
  intros Hq. unfold MaybeMarshalStd. destruct v as [x |]; [| apply ret_quiet].
  apply JoinCalls_quiet. repeat constructor; [apply WriteToken_quiet | apply Hq].
Qed.

Lemma MaybeMarshalStdComparable_quiet {T : Type} `{Zero T} `{Comparable T} `{JsonMarshal T}
    (k : string) (v : T) :
  (forall x, quiet (MarshalEncode x)) -> quiet (MaybeMarshalStdComparable k v).
Proof.
  intros Hq. unfold MaybeMarshalStdComparable.
  destruct (equal v zero); [apply ret_quiet | now apply MaybeMarshalStd_quiet].
Qed.

Lemma MaybeMarshalStdSlice_quiet {T : Type} `{JsonMarshal (list T)} (k : string) (v : list T) :
  (forall l, quiet (MarshalEncode l)) -> quiet (MaybeMarshalStdSlice k v).
Proof.
  intros Hq. unfold MaybeMarshalStdSlice. destruct v as [| x rest]; [apply ret_quiet |].
  apply JoinCalls_quiet. repeat constructor; [apply WriteToken_quiet | apply Hq].
Qed.

(** What a required topic contributes: its error and its tokens. *)
Lemma MarshalRequiredTopic_accepting (name k topic : string) (e : Encoder) :
  MarshalRequiredTopic name k topic e
  = if String.eqb topic "" then (Some (violation name ErrTopicRequired), e)
    else (None, e ++ [Str k; Str topic]).
Proof.
  unfold MarshalRequiredTopic, MaybeMarshalTopic.
  destruct (String.eqb topic ""); [reflexivity |].
  unfold JoinCalls. simpl. rewrite !WriteToken_accepting.
  now rewrite <- app_assoc.
Qed.

End Helpers.

(** X11. A state cell and a command cell are validated as a unit.  With
    neither cell nothing is written and nothing reported; with exactly one
    cell nothing is written and one [ErrMissingStateOrCommandTopic] is
    reported under the pair's name; this holds whatever the encoder does.
    With both cells, on an encoder that accepts every token, each joined
    topic that is not empty is written under the key passed for it, state
    first, and each empty one is reported as [ErrTopicRequired] while the
    other is still written. *)
Theorem MaybeMarshalStateAndCommandTopics_validates_the_pair {T W : Type}
    (name sk ck prefix : string) (s : option (Value.Value T))
    (c : option (RemoteValue.RemoteValue T W)) (e : Encoder) :
  (s = None -> c = None ->
   MaybeMarshalStateAndCommandTopics name sk s ck c prefix e = (None, e))
  /\ ((s = None /\ c <> None) \/ (s <> None /\ c = None) ->
      MaybeMarshalStateAndCommandTopics name sk s ck c prefix e
      = (Some (violation name ErrMissingStateOrCommandTopic), e))
  /\ (accepting -> s <> None -> c <> None ->
      let ts := Value.FullyQualifiedTopic s prefix in
      let tc := RemoteValue.FullyQualifiedTopic c prefix in
      MaybeMarshalStateAndCommandTopics name sk s ck c prefix e
      = (Join [if String.eqb ts "" then Some (violation name ErrTopicRequired) else None;
               if String.eqb tc "" then Some (violation name ErrTopicRequired) else None],
         e ++ (if String.eqb ts "" then [] else [Str sk; Str ts])
           ++ (if String.eqb tc "" then [] else [Str ck; Str tc]))).
Proof.
  split; [| split].
  - intros -> ->. reflexivity.
  - apply PairFacts.pair_only_one.
  - intros Hacc Hs Hc ts tc.
    destruct s as [sv |]; [| congruence]. destruct c as [cv |]; [| congruence].
    unfold MaybeMarshalStateAndCommandTopics, JoinCalls. simpl run_all.
    unfold MarshalRequiredValueTopic, MarshalRequiredRemoteValueTopic.
    fold ts. fold tc.
    rewrite (MarshalRequiredTopic_accepting Hacc name sk ts e).
    destruct (String.eqb ts "").
    + rewrite (MarshalRequiredTopic_accepting Hacc name ck tc e).
      destruct (String.eqb tc ""); simpl; now rewrite ?app_nil_r.
    + rewrite (MarshalRequiredTopic_accepting Hacc name ck tc (e ++ [Str sk; Str ts])).
      destruct (String.eqb tc ""); simpl; now rewrite <- ?app_assoc, ?app_nil_r.
Qed.

End Accepting.
End BuilderLaws.

(** ** Which fields a sensor component needs *)

Module SensorLaws.
Import JoinFacts BuilderLaws.
Import (hints) Sensors.
Section Requirements.
Context `{JsonEncoder} {TValue TAttributes W : Type}.
Context `{JsonMarshal Duration} `{JsonMarshal (list TValue)}.

Ltac quiet_call Haccept :=
  first
    [ exact (WriteToken_quiet Haccept _)
    | apply (MaybeMarshalTopic_quiet Haccept)
    | apply (MaybeMarshalStdComparable_quiet Haccept); intros ?;
      first [ exact (WriteToken_quiet Haccept _) | solve [auto] ]
    | apply (MaybeMarshalStd_quiet Haccept); intros ?;
      first [ exact (WriteToken_quiet Haccept _) | solve [auto] ]
    | apply (MaybeMarshalStdSlice_quiet Haccept); solve [auto] ].

Lemma Sensor_quiet (s : Sensors.Sensor TValue TAttributes) (prefix : string) :
  accepting ->
  (forall d : Duration, quiet (MarshalEncode d)) ->
  (forall l : list TValue, quiet (MarshalEncode l)) ->
  Value.FullyQualifiedTopic (Sensors.State s) prefix <> "" ->
  quiet (Sensors.Sensor_MarshalDiscoveryTo s prefix).
Proof.
  intros Haccept Hd Hl Hstate. unfold Sensors.Sensor_MarshalDiscoveryTo.
  apply JoinCalls_quiet.
  repeat (apply Forall_cons || apply Forall_nil);
    try (apply (MarshalRequiredTopic_quiet Haccept); exact Hstate);
    quiet_call Haccept.
Qed.

(** X12. On an encoder that accepts every token, a component over the sensor
    platform is marshalled without error exactly when its availability cell
    and the sensor's state cell both have a non-empty joined topic.  No other
    field is needed: a missing [UniqueID], name or icon is left out of the
    document without any error. *)
Theorem Sensor_component_needs_availability_and_state
    (c : Component.Component (Sensors.Sensor TValue TAttributes)) (e : Encoder) :
  accepting ->
  (forall d : Duration, quiet (MarshalEncode d)) ->
  (forall l : list TValue, quiet (MarshalEncode l)) ->
  fst (Component.MarshalJSONTo (W := W) c e) = None
  <-> Value.FullyQualifiedTopic (Component.Availability c) (Component.TopicPrefix c) <> ""
      /\ Value.FullyQualifiedTopic (Sensors.State (Component.ComponentPlatform c))
                                   (Component.TopicPrefix c) <> "".
Proof.
  intros Haccept Hd Hl. split.
  - intros Hok. split; intros Hempty.
    + destruct (ConfigureFacts.Component_reports_availability (W := W) c Hempty e)
        as (err & Herr & _).
      congruence.
    + assert (Hrep : reports (Component.MarshalJSONTo (W := W) c)
                             (violation "state" ErrTopicRequired)).
      { apply ConfigureFacts.Component_reports_platform_violation.
        exact (ConfigureFacts.Sensor_reports_state _ _ Hempty). }
      destruct (Hrep e) as (err & Herr & _). congruence.
  - intros [Havail Hstate]. revert e.
    change (quiet (Component.MarshalJSONTo (W := W) c)).
    unfold Component.MarshalJSONTo. apply JoinCalls_quiet.
    repeat (apply Forall_cons || apply Forall_nil);
      try (apply (MarshalRequiredTopic_quiet Haccept); exact Havail);
      try (apply (Sensor_quiet _ _ Haccept Hd Hl Hstate));
      quiet_call Haccept.
Qed.

End Requirements.
End SensorLaws.

(** ** The device id and the publication of the document *)

Module DeviceLaws.
Import Device.

(** Some byte of the string is one the sanitizer replaces. *)
Fixpoint has_unsafe (s : string) : bool :=
  match s with
  | EmptyString => false
  | String a rest => unsafe_in_id a || has_unsafe rest
  end.

Lemma has_unsafe_append (a b : string) :
  has_unsafe (a ++ b) = has_unsafe a || has_unsafe b.
Proof.
  induction a as [| x a IH]; [reflexivity |].
  simpl. rewrite IH. now rewrite orb_assoc.
Qed.

Lemma IDSanitizer_Replace_safe (s : string) : has_unsafe (IDSanitizer_Replace s) = false.
Proof.
  induction s as [| a rest IH]; [reflexivity |].
  simpl. rewrite has_unsafe_append, IH, orb_false_r.
  destruct (unsafe_in_id a) eqn:Ha; [reflexivity |].
  simpl. now rewrite Ha.
Qed.

Lemma IDSanitizer_Replace_fixed (s : string) :
  has_unsafe s = false -> IDSanitizer_Replace s = s.
Proof.
  induction s as [| a rest IH]; [reflexivity |].
  simpl. intros Hs. apply orb_false_iff in Hs. destruct Hs as [Ha Hrest].
  now rewrite Ha, (IH Hrest).
Qed.

Lemma writeSep_safe (result : string) :
  has_unsafe result = false -> has_unsafe (writeSep result) = false.
Proof.
  intros Hr. unfold writeSep. destruct (0 <? String.length result)%nat; [| exact Hr].
  now rewrite has_unsafe_append, Hr.
Qed.

Lemma ID_field_safe (field result : string) :
  has_unsafe result = false -> has_unsafe (ID_field field result) = false.
Proof.
  intros Hr. unfold ID_field. destruct (String.eqb field ""); [exact Hr |].
  now rewrite has_unsafe_append, (writeSep_safe result Hr), IDSanitizer_Replace_safe.
Qed.

Lemma ID_identifiers_safe (n : nat) (idents : list string) : forall i result,
  has_unsafe result = false -> has_unsafe (ID_identifiers n i idents result) = false.
Proof.
  induction idents as [| ident rest IH]; intros i result Hr; [exact Hr |].
  simpl. apply IH.
  assert (Hs : has_unsafe (result ++ IDSanitizer_Replace ident) = false)
    by now rewrite has_unsafe_append, Hr, IDSanitizer_Replace_safe.
  destruct (i <? n - 1)%nat; [now apply writeSep_safe | exact Hs].
Qed.

(** X13. Sanitizing replaces every space, colon, dot, exclamation mark,
    question mark and topic separator, so sanitizing twice is sanitizing
    once; and a device id computed from the device's fields (no explicit
    [DiscoveryID]) contains none of these bytes, in particular no topic
    separator.  An explicit [DiscoveryID] is used as it is. *)
Theorem ID_without_DiscoveryID_is_sanitized (d : Device) :
  (forall s, has_unsafe (IDSanitizer_Replace s) = false
             /\ IDSanitizer_Replace (IDSanitizer_Replace s) = IDSanitizer_Replace s)
  /\ (DiscoveryID d = "" -> has_unsafe (ID d) = false)
  /\ (DiscoveryID d <> "" -> ID d = DiscoveryID d).
Proof.
  split; [| split].
  - intros s. split; [apply IDSanitizer_Replace_safe |].
    apply IDSanitizer_Replace_fixed, IDSanitizer_Replace_safe.
  - intros Hid. unfold ID. rewrite Hid. simpl.
    repeat apply ID_field_safe. now apply ID_identifiers_safe.
  - intros Hid. unfold ID.
    destruct (String.eqb_spec (DiscoveryID d) ""); [contradiction | reflexivity].
Qed.

Section Publishing.
Context `{JsonEncoder} {W : Type} `{Writer W}.

(** A call that fails whatever state the encoder is in. *)
Definition always_fails (call : Enc (option error)) : Prop := forall e, fst (call e) <> None.

Lemma Join_member (e : error) (errs : list (option error)) :
  In (Some e) errs -> Join errs <> None.
Proof.
  intros Hin. apply JoinFacts.nonnil_In in Hin. unfold Join.
  destruct (nonnil errs); [contradiction | discriminate].
Qed.

Lemma JoinCalls_always_fails (call : Enc (option error)) (calls : list (Enc (option error))) :
  In call calls -> always_fails call -> always_fails (JoinCalls calls).
Proof.
  intros Hin Hfails e. unfold JoinCalls.
  assert (Hsome : exists err, In (Some err) (fst (run_all calls e))).
  { revert e. induction calls as [| c0 rest IH]; intros e; [contradiction |].
    simpl. destruct (c0 e) as [r e1] eqn:Hc0. destruct Hin as [-> | Hin].
    - specialize (Hfails e). rewrite Hc0 in Hfails. simpl in Hfails.
      destruct r as [err |]; [| congruence].
      destruct (run_all rest e1) as [rs e2]. exists err. now left.
    - destruct (IH Hin e1) as [err Herr].
      destruct (run_all rest e1) as [rs e2]. exists err. now right. }
  destruct Hsome as [err Herr]. destruct (run_all calls e) as [rs e'].
  now apply Join_member with (e := err).
Qed.

Lemma MarshalEncode_always_fails (m : MarshalerTo) :
  always_fails m -> always_fails (MarshalEncode m).
Proof.
  intros Hfails e. specialize (Hfails e).
  unfold MarshalEncode, JsonMarshal_MarshalerTo.
  destruct (m e) as [[err |] e']; simpl in *; [discriminate | congruence].
Qed.

Lemma MaybeInlineMarshalStd_loop_stays_failed (v : list (string * MarshalerTo)) :
  forall acc e, acc <> None -> fst (MaybeInlineMarshalStd_loop acc v e) <> None.
Proof.
  induction v as [| [vk vv] rest IH]; intros acc e Hacc; simpl; [exact Hacc |].
  destruct (WriteToken (Str vk) e) as [r1 e1].
  destruct (MarshalEncode vv e1) as [r2 e2].
  apply IH. destruct acc as [err |]; [| congruence].
  apply Join_member with (e := err). now left.
Qed.

Lemma MaybeInlineMarshalStd_always_fails (k : string) (m : MarshalerTo)
    (v : list (string * MarshalerTo)) :
  In (k, m) v -> always_fails m -> always_fails (MaybeInlineMarshalStd v).
Proof.
  intros Hin Hfails. unfold MaybeInlineMarshalStd.
  destruct v as [| entry rest] eqn:Hv; [contradiction |]. rewrite <- Hv in *. clear Hv.
  generalize (@None error) as acc.
  induction v as [| [vk vv] more IH]; intros acc e; [contradiction |].
  simpl. destruct (WriteToken (Str vk) e) as [r1 e1].
  destruct Hin as [Heq | Hin].
  - inversion Heq; subst vk vv.
    pose proof (MarshalEncode_always_fails m Hfails e1) as Hm.
    destruct (MarshalEncode m e1) as [[err |] e2]; simpl in Hm; [| congruence].
    apply MaybeInlineMarshalStd_loop_stays_failed.
    apply Join_member with (e := err). right. right. now left.
  - destruct (MarshalEncode vv e1) as [r2 e2]. now apply IH.
Qed.

(** What [json.MarshalEncode] asks of a component's method at an encoder
    state: no error, and exactly one value written. *)
Definition marshals (m : MarshalerTo) (e : Encoder) : bool :=
  match fst (m e) with
  | None => wrote_one_value e (snd (m e))
  | Some _ => false
  end.

(** The tokens in the buffer once the entries have been inlined, each under
    its key, and whether every entry marshalled on the way. *)
Fixpoint inlined (components : list (string * MarshalerTo)) (e : Encoder) : Encoder :=
  match components with
  | [] => e
  | (k, m) :: rest => inlined rest (snd (m (e ++ [Str k])))
  end.

Fixpoint all_marshal (components : list (string * MarshalerTo)) (e : Encoder) : bool :=
  match components with
  | [] => true
  | (k, m) :: rest => marshals m (e ++ [Str k]) && all_marshal rest (snd (m (e ++ [Str k])))
  end.

(** The document up to the first component. *)
Definition preamble (d : Device) : Encoder :=
  [BeginObject;
   Str FieldDevice; Encoded (Device_json d);
   Str FieldOrigin; Encoded (Origin_json (origin_or_default d));
   Str FieldComponents; BeginObject].

Lemma MarshalEncode_accepting (m : MarshalerTo) (e : Encoder) :
  snd (MarshalEncode m e) = snd (m e)
  /\ (fst (MarshalEncode m e) = None <-> marshals m e = true).
Proof.
  unfold MarshalEncode, JsonMarshal_MarshalerTo, marshals.
  destruct (m e) as [[err |] e']; cbn [fst snd].
  - split; [reflexivity | split; discriminate].
  - destruct (wrote_one_value e e'); cbn [fst snd];
      (split; [reflexivity | split; congruence]).
Qed.

Lemma Join_three (a b : option error) : Join [a; None; b] = None <-> a = None /\ b = None.
Proof. destruct a, b; cbn; split; try discriminate; intuition congruence. Qed.

Lemma MaybeInlineMarshalStd_loop_accepting (Haccept : BuilderLaws.accepting)
    (components : list (string * MarshalerTo)) : forall acc e,
  snd (MaybeInlineMarshalStd_loop acc components e) = inlined components e
  /\ (fst (MaybeInlineMarshalStd_loop acc components e) = None
      <-> acc = None /\ all_marshal components e = true).
Proof.
  induction components as [| [k m] rest IH]; intros acc e; cbn [MaybeInlineMarshalStd_loop].
  - cbn. intuition.
  - cbn [run_all inlined all_marshal].
    rewrite (BuilderLaws.WriteToken_accepting Haccept).
    destruct (MarshalEncode_accepting m (e ++ [Str k])) as [Hstate Hok].
    destruct (MarshalEncode m (e ++ [Str k])) as [r2 e2]. cbn [fst snd] in *. subst e2.
    destruct (IH (Join [acc; None; r2]) (snd (m (e ++ [Str k])))) as [IHstate IHok].
    split; [exact IHstate |].
    rewrite IHok, Join_three, Hok, andb_true_iff. tauto.
Qed.

(** X14.  [Configure] publishes at most once, and only a complete document.
    Whatever the encoder does: an invalid device, or a component whose
    method fails, makes [Configure] return an error with the transport left
    as it was; and every other outcome is one publish, to the topic
    [<discoveryPrefix>/device/<id>/config], retained and with QoS 0, whose
    result [Configure] returns.  On an encoder that accepts every token the
    outcome is decided exactly: [Configure] publishes if and only if the
    device is valid and every component's method returns nil having written
    one value, and the payload is then the buffer holding the device, the
    origin and every component under its key, with both objects closed. *)
Theorem Configure_publishes_exactly_the_complete_document (d : Device) (w : W)
    (discoveryPrefix : string) (components : list (string * MarshalerTo)) :
  let topic := (discoveryPrefix ++ "/device/" ++ ID d ++ "/config")%string in
  let options := {| QoS := 0%N; Retain := true |} in
  ((exists err, Configure d w discoveryPrefix components = (w, Some err))
   \/ (exists e, Valid d = None
                 /\ Configure d w discoveryPrefix components
                    = WriteTopic topic options (Bytes e) w))
  /\ (forall err, Valid d = Some err ->
                  Configure d w discoveryPrefix components = (w, Some err))
  /\ (forall k m, In (k, m) components -> always_fails m ->
                  exists err, Configure d w discoveryPrefix components = (w, Some err))
  /\ (BuilderLaws.accepting -> Valid d = None ->
      if all_marshal components (preamble d)
      then Configure d w discoveryPrefix components
           = WriteTopic topic options
                        (Bytes (inlined components (preamble d) ++ [EndObject; EndObject])) w
      else exists err,
             Configure d w discoveryPrefix components
             = (w, Some (Wrapf "configure: marshal discovery config" err))).
Proof.
  cbv zeta. split; [| split; [| split]].
  - unfold Configure. destruct (Valid d) as [err |] eqn:Hv; [left; now exists err |].
    match goal with |- context [JoinCalls ?cs []] => destruct (JoinCalls cs []) as [[x |] e] end.
    + left. eexists. reflexivity.
    + right. exists e. split; reflexivity.
  - intros err Hv. unfold Configure. now rewrite Hv.
  - intros k m Hin Hfails. unfold Configure.
    destruct (Valid d) as [err |]; [now exists err |].
    match goal with |- context [JoinCalls ?cs []] => set (calls := cs) end.
    assert (Hj : always_fails (JoinCalls calls)).
    { apply JoinCalls_always_fails with (call := MaybeInlineMarshalStd components).
      - subst calls. do 5 right. now left.
      - now apply MaybeInlineMarshalStd_always_fails with (k := k) (m := m). }
    specialize (Hj []). destruct (JoinCalls calls []) as [[x |] e]; simpl in Hj.
    + eexists. reflexivity.
    + congruence.
  - intros Haccept Hv. unfold Configure. rewrite Hv.
    unfold JoinCalls. cbn [run_all].
    unfold MarshalStd, MaybeMarshalStd, JoinCalls. cbn [run_all].
    unfold MarshalEncode, JsonMarshal_Device, JsonMarshal_Origin, encode_as.
    rewrite !(BuilderLaws.WriteToken_accepting Haccept). cbn [app].
    fold (preamble d).
    assert (Hinline : snd (MaybeInlineMarshalStd components (preamble d))
                      = inlined components (preamble d)
                      /\ (fst (MaybeInlineMarshalStd components (preamble d)) = None
                          <-> all_marshal components (preamble d) = true)).
    { unfold MaybeInlineMarshalStd. destruct components as [| entry rest].
      - cbn. intuition.
      - destruct (MaybeInlineMarshalStd_loop_accepting Haccept (entry :: rest) None
                    (preamble d)) as [Hs Hok].
        split; [exact Hs | rewrite Hok; tauto]. }
    destruct Hinline as [Hstate Hok].
    destruct (MaybeInlineMarshalStd components (preamble d)) as [r e']. cbn [fst snd] in *.
    subst e'. rewrite !(BuilderLaws.WriteToken_accepting Haccept).
    rewrite <- app_assoc. cbn [app].
    destruct (all_marshal components (preamble d)).
    + assert (Hr : r = None) by now apply Hok. subst r. reflexivity.
    + destruct r as [x |]; [| discriminate (proj1 Hok eq_refl)].
      eexists. reflexivity.
Qed.

End Publishing.
End DeviceLaws.

(** ** Routing and subscribing a component *)

Module ComponentLaws.
Import Component.

Lemma CutPrefix_app (p rest : string) : CutPrefix (p ++ rest) p = Some rest.
Proof.
  induction p as [| a p IH]; simpl; [now destruct rest |].
  now rewrite Ascii.eqb_refl.
Qed.

(** [strings.CutPrefix] succeeds exactly on the strings that start with the
    prefix, and returns what follows it. *)
Lemma CutPrefix_spec (s p rest : string) :
  CutPrefix s p = Some rest <-> s = (p ++ rest)%string.
Proof.
  split; [| intros ->; apply CutPrefix_app].
  revert s. induction p as [| a p IH]; intros s.
  - destruct s; simpl; intros Hs; now inversion Hs.
  - destruct s as [| b s]; simpl; [discriminate |].
    destruct (Ascii.eqb_spec a b) as [-> | _]; [| discriminate].
    intros Hs. now rewrite (IH s Hs).
Qed.

Section Routing.
Context `{JsonEncoder} {P W : Type} `{Platform P W}.
Implicit Types (c : Component P).

(** X15. The handler of a component passes a message on to the platform
    exactly when the message's topic starts, as a string, with the trimmed
    topic prefix of the component; the platform is then given what follows
    the prefix, trimmed.  Every other message is dropped: platform and world
    stay as they are. *)
Theorem handler_forwards_exactly_under_the_prefix c (topic : string) (payload : list byte)
    (platform : P) (w : W) :
  (forall rest, topic = (TrimTopic (TopicPrefix c) ++ rest)%string ->
                handler c topic payload platform w
                = ServeMQTT platform (TrimTopic rest) payload w)
  /\ ((forall rest, topic <> (TrimTopic (TopicPrefix c) ++ rest)%string) ->
      handler c topic payload platform w = (platform, w, [])).
Proof.
  unfold handler. split.
  - intros rest ->. now rewrite CutPrefix_app.
  - intros Hno. destruct (CutPrefix topic (TrimTopic (TopicPrefix c))) as [rest |] eqn:Hcut;
      [| reflexivity].
    apply CutPrefix_spec in Hcut. now contradiction (Hno rest).
Qed.

Section Subscriptions.
Context {S : Type} `{Subscriber S (Handler (P := P) (W := W))}.

(** X16. For a component whose platform has at least one subscription:
    [Subscribe] tracks the topics of the platform's subscriptions and hands
    the subscriptions to the transport; the topics are tracked even when the
    transport fails, so from then on [Subscribe] is refused without a
    transport call until [Unsubscribe]; [Unsubscribe] hands exactly the
    tracked topics to the transport and forgets them, whatever the transport
    answers, after which [Subscribe] reaches the transport again. *)
Theorem Subscribe_Unsubscribe_round_trip c (s : S) :
  subscribedTopics c = [] ->
  Subscriptions (ComponentPlatform c) (TopicPrefix c) <> [] ->
  let subscriptions := Subscriptions (ComponentPlatform c) (TopicPrefix c) in
  let c1 := with_subscribedTopics c (map Topic subscriptions) in
  Subscribe c s
  = (c1, fst (Mqtt.Subscribe (handler c1) subscriptions s),
     snd (Mqtt.Subscribe (handler c1) subscriptions s))
  /\ (forall s1, Subscribe c1 s1 = (c1, s1, Some (Sentinel_ ErrComponentAlreadySubscribed)))
  /\ (forall s1,
         Unsubscribe c1 s1
         = (with_subscribedTopics c [],
            fst (Mqtt.Unsubscribe (H := Handler) (map Topic subscriptions) s1),
            snd (Mqtt.Unsubscribe (H := Handler) (map Topic subscriptions) s1)))
  /\ (forall s2,
         Subscribe (with_subscribedTopics c []) s2
         = (c1, fst (Mqtt.Subscribe (handler c1) subscriptions s2),
            snd (Mqtt.Subscribe (handler c1) subscriptions s2))).
Proof.
  intros Hnone Hsubs subscriptions c1.
  assert (Htracked : subscribedTopics c1 <> []).
  { unfold c1, subscriptions. simpl.
    destruct (Subscriptions (ComponentPlatform c) (TopicPrefix c));
      [congruence | discriminate]. }
  split; [| split; [| split]].
  - unfold Subscribe. rewrite Hnone. simpl. fold subscriptions. fold c1.
    now destruct (Mqtt.Subscribe (handler c1) subscriptions s).
  - intros s1. now apply SubscribeFacts.Subscribe_refused.
  - intros s1. unfold Unsubscribe.
    change (subscribedTopics c1) with (map Topic subscriptions) in *.
    change (with_subscribedTopics c1 []) with (with_subscribedTopics c []).
    destruct (map Topic subscriptions) as [| t ts]; [congruence |].
    simpl. now destruct (Mqtt.Unsubscribe (t :: ts) s1).
  - intros s2. unfold Subscribe. simpl. fold subscriptions.
    change (with_subscribedTopics (with_subscribedTopics c []) (map Topic subscriptions))
      with c1.
    now destruct (Mqtt.Subscribe (handler c1) subscriptions s2).
Qed.

End Subscriptions.
End Routing.
End ComponentLaws.

(** ** Routing inside the light platform *)

Module LightLaws.
Import Lights TopicFacts.
Import (hints) Lights.

Lemma TrimTopic_after_separator (s : string) : TrimTopic ("/" ++ s) = TrimTopic s.
Proof.
  unfold TrimTopic. simpl.
  destruct (trimRightByte s "/"%char) as [| a r]; reflexivity.
Qed.

Lemma TrimTopic_twice (s : string) : TrimTopic (TrimTopic s) = TrimTopic s.
Proof. destruct (TrimTopic_clean s) as [Hstart Hend]. now apply TrimTopic_fixed. Qed.

Section Routing.
Context `{JsonEncoder} {W : Type}.
Context `{JsonUnmarshal string} `{JsonUnmarshal N} `{JsonUnmarshal HueSat}
        `{JsonUnmarshal XY} `{JsonUnmarshal RGB} `{JsonUnmarshal RGBW} `{JsonUnmarshal RGBWW}.

(** The expressions of the [case] clauses of [Light.ServeMQTT], in order. *)
Definition command_topics (l : Light W) : list string :=
  [RemoteValue.FullyQualifiedTopic (Command l) "";
   RemoteValue.FullyQualifiedTopic (ColorModeCommand l) "";
   RemoteValue.FullyQualifiedTopic (BrightnessCommand l) "";
   RemoteValue.FullyQualifiedTopic (ColorTemperatureCommand l) "";
   RemoteValue.FullyQualifiedTopic (HueSatCommand l) "";
   RemoteValue.FullyQualifiedTopic (XYCommand l) "";
   RemoteValue.FullyQualifiedTopic (RGBCommand l) "";
   RemoteValue.FullyQualifiedTopic (RGBWCommand l) "";
   RemoteValue.FullyQualifiedTopic (RGBWWCommand l) "";
   RemoteValue.FullyQualifiedTopic (WhiteBrightnessCommand l) "";
   RemoteValue.FullyQualifiedTopic (EffectCommand l) ""].

Lemma first_case_default (topic : string) (cases : list string) :
  ~ In topic cases -> first_case topic cases = length cases.
Proof.
  induction cases as [| k rest IH]; intros Hnot; [reflexivity |].
  simpl. destruct (String.eqb_spec topic k) as [-> | _].
  - exfalso. apply Hnot. now left.
  - rewrite IH; [reflexivity |]. intros Hin. apply Hnot. now right.
Qed.

Lemma AppendSubscribeOptions_keeps_head {T : Type} (cell : option (RemoteValue.RemoteValue T W))
    (existing : list Subscription) (prefix : string) (first : Subscription) :
  hd_error existing = Some first ->
  hd_error (RemoteValue.AppendSubscribeOptions cell existing prefix) = Some first.
Proof.
  intros Hhd. unfold RemoteValue.AppendSubscribeOptions.
  destruct cell as [cv |]; [| exact Hhd].
  destruct (String.eqb (RemoteValue.topic cv) ""); [exact Hhd |].
  destruct existing; [discriminate | exact Hhd].
Qed.

(** X17. A message whose topic is the joined topic of none of the command
    cells of a light (a nil cell counts as the empty topic) changes nothing:
    the light and the world are returned as they were and nothing is
    logged. *)
Theorem Light_ServeMQTT_ignores_unknown_topics (l : Light W) (topic : string)
    (payload : list byte) (w : W) :
  ~ In topic (command_topics l) ->
  Light_ServeMQTT l topic payload w = (l, w, []).
Proof.
  intros Hnot. unfold Light_ServeMQTT.
  change (first_case topic _) with (first_case topic (command_topics l)).
  rewrite (first_case_default topic (command_topics l) Hnot).
  destruct l. reflexivity.
Qed.

(** X18. End to end, for a light component whose topic prefix and whose
    command-cell topic are both kept by [JoinTopic]: the command cell is
    subscribed under the joined topic, and a message on that topic reaches
    the command cell through the component's handler as a message on the
    trimmed cell topic, other cells being left alone.  So a cell whose
    configured topic already is in trimmed form takes the message like a
    direct delivery; a cell configured with a separator at either end of its
    topic is subscribed but drops every message. *)
Theorem Light_command_message_end_to_end (c : Component.Component (Light W))
    (cell : RemoteValue.RemoteValue PowerState W) (payload : list byte) (w : W) :
  let l := Component.ComponentPlatform c in
  let p := Component.TopicPrefix c in
  let t := RemoteValue.topic cell in
  Command l = Some cell ->
  p <> "" -> p <> "/" -> t <> "" -> t <> "/" ->
  let served := RemoteValue.ServeMQTT_locked cell (TrimTopic t) payload w in
  let routed := Component.handler c (JoinTopic [p; t]) payload l w in
  hd_error (map Topic (Light_Subscriptions l p)) = Some (JoinTopic [p; t])
  /\ Command (fst (fst routed)) = Some (fst (fst served))
  /\ snd (fst routed) = snd (fst served)
  /\ (TrimTopic t = t ->
      served = RemoteValue.ServeMQTT_locked cell (RemoteValue.topic cell) payload w)
  /\ (TrimTopic t <> t -> served = (cell, w, [])).
Proof.
  intros l p t Hcmd Hp Hp' Ht Ht' served routed.
  assert (Hkept_t : String.eqb t "" || String.eqb t "/" = false).
  { apply orb_false_iff. split; now apply String.eqb_neq. }
  assert (Hkept_p : String.eqb p "" || String.eqb p "/" = false).
  { apply orb_false_iff. split; now apply String.eqb_neq. }
  assert (Hjoin : JoinTopic [p; t] = (TrimTopic p ++ ("/" ++ TrimTopic t))%string).
  { rewrite TopicLaws.JoinTopic_pair, Hkept_p, Hkept_t. apply append_assoc. }
  assert (Hbare : JoinTopic [""; t] = TrimTopic t).
  { rewrite TopicLaws.JoinTopic_pair, Hkept_t. reflexivity. }
  split; [| split; [| split; [| split]]].
  - assert (Hhd : hd_error (Light_Subscriptions l p)
                  = Some {| Topic := JoinTopic [p; t]; Options := RemoteValue.opts cell |}).
    { unfold Light_Subscriptions. cbv zeta.
      do 10 apply AppendSubscribeOptions_keeps_head.
      rewrite Hcmd. unfold RemoteValue.AppendSubscribeOptions. fold t.
      apply String.eqb_neq in Ht. now rewrite Ht. }
    destruct (Light_Subscriptions l p) as [| first rest]; [discriminate |].
    simpl in *. now inversion Hhd.
  - unfold routed, Component.handler. fold p. rewrite Hjoin, ComponentLaws.CutPrefix_app.
    rewrite TrimTopic_after_separator.
    rewrite (TrimTopic_twice t).
    change (Command (fst (fst (Light_ServeMQTT l (TrimTopic t) payload w)))
            = Some (fst (fst served))).
    unfold Light_ServeMQTT. rewrite Hcmd.
    change (RemoteValue.FullyQualifiedTopic (Some cell) "") with (JoinTopic [""; t]).
    rewrite Hbare. simpl first_case. rewrite String.eqb_refl.
    unfold case_body. simpl Nat.eqb. cbv iota.
    unfold RemoteValue.ServeMQTT. fold served.
    destruct served as [[cell' w'] logged]. reflexivity.
  - unfold routed, Component.handler. fold p. rewrite Hjoin, ComponentLaws.CutPrefix_app.
    rewrite TrimTopic_after_separator.
    rewrite (TrimTopic_twice t).
    change (snd (fst (Light_ServeMQTT l (TrimTopic t) payload w)) = snd (fst served)).
    unfold Light_ServeMQTT. rewrite Hcmd.
    change (RemoteValue.FullyQualifiedTopic (Some cell) "") with (JoinTopic [""; t]).
    rewrite Hbare. simpl first_case. rewrite String.eqb_refl.
    unfold case_body. simpl Nat.eqb. cbv iota.
    unfold RemoteValue.ServeMQTT. fold served.
    destruct served as [[cell' w'] logged]. reflexivity.
  - intros Hfix. unfold served. now rewrite Hfix.
  - intros Hne. unfold served.
    apply RemoteValueFacts.ServeMQTT_locked_other_topic. exact Hne.
Qed.

End Routing.
End LightLaws.

Set Implicit Arguments.

(** * Codecs

    ** [strconv] and [strings], as the codecs use them

    [Itoa] prints a number in decimal, with a minus sign when negative.
    [ParseUint] is the base-10 loop of the library: it stops with a syntax
    error (and 0) at the first byte that is no digit, and with a range error
    (and the largest value of the bit size) as soon as the number read so far
    no longer fits. *)

Module Strconv.

Definition ErrSyntax : error := Foreign "strconv.ParseUint: invalid syntax".
Definition ErrRange : error := Foreign "strconv.ParseUint: value out of range".

Definition digit_char (d : N) : ascii :=
  match d with
  | 0%N => "0" | 1%N => "1" | 2%N => "2" | 3%N => "3" | 4%N => "4"
  | 5%N => "5" | 6%N => "6" | 7%N => "7" | 8%N => "8" | _ => "9"
  end%char.

Definition digit_value (c : ascii) : option N :=
  if Ascii.eqb c "0" then Some 0%N
  else if Ascii.eqb c "1" then Some 1%N
  else if Ascii.eqb c "2" then Some 2%N
  else if Ascii.eqb c "3" then Some 3%N
  else if Ascii.eqb c "4" then Some 4%N
  else if Ascii.eqb c "5" then Some 5%N
  else if Ascii.eqb c "6" then Some 6%N
  else if Ascii.eqb c "7" then Some 7%N
  else if Ascii.eqb c "8" then Some 8%N
  else if Ascii.eqb c "9" then Some 9%N
  else None.

(** The decimal digits of [n], most significant first; [fuel] bounds their
    number. *)
Fixpoint decimal_digits (fuel : nat) (n : N) : string :=
  match fuel with
  | O => EmptyString
  | S fuel' =>
      if (n <? 10)%N then String (digit_char n) EmptyString
      else (decimal_digits fuel' (n / 10) ++ String (digit_char (n mod 10)) EmptyString)%string
  end.

Definition decimal (n : N) : string := decimal_digits (S (N.to_nat (N.log2 n))) n.

(** [strconv.Itoa], also [%d] of [fmt.Sprintf]. *)
Definition Itoa (z : Z) : string :=
  if (z <? 0)%Z then String "-" (decimal (Z.to_N (- z))) else decimal (Z.to_N z).

(** [maxUint64/10 + 1] *)
Definition cutoff : N := 1844674407370955162%N.

Fixpoint ParseUint_loop (maxVal n : N) (s : string) : N * option error :=
  match s with
  | EmptyString => (n, None)
  | String c rest =>
      match digit_value c with
      | None => (0%N, Some ErrSyntax)
      | Some d =>
          if (cutoff <=? n)%N then (maxVal, Some ErrRange)
          else
            let n := (n * 10)%N in
            let n1 := ((n + d) mod 2 ^ 64)%N in
            if (n1 <? n)%N || (maxVal <? n1)%N then (maxVal, Some ErrRange)
            else ParseUint_loop maxVal n1 rest
      end
  end.

(** [strconv.ParseUint(s, 10, bitSize)] *)
Definition ParseUint (s : string) (bitSize : N) : N * option error :=
  match s with
  | EmptyString => (0%N, Some ErrSyntax)
  | _ => ParseUint_loop (2 ^ bitSize - 1) 0 s
  end.

(** [strings.Split(s, sep)] for a one-byte separator. *)
Fixpoint Split (s : string) (sep : ascii) : list string :=
  match s with
  | EmptyString => [EmptyString]
  | String c rest =>
      if Ascii.eqb c sep then EmptyString :: Split rest sep
      else match Split rest sep with
           | [] => [String c EmptyString]
           | part :: parts => String c part :: parts
           end
  end.

End Strconv.
Import Strconv.

(** ** The codecs of packages [mqtt] and [platform]

    [uint] is taken to be 64 bits wide. *)

Module Codec.
Import Lights.

(** [int(v)] of a [uint]. *)
Definition int_of_uint (v : N) : Z :=
  if (v <? 2 ^ 63)%N then Z.of_N v else (Z.of_N v - 2 ^ 64)%Z.

Definition UintMarshaler : ValueMarshaler N :=
  fun v => (list_byte_of_string (Itoa (int_of_uint v)), None).

Definition UintUnmarshaler : ValueUnmarshaler N :=
  fun bytes => ParseUint (string_of_list_byte bytes) 64.

(** [fmt.Sprintf("%d,%d,%d", v.R, v.G, v.B)] *)
Definition RGBMarshaler : ValueMarshaler RGB :=
  fun v =>
    (list_byte_of_string
       (Itoa (Z.of_N (R v)) ++ "," ++ Itoa (Z.of_N (G v)) ++ "," ++ Itoa (Z.of_N (B v)))%string,
     None).

Definition RGBUnmarshaler : ValueUnmarshaler RGB :=
  fun bytes =>
    match Split (string_of_list_byte bytes) ","%char with
    | [part0; part1; part2] =>
        let (r, errR) := ParseUint part0 8 in
        let (g, errG) := ParseUint part1 8 in
        let (b, errB) := ParseUint part2 8 in
        ({| R := r; G := g; B := b |}, Join [errR; errG; errB])
    | _ =>
        (zero,
         Some (Foreign ("invalid RGB representation: " ++ string_of_list_byte bytes)%string))
    end.

End Codec.

Unset Implicit Arguments.

(** ** Decimal strings *)

Module DecimalFacts.
Local Open Scope N_scope.

(** The number a string of digits denotes, continuing from [acc]; none when
    some byte is no digit. *)
Fixpoint digits_value (acc : N) (s : string) : option N :=
  match s with
  | EmptyString => Some acc
  | String c rest =>
      match digit_value c with
      | Some d => digits_value (acc * 10 + d) rest
      | None => None
      end
  end.

Fixpoint contains (sep : ascii) (s : string) : bool :=
  match s with
  | EmptyString => false
  | String c rest => Ascii.eqb c sep || contains sep rest
  end.

Lemma digit_value_char (d : N) : d < 10 -> digit_value (digit_char d) = Some d.
Proof.
  intros Hd.
  assert (Hcases : d = 0 \/ d = 1 \/ d = 2 \/ d = 3 \/ d = 4
                   \/ d = 5 \/ d = 6 \/ d = 7 \/ d = 8 \/ d = 9) by lia.
  repeat (destruct Hcases as [-> | Hcases]; [reflexivity |]). now subst.
Qed.

Lemma digit_value_bound (c : ascii) (d : N) : digit_value c = Some d -> d < 10.
Proof.
  unfold digit_value.
  repeat match goal with
         | |- context [Ascii.eqb c ?x] => destruct (Ascii.eqb c x)
         end; intros Hd; inversion Hd; lia.
Qed.

Lemma digit_value_not (sep : ascii) (c : ascii) (d : N) :
  digit_value sep = None -> digit_value c = Some d -> Ascii.eqb c sep = false.
Proof.
  intros Hsep Hc. destruct (Ascii.eqb_spec c sep) as [-> | _]; [congruence | reflexivity].
Qed.

Lemma digits_value_snoc (s : string) : forall (acc : N) (c : ascii),
  digits_value acc (s ++ String c EmptyString)
  = match digits_value acc s with
    | Some m => match digit_value c with Some d => Some (m * 10 + d) | None => None end
    | None => None
    end.
Proof.
  induction s as [| a s IH]; intros acc c; simpl.
  - now destruct (digit_value c).
  - destruct (digit_value a); [apply IH | reflexivity].
Qed.

Lemma digits_value_ge (s : string) : forall acc t, digits_value acc s = Some t -> acc <= t.
Proof.
  induction s as [| c s IH]; intros acc t; simpl.
  - intros Ht. inversion Ht. lia.
  - destruct (digit_value c) as [d |]; [| discriminate].
    intros Ht. apply IH in Ht. lia.
Qed.

Lemma digits_value_no_separator (sep : ascii) (s : string) : forall acc t,
  digit_value sep = None -> digits_value acc s = Some t -> contains sep s = false.
Proof.
  induction s as [| c s IH]; intros acc t Hsep; simpl; [reflexivity |].
  destruct (digit_value c) as [d |] eqn:Hc; [| discriminate].
  intros Ht. rewrite (digit_value_not sep c d Hsep Hc). simpl. now apply IH in Ht.
Qed.

Lemma decimal_digits_value (fuel : nat) : forall n,
  n < 2 ^ N.of_nat fuel -> fuel <> O ->
  digits_value 0 (decimal_digits fuel n) = Some n
  /\ decimal_digits fuel n <> EmptyString.
Proof.
  induction fuel as [| fuel IH]; intros n Hn Hfuel; [congruence |].
  simpl. destruct (N.ltb_spec n 10) as [Hlt | Hge].
  - simpl. rewrite (digit_value_char n Hlt). split; [reflexivity | discriminate].
  - assert (Hpow : 2 ^ N.of_nat (S fuel) = 2 * 2 ^ N.of_nat fuel).
    { rewrite Nat2N.inj_succ. apply N.pow_succ_r'. }
    assert (Hdiv : n / 10 < 2 ^ N.of_nat fuel).
    { apply N.Div0.div_lt_upper_bound. lia. }
    assert (Hf : fuel <> O).
    { intros ->. simpl in Hn. lia. }
    destruct (IH (n / 10) Hdiv Hf) as [Hv _].
    rewrite digits_value_snoc, Hv.
    rewrite digit_value_char by (apply N.mod_lt; lia).
    split.
    + f_equal. pose proof (N.div_mod n 10). lia.
    + destruct (decimal_digits fuel (n / 10)); discriminate.
Qed.

(** The decimal string of a number denotes that number. *)
Lemma decimal_value (n : N) :
  digits_value 0 (decimal n) = Some n /\ decimal n <> EmptyString.
Proof.
  unfold decimal. apply decimal_digits_value; [| discriminate].
  rewrite Nat2N.inj_succ, N2Nat.id.
  destruct n as [| p]; [reflexivity |].
  apply N.log2_spec. lia.
Qed.

Lemma mod_2_64_small (x : N) : x < 2 ^ 64 -> x mod 2 ^ 64 = x.
Proof. apply N.mod_small. Qed.

Lemma mod_2_64_wrapped (x : N) : 2 ^ 64 <= x < 2 * 2 ^ 64 -> x mod 2 ^ 64 = x - 2 ^ 64.
Proof.
  intros Hx. symmetry. apply (N.mod_unique x (2 ^ 64) 1); lia.
Qed.

(** The loop reads a digit string whose number fits. *)
Lemma ParseUint_loop_reads (maxVal : N) (s : string) : forall acc t,
  maxVal < 2 ^ 64 -> digits_value acc s = Some t -> t <= maxVal ->
  ParseUint_loop maxVal acc s = (t, None).
Proof.
  assert (Hword : 2 ^ 64 = 18446744073709551616) by reflexivity.
  induction s as [| c s IH]; intros acc t Hmax Ht Hfit;
    cbn [ParseUint_loop digits_value] in *.
  - now inversion Ht.
  - destruct (digit_value c) as [d |] eqn:Hc; [| discriminate].
    pose proof (digit_value_bound c d Hc) as Hd.
    pose proof (digits_value_ge s _ _ Ht) as Hge.
    assert (Hsmall : acc * 10 + d < 2 ^ 64) by lia.
    unfold cutoff.
    destruct (N.leb_spec 1844674407370955162 acc) as [Hcut | _]; [lia |].
    rewrite (N.mod_small _ _ Hsmall).
    destruct (N.ltb_spec (acc * 10 + d) (acc * 10)) as [Hw | _]; [lia |].
    destruct (N.ltb_spec maxVal (acc * 10 + d)) as [Hover | _]; [lia |].
    cbn [orb]. now apply IH.
Qed.

(** And whenever the loop ends without an error, that is what it read. *)
Lemma ParseUint_loop_accepts (maxVal : N) (s : string) : forall acc t,
  acc <= maxVal -> ParseUint_loop maxVal acc s = (t, None) ->
  digits_value acc s = Some t /\ t <= maxVal.
Proof.
  assert (Hword : 2 ^ 64 = 18446744073709551616) by reflexivity.
  induction s as [| c s IH]; intros acc t Hacc; cbn [ParseUint_loop digits_value].
  - intros Ht. inversion Ht. subst. now split.
  - destruct (digit_value c) as [d |] eqn:Hc; [| discriminate].
    pose proof (digit_value_bound c d Hc) as Hd.
    unfold cutoff.
    destruct (N.leb_spec 1844674407370955162 acc) as [_ | Hcut]; [discriminate |].
    destruct (N.ltb_spec ((acc * 10 + d) mod 2 ^ 64) (acc * 10)) as [_ | Hw];
      [discriminate |].
    destruct (N.ltb_spec maxVal ((acc * 10 + d) mod 2 ^ 64)) as [_ | Hover];
      [discriminate |].
    cbn [orb]. intros Ht.
    assert (Hsmall : acc * 10 + d < 2 ^ 64).
    { destruct (N.lt_ge_cases (acc * 10 + d) (2 ^ 64)) as [Hlt | Hge]; [exact Hlt |].
      exfalso. rewrite mod_2_64_wrapped in Hw by lia. lia. }
    rewrite (N.mod_small _ _ Hsmall) in *.
    now apply IH.
Qed.

(** What [ParseUint] accepts: the non-empty digit strings whose number fits
    the bit size. *)
Lemma ParseUint_accepts_iff (s : string) (bitSize n : N) :
  bitSize <= 64 ->
  ParseUint s bitSize = (n, None)
  <-> s <> EmptyString /\ digits_value 0 s = Some n /\ n <= 2 ^ bitSize - 1.
Proof.
  intros Hbits.
  assert (Hmax : 2 ^ bitSize - 1 < 2 ^ 64).
  { assert (2 ^ bitSize <= 2 ^ 64) by (apply N.pow_le_mono_r; lia).
    assert (0 < 2 ^ bitSize) by (apply N.neq_0_lt_0, N.pow_nonzero; lia).
    lia. }
  unfold ParseUint. destruct s as [| c s].
  - split; [discriminate | intros [Hne _]; congruence].
  - split.
    + intros Hp. apply ParseUint_loop_accepts in Hp; [| lia].
      destruct Hp as [Hv Hfit]. split; [discriminate | now split].
    + intros (_ & Hv & Hfit). now apply ParseUint_loop_reads.
Qed.

Lemma Split_without_separator (sep : ascii) (s : string) :
  contains sep s = false -> Split s sep = [s].
Proof.
  induction s as [| c s IH]; [reflexivity |].
  simpl. intros Hc. apply orb_false_iff in Hc. destruct Hc as [Hc Hs].
  now rewrite Hc, (IH Hs).
Qed.

Lemma Split_at_separator (sep : ascii) (a b : string) :
  contains sep a = false -> Split (a ++ String sep b) sep = a :: Split b sep.
Proof.
  induction a as [| c a IH]; simpl.
  - intros _. now rewrite Ascii.eqb_refl.
  - intros Hc. apply orb_false_iff in Hc. destruct Hc as [Hc Ha].
    now rewrite Hc, (IH Ha).
Qed.

End DecimalFacts.

(** ** The codecs: round trips and what is accepted *)

Module CodecLaws.
Import Lights Codec DecimalFacts.
Local Open Scope N_scope.

(** A colour channel as [RGBUnmarshaler] reads it: a non-empty string of
    digits that denotes a number up to 255. *)
Definition channel (part : string) (n : N) : Prop :=
  part <> EmptyString /\ digits_value 0 part = Some n /\ n <= 255.

Lemma Itoa_of_N (n : N) : Itoa (Z.of_N n) = decimal n.
Proof.
  unfold Itoa. destruct (Z.ltb_spec (Z.of_N n) 0) as [Hneg | _]; [lia |].
  now rewrite N2Z.id.
Qed.

Lemma ParseUint_decimal (n bitSize : N) :
  bitSize <= 64 -> n <= 2 ^ bitSize - 1 -> ParseUint (decimal n) bitSize = (n, None).
Proof.
  intros Hbits Hn. apply ParseUint_accepts_iff; [exact Hbits |].
  destruct (decimal_value n) as [Hv Hne]. now repeat split.
Qed.

Lemma decimal_no_comma (n : N) : contains "," (decimal n) = false.
Proof.
  destruct (decimal_value n) as [Hv _].
  now apply (digits_value_no_separator "," (decimal n) 0 n).
Qed.

Lemma Split_not_empty (sep : ascii) (s : string) : Split s sep <> [].
Proof.
  destruct s as [| c s]; simpl; [discriminate |].
  destruct (Ascii.eqb c sep); [discriminate |].
  destruct (Split s sep); discriminate.
Qed.

(** The parts [Split] returns, joined again by the separator. *)
Fixpoint joined_by (sep : ascii) (parts : list string) : string :=
  match parts with
  | [] => EmptyString
  | [part] => part
  | part :: rest => (part ++ String sep (joined_by sep rest))%string
  end.

Lemma Split_joined_by (sep : ascii) (s : string) : joined_by sep (Split s sep) = s.
Proof.
  induction s as [| c s IH]; [reflexivity |].
  simpl. pose proof (Split_not_empty sep s) as Hne.
  destruct (Ascii.eqb_spec c sep) as [-> | _].
  - destruct (Split s sep) as [| part parts]; [congruence |].
    cbn [joined_by append]. cbn [joined_by] in IH. now rewrite IH.
  - destruct (Split s sep) as [| part parts]; [congruence |].
    destruct parts as [| part' parts]; cbn [joined_by append] in *; now rewrite IH.
Qed.

Lemma Join_three_none (a b c : option error) :
  Join [a; b; c] = None -> a = None /\ b = None /\ c = None.
Proof. destruct a, b, c; try discriminate. now repeat split. Qed.

(** X19.  [UintMarshaler] followed by [UintUnmarshaler] gives the number back
    only in the lower half of the range of [uint]: from [2^63] on, [int(v)]
    is negative, the marshaler writes a minus sign, and the unmarshaler
    answers a syntax error and the value 0. *)
Theorem Uint_codec_round_trip_only_below_2_63 (v : N) :
  v < 2 ^ 64 ->
  UintUnmarshaler (fst (UintMarshaler v))
  = if v <? 2 ^ 63 then (v, None) else (0, Some ErrSyntax).
Proof.
  intros Hv. unfold UintUnmarshaler, UintMarshaler, int_of_uint. cbn [fst].
  rewrite string_of_list_byte_of_string.
  assert (H63 : 2 ^ 63 = 9223372036854775808) by reflexivity.
  assert (H64 : 2 ^ 64 = 18446744073709551616) by reflexivity.
  destruct (N.ltb_spec v (2 ^ 63)) as [Hlow | Hhigh].
  - rewrite Itoa_of_N. apply ParseUint_decimal; lia.
  - unfold Itoa.
    destruct (Z.ltb_spec (Z.of_N v - 2 ^ 64) 0) as [_ | Hpos]; [reflexivity |].
    exfalso. change (2 ^ 64)%Z with (Z.of_N (2 ^ 64)) in Hpos. lia.
Qed.

(** X20.  [RGBMarshaler] followed by [RGBUnmarshaler] gives every colour of
    8-bit channels back, without an error. *)
Theorem RGB_codec_round_trip (v : RGB) :
  R v <= 255 -> G v <= 255 -> B v <= 255 ->
  RGBUnmarshaler (fst (RGBMarshaler v)) = (v, None).
Proof.
  destruct v as [r g b]. cbn [R G B]. intros Hr Hg Hb.
  unfold RGBUnmarshaler, RGBMarshaler. cbn [fst R G B].
  rewrite string_of_list_byte_of_string, !Itoa_of_N.
  change (decimal r ++ "," ++ decimal g ++ "," ++ decimal b)%string
    with (decimal r ++ String "," (decimal g ++ String "," (decimal b)))%string.
  rewrite (Split_at_separator _ _ _ (decimal_no_comma r)).
  rewrite (Split_at_separator _ _ _ (decimal_no_comma g)).
  rewrite (Split_without_separator _ _ (decimal_no_comma b)).
  rewrite !ParseUint_decimal by (change (2 ^ 8 - 1) with 255; lia).
  reflexivity.
Qed.

(** X21.  What [RGBUnmarshaler] accepts: exactly the payloads made of three
    comma-separated channels, each a non-empty string of digits denoting at
    most 255 (leading zeros allowed; no sign, no blank); the colour returned
    has those three numbers. *)
Theorem RGBUnmarshaler_accepts_iff (bytes : list byte) (v : RGB) :
  RGBUnmarshaler bytes = (v, None)
  <-> exists part0 part1 part2,
        string_of_list_byte bytes = (part0 ++ "," ++ part1 ++ "," ++ part2)%string
        /\ channel part0 (R v) /\ channel part1 (G v) /\ channel part2 (B v).
Proof.
  unfold RGBUnmarshaler, channel. split.
  - pose proof (Split_joined_by "," (string_of_list_byte bytes)) as Hjoin.
    destruct (Split (string_of_list_byte bytes) ",") as [| p0 [| p1 [| p2 [| p3 rest]]]];
      try discriminate.
    destruct (ParseUint p0 8) as [r errR] eqn:Hp0.
    destruct (ParseUint p1 8) as [g errG] eqn:Hp1.
    destruct (ParseUint p2 8) as [b errB] eqn:Hp2.
    intros Hres. inversion Hres as [[Hv Herr]].
    apply Join_three_none in Herr. destruct Herr as (-> & -> & ->).
    apply ParseUint_accepts_iff in Hp0; [| lia].
    apply ParseUint_accepts_iff in Hp1; [| lia].
    apply ParseUint_accepts_iff in Hp2; [| lia].
    exists p0, p1, p2. cbn [R G B]. cbn [joined_by] in Hjoin.
    split; [symmetry; exact Hjoin |]. now repeat split.
  - intros (p0 & p1 & p2 & Hs & (Hne0 & Hv0 & Hb0) & (Hne1 & Hv1 & Hb1) & (Hne2 & Hv2 & Hb2)).
    rewrite Hs.
    change (p0 ++ "," ++ p1 ++ "," ++ p2)%string
      with (p0 ++ String "," (p1 ++ String "," p2))%string.
    assert (Hcomma : digit_value "," = None) by reflexivity.
    rewrite (Split_at_separator _ _ _ (digits_value_no_separator _ _ _ _ Hcomma Hv0)).
    rewrite (Split_at_separator _ _ _ (digits_value_no_separator _ _ _ _ Hcomma Hv1)).
    rewrite (Split_without_separator _ _ (digits_value_no_separator _ _ _ _ Hcomma Hv2)).
    assert (Hp : forall p n, p <> EmptyString -> digits_value 0 p = Some n -> n <= 255 ->
                             ParseUint p 8 = (n, None)).
    { intros p n Hne Hval Hfit. apply ParseUint_accepts_iff; [lia |]. now repeat split. }
    rewrite (Hp _ _ Hne0 Hv0 Hb0), (Hp _ _ Hne1 Hv1 Hb1), (Hp _ _ Hne2 Hv2 Hb2).
    destruct v as [r g b]. reflexivity.
Qed.

End CodecLaws.

(** ** Package mqtt/adapter/autopaho

    The adapter keeps a Go map from topic to subscribe options and a paho
    router.  The map is an association list without repeated keys; the order
    of that list carries no meaning, and [range] visits the entries in an
    order of its own ([visit]).  The connection manager and what it answers
    are outside the repository ([Connection]).  Of the router only the
    registrations are kept: the adapter never asks it anything else.  The
    debug lines of [Subscribe] and [Unsubscribe] are not kept. *)

Set Implicit Arguments.

Module Paho.

Record SubscribeOptions : Type := {
  Topic : string;
  QoS : N;
  RetainHandling : N;
  NoLocal : bool;
  RetainAsPublished : bool
}.

Record Publish : Type := {
  PublishQoS : N;
  PublishRetain : bool;
  PublishTopic : string;
  Payload : list byte
}.

(** [*autopaho.ConnectionManager], over its state [C]. *)
Class Connection (C : Type) : Type := {
  conn_Subscribe : list SubscribeOptions -> C -> C * option error;
  conn_Unsubscribe : list string -> C -> C * option error;
  conn_Publish : Publish -> C -> C * option error
}.

End Paho.

Module Autopaho.
Import Paho.

Definition GoMap : Type := list (string * SubscribeOptions).

(** [delete(m, k)] and [m[k] = v] *)
Definition map_delete (k : string) (m : GoMap) : GoMap :=
  filter (fun entry => negb (String.eqb (fst entry) k)) m.

Definition map_set (k : string) (v : SubscribeOptions) (m : GoMap) : GoMap :=
  map_delete k m ++ [(k, v)].

(** The order in which [range] visits a map. *)
Class MapRange : Type := {
  visit : GoMap -> GoMap;
  visit_permutation : forall m, Permutation (visit m) m
}.

Section Adapter.
Context {C H : Type} `{Connection C} `{MapRange}.

Record adapter : Type := {
  conn : C;
  r : list (string * H);
  subscriptions : GoMap
}.

Definition with_conn (a : adapter) (c : C) : adapter :=
  {| conn := c; r := r a; subscriptions := subscriptions a |}.

(** The adapter [DialMQTT] returns around a connection it has made. *)
Definition dialed (c : C) : adapter := {| conn := c; r := []; subscriptions := [] |}.

Definition options_of (s : Subscription) : SubscribeOptions :=
  {| Topic := Mqtt.Topic s;
     QoS := ReadQoS (Options s);
     RetainHandling := Mqtt.RetainHandling (Options s);
     NoLocal := Mqtt.NoLocal (Options s);
     RetainAsPublished := Mqtt.RetainAsPublished (Options s) |}.

(** One turn of the loop of [Subscribe]. *)
Definition register (handler : H) (a : adapter) (s : Subscription) : adapter :=
  {| conn := conn a;
     r := r a ++ [(Mqtt.Topic s, handler)];
     subscriptions := map_set (Mqtt.Topic s) (options_of s) (subscriptions a) |}.

Definition Subscribe (handler : H) (subs : list Subscription) (a : adapter)
    : adapter * option error :=
  match subs with
  | [] => (a, None)
  | _ =>
      let a := fold_left (register handler) subs a in
      let (c, err) := conn_Subscribe (map options_of subs) (conn a) in
      (with_conn a c, err)
  end.

Definition Unsubscribe (topics : list string) (a : adapter) : adapter * option error :=
  let m := fold_left (fun m t => map_delete t m) topics (subscriptions a) in
  let (c, err) := conn_Unsubscribe topics (conn a) in
  ({| conn := c; r := r a; subscriptions := m |}, err).

(** [onReconnect]: the adapter and what it logs; the error of the broker
    goes to the log only. *)
Definition onReconnect (a : adapter) : adapter * list LogRecord :=
  match subscriptions a with
  | [] => (a, [])
  | _ =>
      let (c, err) := conn_Subscribe (map snd (visit (subscriptions a))) (conn a) in
      (with_conn a c,
       (LevelDebug, "Reconnected to MQTT. Re-sending subscriptions.")
       :: match err with
          | Some _ => [(LevelError, "Failed to re-subscribe to mqtt topics")]
          | None => []
          end)
  end.

Definition adapter_WriteTopic (topic : string) (options : WriteOptions) (value : list byte)
    (a : adapter) : adapter * option error :=
  let (c, err) :=
    conn_Publish {| PublishQoS := Mqtt.QoS options; PublishRetain := Retain options;
                    PublishTopic := topic; Payload := value |} (conn a) in
  (with_conn a c, err).

End Adapter.
Arguments adapter C H : clear implicits.

#[export] Instance Writer_adapter {C H : Type} `{Connection C} : Writer (adapter C H) :=
  adapter_WriteTopic.

#[export] Instance Subscriber_adapter {C H : Type} `{Connection C}
  : Subscriber (adapter C H) H :=
  {| Mqtt.Subscribe := Subscribe; Mqtt.Unsubscribe := Unsubscribe |}.

End Autopaho.

Unset Implicit Arguments.

(** ** The adapter over a history of calls *)

Module AdapterLaws.
Import Paho Autopaho.

Section History.
Context {C H : Type} `{Connection C} `{MapRange}.
Implicit Types (a : adapter C H) (m : GoMap) (t k : string).

(** The topics the adapter will subscribe to again after a reconnect. *)
Definition tracked a : list string := map fst (subscriptions a).

(** The topics the router has a handler for. *)
Definition routed a : list string := map fst (r a).

Lemma map_delete_keys k m t :
  In t (map fst (map_delete k m)) <-> In t (map fst m) /\ t <> k.
Proof.
  unfold map_delete. rewrite !in_map_iff. split.
  - intros ([t' o] & <- & Hin). apply filter_In in Hin. destruct Hin as [Hin Hk].
    simpl in *. split; [exists (t', o); now split |].
    intros ->. now rewrite String.eqb_refl in Hk.
  - intros [([t' o] & <- & Hin) Hne]. exists (t', o). split; [reflexivity |].
    apply filter_In. split; [exact Hin |]. simpl in *.
    destruct (String.eqb_spec t' k); [contradiction | reflexivity].
Qed.

Lemma map_set_keys k o m t :
  In t (map fst (map_set k o m)) <-> In t (map fst m) \/ t = k.
Proof.
  unfold map_set. rewrite map_app, in_app_iff, map_delete_keys. simpl.
  destruct (string_dec t k) as [-> | Hne]; intuition congruence.
Qed.

Lemma map_delete_NoDup k m : NoDup (map fst m) -> NoDup (map fst (map_delete k m)).
Proof.
  unfold map_delete. induction m as [| [t o] m IH]; cbn [map filter fst]; [trivial |].
  intros Hkeys. apply NoDup_cons_iff in Hkeys. destruct Hkeys as [Hfresh Hrest].
  destruct (String.eqb t k); cbn [negb]; [now apply IH |].
  cbn [map fst]. apply NoDup_cons; [| now apply IH].
  intros Hin. apply Hfresh. apply (map_delete_keys k m t) in Hin. now destruct Hin.
Qed.

(** A map as Go has it: no key twice, and here every entry filed under the
    topic its options carry. *)
Definition well_keyed m : Prop :=
  NoDup (map fst m) /\ Forall (fun entry => Topic (snd entry) = fst entry) m.

Lemma map_delete_well_keyed k m : well_keyed m -> well_keyed (map_delete k m).
Proof.
  intros [Hnd Hall]. split; [now apply map_delete_NoDup |].
  rewrite Forall_forall in *. intros e He. apply filter_In in He. now apply Hall.
Qed.

Lemma map_set_well_keyed k o m : Topic o = k -> well_keyed m -> well_keyed (map_set k o m).
Proof.
  intros Ho Hm. destruct (map_delete_well_keyed k m Hm) as [Hnd Hall]. split.
  - unfold map_set. rewrite map_app. apply NoDup_app; [exact Hnd | |].
    + simpl. constructor; [intros [] | constructor].
    + intros t Hin [<- | []]. apply map_delete_keys in Hin. now destruct Hin.
  - unfold map_set. apply Forall_app. split; [exact Hall |].
    constructor; [exact Ho | constructor].
Qed.

Lemma register_all handler (subs : list Subscription) : forall a,
  let a' := fold_left (register handler) subs a in
  conn a' = conn a
  /\ r a' = r a ++ map (fun s => (Mqtt.Topic s, handler)) subs
  /\ (forall t, In t (tracked a') <-> In t (tracked a) \/ In t (map Mqtt.Topic subs))
  /\ (well_keyed (subscriptions a) -> well_keyed (subscriptions a'))
  /\ (forall o, In o (map snd (subscriptions a')) ->
                In o (map snd (subscriptions a)) \/ In o (map options_of subs)).
Proof.
  induction subs as [| s subs IH]; intros a; cbn [fold_left map].
  - rewrite app_nil_r.
    split; [reflexivity |]. split; [reflexivity |]. split; [| split].
    + intros t. cbn [In]. tauto.
    + trivial.
    + intros o Ho. now left.
  - destruct (IH (register handler a s)) as (Hconn & Hr & Htracked & Hkeyed & Hopts).
    split; [exact Hconn |]. split; [| split; [| split]].
    + rewrite Hr. cbn [register r]. now rewrite <- app_assoc.
    + intros t. rewrite Htracked. unfold tracked.
      cbn [register subscriptions In]. rewrite map_set_keys.
      intuition congruence.
    + intros Hm. apply Hkeyed. cbn [register subscriptions].
      now apply map_set_well_keyed.
    + intros o Ho. apply Hopts in Ho. cbn [In]. destruct Ho as [Ho | Ho]; [| tauto].
      cbn [register subscriptions] in Ho. unfold map_set in Ho.
      rewrite map_app, in_app_iff in Ho. destruct Ho as [Ho | [<- | []]]; [| tauto].
      left. apply in_map_iff in Ho. destruct Ho as (e & <- & He).
      apply filter_In in He. apply in_map. now destruct He.
Qed.

Lemma delete_all (topics : list string) : forall m,
  let m' := fold_left (fun m t => map_delete t m) topics m in
  (forall t, In t (map fst m') <-> In t (map fst m) /\ ~ In t topics)
  /\ (well_keyed m -> well_keyed m')
  /\ (forall o, In o (map snd m') -> In o (map snd m)).
Proof.
  induction topics as [| k topics IH]; intros m; cbn [fold_left].
  - split; [| split].
    + intros t. cbn [In]. tauto.
    + trivial.
    + trivial.
  - destruct (IH (map_delete k m)) as (Hkeys & Hkeyed & Hopts).
    split; [| split].
    + intros t. rewrite Hkeys, map_delete_keys. cbn [In]. intuition congruence.
    + intros Hm. now apply Hkeyed, map_delete_well_keyed.
    + intros o Ho. apply Hopts in Ho. apply in_map_iff in Ho.
      destruct Ho as (e & <- & He). apply filter_In in He. apply in_map. now destruct He.
Qed.

(** A call on the adapter, or a reconnect of its connection. *)
Inductive Call : Type :=
| CallSubscribe (handler : H) (subs : list Subscription)
| CallUnsubscribe (topics : list string)
| Reconnected.

Definition step a (call : Call) : adapter C H :=
  match call with
  | CallSubscribe handler subs => fst (Subscribe handler subs a)
  | CallUnsubscribe topics => fst (Unsubscribe topics a)
  | Reconnected => fst (onReconnect a)
  end.

Definition history (calls : list Call) a : adapter C H := fold_left step calls a.

Definition named_by t (call : Call) : Prop :=
  match call with
  | CallSubscribe _ subs => In t (map Mqtt.Topic subs)
  | _ => False
  end.

Definition dropped_by t (call : Call) : Prop :=
  match call with
  | CallUnsubscribe topics => In t topics
  | _ => False
  end.

(** Some [Subscribe] of the history named the topic and no later
    [Unsubscribe] did. *)
Definition live t (calls : list Call) : Prop :=
  exists pre call post,
    calls = pre ++ call :: post /\ named_by t call
    /\ Forall (fun later => ~ dropped_by t later) post.

Lemma Subscribe_state handler subs a :
  fst (Subscribe handler subs a)
  = with_conn (fold_left (register handler) subs a)
              (conn (fst (Subscribe handler subs a))).
Proof.
  unfold Subscribe. destruct subs as [| s subs]; [now destruct a |].
  destruct (conn_Subscribe _ _) as [c err]. reflexivity.
Qed.

Lemma Unsubscribe_state topics a :
  r (fst (Unsubscribe topics a)) = r a
  /\ subscriptions (fst (Unsubscribe topics a))
     = fold_left (fun m t => map_delete t m) topics (subscriptions a)
  /\ conn (fst (Unsubscribe topics a)) = fst (conn_Unsubscribe topics (conn a)).
Proof.
  unfold Unsubscribe. destruct (conn_Unsubscribe topics (conn a)) as [c err].
  now repeat split.
Qed.

Lemma onReconnect_state a :
  r (fst (onReconnect a)) = r a
  /\ subscriptions (fst (onReconnect a)) = subscriptions a.
Proof.
  unfold onReconnect. destruct (subscriptions a) as [| e m] eqn:Hm.
  - cbn [fst]. now split.
  - destruct (conn_Subscribe _ _) as [c err]. cbn [fst with_conn r subscriptions].
    now split.
Qed.

Lemma step_router a call :
  r (step a call)
  = r a ++ match call with
           | CallSubscribe handler subs => map (fun s => (Mqtt.Topic s, handler)) subs
           | _ => []
           end.
Proof.
  destruct call as [handler subs | topics |]; cbn [step].
  - rewrite Subscribe_state. cbn [with_conn r].
    now destruct (register_all handler subs a) as (_ & Hr & _).
  - rewrite app_nil_r. now destruct (Unsubscribe_state topics a).
  - rewrite app_nil_r. now destruct (onReconnect_state a).
Qed.

Lemma step_tracked a call t :
  In t (tracked (step a call))
  <-> match call with
      | CallSubscribe _ subs => In t (tracked a) \/ In t (map Mqtt.Topic subs)
      | CallUnsubscribe topics => In t (tracked a) /\ ~ In t topics
      | Reconnected => In t (tracked a)
      end.
Proof.
  destruct call as [handler subs | topics |]; cbn [step].
  - rewrite Subscribe_state.
    destruct (register_all handler subs a) as (_ & _ & Ht & _). apply Ht.
  - destruct (Unsubscribe_state topics a) as (_ & Hm & _).
    unfold tracked. rewrite Hm.
    destruct (delete_all topics (subscriptions a)) as (Hk & _). apply Hk.
  - destruct (onReconnect_state a) as [_ Hm]. unfold tracked. now rewrite Hm.
Qed.

Lemma step_well_keyed a call :
  well_keyed (subscriptions a) -> well_keyed (subscriptions (step a call)).
Proof.
  intros Hm. destruct call as [handler subs | topics |]; cbn [step].
  - rewrite Subscribe_state. cbn [with_conn subscriptions].
    destruct (register_all handler subs a) as (_ & _ & _ & Hk & _). now apply Hk.
  - destruct (Unsubscribe_state topics a) as (_ & Heq & _). rewrite Heq.
    destruct (delete_all topics (subscriptions a)) as (_ & Hk & _). now apply Hk.
  - destruct (onReconnect_state a) as [_ Heq]. now rewrite Heq.
Qed.

Lemma live_cons t call (calls : list Call) :
  live t (call :: calls)
  <-> (named_by t call /\ Forall (fun later => ~ dropped_by t later) calls) \/ live t calls.
Proof.
  split.
  - intros (pre & call0 & post & Heq & Hnamed & Hpost).
    destruct pre as [| first pre]; simpl in Heq; inversion Heq; subst.
    + left. now split.
    + right. now exists pre, call0, post.
  - intros [[Hnamed Hpost] | (pre & call0 & post & -> & Hnamed & Hpost)].
    + now exists [], call, calls.
    + now exists (call :: pre), call0, post.
Qed.

Lemma history_tracked (calls : list Call) : forall a t,
  In t (tracked (history calls a))
  <-> (In t (tracked a) /\ Forall (fun call => ~ dropped_by t call) calls) \/ live t calls.
Proof.
  induction calls as [| call calls IH]; intros a t.
  - cbn [history fold_left]. split.
    + intros Ht. left. now split.
    + intros [[Ht _] | (pre & call & post & Heq & _)]; [exact Ht |].
      now destruct pre.
  - change (history (call :: calls) a) with (history calls (step a call)).
    rewrite IH, live_cons, step_tracked, Forall_cons_iff.
    destruct call as [handler subs | topics |]; cbn [named_by dropped_by]; tauto.
Qed.

Lemma history_invariant (calls : list Call) : forall a,
  well_keyed (subscriptions a) -> incl (tracked a) (routed a) ->
  well_keyed (subscriptions (history calls a))
  /\ incl (tracked (history calls a)) (routed (history calls a)).
Proof.
  induction calls as [| call calls IH]; intros a Hm Hincl; [now split |].
  change (history (call :: calls) a) with (history calls (step a call)).
  apply IH; [now apply step_well_keyed |].
  intros t Ht. apply step_tracked in Ht. unfold routed. rewrite step_router.
  rewrite map_app, in_app_iff.
  destruct call as [handler subs | topics |].
  - destruct Ht as [Ht | Ht]; [left; now apply Hincl |].
    right. rewrite map_map. exact Ht.
  - left. now apply Hincl.
  - left. now apply Hincl.
Qed.

Lemma history_router (calls : list Call) : forall a,
  exists added, r (history calls a) = r a ++ added.
Proof.
  induction calls as [| call calls IH]; intros a.
  - exists []. cbn [history fold_left]. now rewrite app_nil_r.
  - change (history (call :: calls) a) with (history calls (step a call)).
    destruct (IH (step a call)) as [added Hr]. rewrite Hr, step_router.
    eexists. now rewrite <- app_assoc.
Qed.

Lemma step_options a call o :
  In o (map snd (subscriptions (step a call))) ->
  In o (map snd (subscriptions a))
  \/ match call with
     | CallSubscribe _ subs => In o (map options_of subs)
     | _ => False
     end.
Proof.
  destruct call as [handler subs | topics |]; cbn [step].
  - rewrite Subscribe_state. cbn [with_conn subscriptions].
    destruct (register_all handler subs a) as (_ & _ & _ & _ & Ho). apply Ho.
  - destruct (Unsubscribe_state topics a) as (_ & Heq & _). rewrite Heq.
    destruct (delete_all topics (subscriptions a)) as (_ & _ & Ho).
    intros Hin. left. now apply Ho.
  - destruct (onReconnect_state a) as [_ Heq]. rewrite Heq. now left.
Qed.

Lemma history_options (calls : list Call) : forall a o,
  In o (map snd (subscriptions (history calls a))) ->
  In o (map snd (subscriptions a))
  \/ exists handler subs s,
       In (CallSubscribe handler subs) calls /\ In s subs /\ o = options_of s.
Proof.
  induction calls as [| call calls IH]; intros a o; [now left |].
  change (history (call :: calls) a) with (history calls (step a call)).
  intros Ho. apply IH in Ho. destruct Ho as [Ho | (handler & subs & s & Hin & Hs & ->)].
  - apply step_options in Ho. destruct Ho as [Ho | Ho]; [now left |].
    right. destruct call as [handler subs | topics |]; try contradiction.
    apply in_map_iff in Ho. destruct Ho as (s & <- & Hs).
    exists handler, subs, s. repeat split; [now left | exact Hs].
  - right. exists handler, subs, s. repeat split; [now right | exact Hs].
Qed.

Lemma well_keyed_topics m : well_keyed m -> map Topic (map snd m) = map fst m.
Proof.
  intros [_ Hall]. induction Hall as [| e m He _ IH]; [reflexivity |].
  simpl. now rewrite He, IH.
Qed.

(** X22.  Over any history of [Subscribe], [Unsubscribe] and reconnects on
    the adapter [DialMQTT] returns, whatever the broker answers: the map of
    subscriptions holds each topic once, under options that carry that topic;
    every topic in it has a handler registered with the router; and the
    router never loses a registration, so the handlers of an unsubscribed
    topic stay registered. *)
Theorem adapter_history_keeps_every_handler (calls more : list Call) (c : C) :
  let a := history calls (dialed c) in
  well_keyed (subscriptions a)
  /\ incl (tracked a) (routed a)
  /\ exists added, r (history (calls ++ more) (dialed c)) = r a ++ added.
Proof.
  cbn zeta.
  assert (Hfresh : well_keyed (subscriptions (dialed c : adapter C H))).
  { split; constructor. }
  destruct (history_invariant calls (dialed c) Hfresh) as [Hm Hincl].
  { intros t []. }
  split; [exact Hm |]. split; [exact Hincl |].
  unfold history at 1. rewrite fold_left_app. apply history_router.
Qed.

(** X23.  After any such history a reconnect sends the broker one subscribe
    request that names, once each, exactly the topics some [Subscribe] named
    and no later [Unsubscribe] dropped, with options one of those
    [Subscribe] calls gave; whether the broker had accepted the calls plays
    no part.  When no such topic is left, the reconnect sends nothing. *)
Theorem onReconnect_resends_the_live_topics (calls : list Call) (c : C) :
  let a := history calls (dialed c) in
  exists request,
    NoDup (map Topic request)
    /\ (forall t, In t (map Topic request) <-> live t calls)
    /\ (forall o, In o request ->
          exists handler subs s,
            In (CallSubscribe handler subs) calls /\ In s subs /\ o = options_of s)
    /\ match request with
       | [] => onReconnect a = (a, [])
       | _ => conn (fst (onReconnect a)) = fst (conn_Subscribe request (conn a))
       end.
Proof.
  cbn zeta. set (a := history calls (dialed c)).
  assert (Hfresh : well_keyed (subscriptions (dialed c : adapter C H))).
  { split; constructor. }
  destruct (history_invariant calls (dialed c) Hfresh) as [Hm _].
  { intros t []. }
  fold a in Hm.
  pose proof (visit_permutation (subscriptions a)) as Hperm.
  assert (Htopics : Permutation (map Topic (map snd (visit (subscriptions a)))) (tracked a)).
  { unfold tracked. rewrite <- (well_keyed_topics _ Hm). now do 2 apply Permutation_map. }
  exists (map snd (visit (subscriptions a))).
  split; [| split; [| split]].
  - apply (Permutation_NoDup (Permutation_sym Htopics)). apply Hm.
  - intros t. split.
    + intros Ht. apply (Permutation_in _ Htopics) in Ht.
      apply history_tracked in Ht. destruct Ht as [[[] _] | Hlive]. exact Hlive.
    + intros Hlive. apply (Permutation_in _ (Permutation_sym Htopics)).
      apply history_tracked. now right.
  - intros o Ho.
    apply (Permutation_in _ (Permutation_map snd Hperm)) in Ho.
    apply history_options in Ho. destruct Ho as [[] | Ho]. exact Ho.
  - unfold onReconnect. destruct (subscriptions a) as [| e m] eqn:Heq.
    + apply Permutation_sym, Permutation_nil in Hperm. now rewrite Hperm.
    + destruct (visit (e :: m)) as [| e' m'] eqn:Hv.
      * apply Permutation_nil in Hperm. discriminate.
      * cbn [map]. destruct (conn_Subscribe _ _) as [c' err]. reflexivity.
Qed.

End History.
End AdapterLaws.

(** ** The laws at concrete inputs *)

Module Trials.
Import RemoteValue.
Import (hints) Sensors Lights Device.

#[local] Existing Instance Scenario.recording_writer.
#[local] Existing Instance Scenario.recording_subscriber.
#[local] Existing Instance Scenario.json_bool.
#[local] Existing Instance Scenario.lenient.
#[local] Existing Instance Scenario.JsonMarshal_Duration.

Lemma JoinTopic_of_kept_segments_witness :
  JoinTopic ["home"; "/lamp/"; "set"] = "home/lamp/set"
  /\ JoinTopic [JoinTopic ["home"; "/lamp/"; "set"]] = JoinTopic ["home"; "/lamp/"; "set"].
Proof.
  destruct (TopicLaws.JoinTopic_of_kept_segments ["home"; "/lamp/"; "set"])
    as (Hjoined & _ & Hagain).
  - repeat constructor; discriminate.
  - split; [rewrite Hjoined; reflexivity | exact Hagain].
Defined.

Lemma observers_run_in_registration_order_witness :
  snd (ObserverLaws.watch_all Scenario.lamp [Scenario.note; Scenario.note]) = [0; 1]%Z
  /\ snd (fst (ServeMQTT
                 (Some (fst (ObserverLaws.watch_all Scenario.lamp
                                                    [Scenario.note; Scenario.note])))
                 "lamp/set" (Scenario.bytes "true") []))
     = [true; true].
Proof.
  destruct (ObserverLaws.observers_run_in_registration_order
              Scenario.lamp [Scenario.note; Scenario.note] (Scenario.bytes "true") true []
              eq_refl eq_refl)
    as (Hids & _ & Hserve).
  split; [exact Hids | exact (f_equal (fun served => snd (fst served)) Hserve)].
Defined.

(** The lamp with two watchers. *)
Definition twice_watched_lamp : RemoteValue bool (list bool) :=
  fst (fst (Watch Scenario.watched_lamp Scenario.note)).

Lemma Unwatch_keeps_value_and_first_observer_witness :
  Get (with_watchers twice_watched_lamp [Scenario.note]) = Get twice_watched_lamp
  /\ hd_error (watchers (with_watchers twice_watched_lamp [Scenario.note]))
     = hd_error (watchers twice_watched_lamp).
Proof.
  destruct (UnwatchLaws.Unwatch_keeps_value_and_first_observer
              twice_watched_lamp 1 (with_watchers twice_watched_lamp [Scenario.note])
              [(LevelDebug, "Removing watcher")] eq_refl)
    as (Hget & _ & _ & Hhead & _).
  now split.
Defined.

Lemma Unwatch_removes_position_and_shifts_witness :
  exists c',
    Unwatch twice_watched_lamp 1 = Returned (c', [(LevelDebug, "Removing watcher")])
    /\ length (watchers c') = 1%nat.
Proof.
  destruct (UnwatchLaws.Unwatch_removes_position_and_shifts twice_watched_lamp 1)
    as (c' & Hunwatch & Hlength & _).
  - simpl. lia.
  - exists c'. now split.
Defined.




(** A thermometer with both cells. *)
Definition complete_thermometer : Component.Component (Sensors.Sensor string unit) :=
  Scenario.component_of (Component.ComponentPlatform Scenario.thermometer) "thermo"
                        (Component.Availability Scenario.hygrometer).

Lemma Sensor_component_needs_availability_and_state_witness :
  fst (Component.MarshalJSONTo (W := unit) complete_thermometer []) = None
  /\ fst (Component.MarshalJSONTo (W := unit) Scenario.thermometer []) <> None.
Proof.
  assert (Haccept : BuilderLaws.accepting) by (intros e t; reflexivity).
  split.
  - apply (SensorLaws.Sensor_component_needs_availability_and_state
             (W := unit) complete_thermometer [] Haccept
             (BuilderLaws.encode_as_quiet Haccept _)
             (BuilderLaws.encode_as_quiet Haccept _)).
    split; discriminate.
  - intros Hnone.
    apply (SensorLaws.Sensor_component_needs_availability_and_state
             (W := unit) Scenario.thermometer [] Haccept
             (BuilderLaws.encode_as_quiet Haccept _)
             (BuilderLaws.encode_as_quiet Haccept _)) in Hnone.
    destruct Hnone as [Havailability _]. now apply Havailability.
Defined.

(** A JSON decoder that refuses every payload, for the cells of the light
    that are left without an unmarshaler. *)
Definition json_refuses {T : Type} : JsonUnmarshal T :=
  fun _ v => (v, Some (Foreign "json: cannot unmarshal")).

#[local] Instance json_string : JsonUnmarshal string := json_refuses.
#[local] Instance json_N : JsonUnmarshal N := json_refuses.
#[local] Instance json_HueSat : JsonUnmarshal Lights.HueSat := json_refuses.
#[local] Instance json_XY : JsonUnmarshal Lights.XY := json_refuses.
#[local] Instance json_RGB : JsonUnmarshal Lights.RGB := json_refuses.
#[local] Instance json_RGBW : JsonUnmarshal Lights.RGBW := json_refuses.
#[local] Instance json_RGBWW : JsonUnmarshal Lights.RGBWW := json_refuses.

(** A light with its command cell only, as a component. *)
Definition plain_light : Lights.Light unit := Scenario.light_of None None None None None None.

Definition lamp_component : Component.Component (Lights.Light unit) :=
  Scenario.component_of plain_light "lamp" None.

Lemma Subscribe_Unsubscribe_round_trip_witness :
  fst (Component.Subscribe (W := unit) lamp_component (@nil Scenario.Call))
  = (Component.with_subscribedTopics lamp_component ["lamp/command"],
     [Scenario.Subscribed ["lamp/command"]])
  /\ Component.Subscribe (W := unit) (Component.with_subscribedTopics lamp_component ["lamp/command"])
                         [Scenario.Subscribed ["lamp/command"]]
     = (Component.with_subscribedTopics lamp_component ["lamp/command"],
        [Scenario.Subscribed ["lamp/command"]],
        Some (Sentinel_ ErrComponentAlreadySubscribed))
  /\ fst (Component.Unsubscribe (W := unit)
            (Component.with_subscribedTopics lamp_component ["lamp/command"])
            [Scenario.Subscribed ["lamp/command"]])
     = (Component.with_subscribedTopics lamp_component [],
        [Scenario.Subscribed ["lamp/command"]; Scenario.Unsubscribed ["lamp/command"]]).
Proof.
  destruct (ComponentLaws.Subscribe_Unsubscribe_round_trip
              (W := unit) (S := list Scenario.Call) lamp_component [] eq_refl)
    as (Hfirst & Hsecond & Hundo & _).
  - discriminate.
  - split; [now rewrite Hfirst |]. split; [apply Hsecond | now rewrite Hundo].
Defined.

Lemma Light_ServeMQTT_ignores_unknown_topics_witness :
  Lights.Light_ServeMQTT plain_light "brightness/set" (Scenario.bytes "7") tt
  = (plain_light, tt, []).
Proof.
  apply LightLaws.Light_ServeMQTT_ignores_unknown_topics.
  intros Hin. vm_compute in Hin.
  repeat (destruct Hin as [Hin | Hin]; [discriminate |]). exact Hin.
Defined.

Lemma Light_command_message_end_to_end_witness :
  hd_error (map Topic (Lights.Light_Subscriptions plain_light "lamp")) = Some "lamp/command"
  /\ snd (fst (Component.handler lamp_component "lamp/command" (Scenario.bytes "ON")
                                 plain_light tt))
     = tt.
Proof.
  destruct (LightLaws.Light_command_message_end_to_end
              lamp_component (NewRemoteValue "command" (Some PowerStateUnmarshaler))
              (Scenario.bytes "ON") tt eq_refl)
    as (Hhead & _ & Hworld & _); try discriminate.
  split; [exact Hhead | exact Hworld].
Defined.

Lemma Uint_codec_round_trip_only_below_2_63_witness :
  Codec.UintUnmarshaler (fst (Codec.UintMarshaler 255%N)) = (255%N, None)
  /\ Codec.UintUnmarshaler (fst (Codec.UintMarshaler (2 ^ 63)%N)) = (0%N, Some ErrSyntax).
Proof.
  split.
  - apply (CodecLaws.Uint_codec_round_trip_only_below_2_63 255%N). reflexivity.
  - apply (CodecLaws.Uint_codec_round_trip_only_below_2_63 (2 ^ 63)%N). reflexivity.
Defined.

Lemma RGB_codec_round_trip_witness :
  Codec.RGBUnmarshaler
    (fst (Codec.RGBMarshaler {| Lights.R := 255%N; Lights.G := 128%N; Lights.B := 0%N |}))
  = ({| Lights.R := 255%N; Lights.G := 128%N; Lights.B := 0%N |}, None).
Proof.
  apply CodecLaws.RGB_codec_round_trip; discriminate.
Defined.

Lemma Republish_resends_the_stored_value_witness :
  Value.Republish Scenario.relay (@nil Scenario.Published) "home"
  = (Scenario.relay, [], ("", Some (Sentinel_ ErrNeverWritten)))
  /\ snd (fst (Value.Republish
                 (fst (fst (Value.Write Scenario.relay (@nil Scenario.Published) "home" "ON")))
                 (snd (fst (Value.Write Scenario.relay (@nil Scenario.Published) "home" "ON")))
                 "attic"))
     = [("home/relay", WriteOptions_zero, Scenario.bytes "ON");
        ("attic/relay", WriteOptions_zero, Scenario.bytes "ON")].
Proof.
  destruct (ValueLaws.Republish_resends_the_stored_value
              Scenario.relay (@nil Scenario.Published) "home" "ON") as [Hnever Hagain].
  split; [apply Hnever; reflexivity |].
  rewrite (Hagain StringMarshaler (Scenario.bytes "ON") "attic" eq_refl eq_refl).
  reflexivity.
Defined.

Lemma MaybeMarshalStateAndCommandTopics_validates_the_pair_witness :
  MaybeMarshalStateAndCommandTopics
    "xy" "xy_stat_t" Scenario.xy_state "xy_cmd_t"
    (@None (RemoteValue Lights.XY unit)) "lamp" []
  = (Some (violation "xy" ErrMissingStateOrCommandTopic), [])
  /\ MaybeMarshalStateAndCommandTopics
       "xy" "xy_stat_t" Scenario.xy_state "xy_cmd_t" Scenario.xy_command "lamp" []
     = (None, [Str "xy_stat_t"; Str "lamp/xy"; Str "xy_cmd_t"; Str "lamp/xy/set"]).
Proof.
  assert (Haccept : BuilderLaws.accepting) by (intros e t; reflexivity).
  split.
  - apply (proj1 (proj2 (BuilderLaws.MaybeMarshalStateAndCommandTopics_validates_the_pair
                           "xy" "xy_stat_t" "xy_cmd_t" "lamp" Scenario.xy_state
                           (@None (RemoteValue Lights.XY unit)) []))).
    right. split; [discriminate | reflexivity].
  - apply (proj2 (proj2 (BuilderLaws.MaybeMarshalStateAndCommandTopics_validates_the_pair
                           "xy" "xy_stat_t" "xy_cmd_t" "lamp" Scenario.xy_state
                           Scenario.xy_command [])));
      [exact Haccept | discriminate | discriminate].
Defined.

Lemma ID_without_DiscoveryID_is_sanitized_witness :
  DeviceLaws.has_unsafe (Device.ID Scenario.bench) = false.
Proof.
  apply (proj1 (proj2 (DeviceLaws.ID_without_DiscoveryID_is_sanitized Scenario.bench))).
  reflexivity.
Defined.

Lemma handler_forwards_exactly_under_the_prefix_witness :
  Component.handler lamp_component "attic/command" (Scenario.bytes "ON") plain_light tt
  = (plain_light, tt, [])
  /\ Component.handler lamp_component "lamp/command" (Scenario.bytes "ON") plain_light tt
     = Lights.Light_ServeMQTT plain_light "command" (Scenario.bytes "ON") tt.
Proof.
  split.
  - apply (proj2 (ComponentLaws.handler_forwards_exactly_under_the_prefix
                    lamp_component "attic/command" (Scenario.bytes "ON") plain_light tt)).
    intros rest Heq. discriminate Heq.
  - exact (proj1 (ComponentLaws.handler_forwards_exactly_under_the_prefix
                    lamp_component "lamp/command" (Scenario.bytes "ON") plain_light tt)
                 "/command" eq_refl).
Defined.

Lemma Configure_publishes_exactly_the_complete_document_witness :
  Device.Configure Scenario.bench (@nil Scenario.Published) "homeassistant"
    [("thermo", Component.MarshalJSONTo (W := unit) complete_thermometer)]
  = ([("homeassistant/device/hqtt__example__fake_light__Example__Device/config",
       {| QoS := 0%N; Retain := true |}, [])],
     None)
  /\ exists err,
       Device.Configure Scenario.bench (@nil Scenario.Published) "homeassistant"
         [("thermo", Component.MarshalJSONTo (W := unit) complete_thermometer);
          ("hygro", Component.MarshalJSONTo (W := unit) Scenario.hygrometer)]
       = ([], Some err).
Proof.
  assert (Haccept : BuilderLaws.accepting) by (intros e t; reflexivity).
  split.
  - exact (proj2 (proj2 (proj2
             (DeviceLaws.Configure_publishes_exactly_the_complete_document
                Scenario.bench (@nil Scenario.Published) "homeassistant"
                [("thermo", Component.MarshalJSONTo (W := unit) complete_thermometer)])))
             Haccept eq_refl).
  - apply (proj1 (proj2 (proj2
             (DeviceLaws.Configure_publishes_exactly_the_complete_document
                Scenario.bench (@nil Scenario.Published) "homeassistant"
                [("thermo", Component.MarshalJSONTo (W := unit) complete_thermometer);
                 ("hygro", Component.MarshalJSONTo (W := unit) Scenario.hygrometer)])))
             "hygro" (Component.MarshalJSONTo (W := unit) Scenario.hygrometer)).
    + right. now left.
    + intros e Hnone. destruct (Scenario.hygrometer_reports e) as (err & Herr & _).
      congruence.
Defined.

(** *** The adapter over a connection that records its requests and refuses
    every one of them *)

Inductive Request : Type :=
| SubscribeRequest (topics : list string)
| UnsubscribeRequest (topics : list string)
| PublishRequest (topic : string).

#[local] Instance refusing_connection : Paho.Connection (list Request) := {
  Paho.conn_Subscribe := fun options c =>
    (c ++ [SubscribeRequest (map Paho.Topic options)], Some (Foreign "not connected"));
  Paho.conn_Unsubscribe := fun topics c =>
    (c ++ [UnsubscribeRequest topics], Some (Foreign "not connected"));
  Paho.conn_Publish := fun publish c =>
    (c ++ [PublishRequest (Paho.PublishTopic publish)], Some (Foreign "not connected"))
}.

#[local] Instance in_order : Autopaho.MapRange := {
  Autopaho.visit := fun m => m;
  Autopaho.visit_permutation := fun m => Permutation_refl m
}.

Definition at_topic (t : string) : Subscription := {| Topic := t; Options := ReadOptions_zero |}.

(** Two topics subscribed, one of them twice, one dropped, then a reconnect:
    the broker is asked again for the topic that is left, once. *)
Example adapter_reconnect_after_refused_calls :
  let calls :=
    [AdapterLaws.CallSubscribe tt [at_topic "lamp/set"; at_topic "fan/set"; at_topic "lamp/set"];
     AdapterLaws.CallUnsubscribe ["fan/set"];
     AdapterLaws.Reconnected] in
  let a := AdapterLaws.history calls (Autopaho.dialed []) in
  Autopaho.conn a
  = [SubscribeRequest ["lamp/set"; "fan/set"; "lamp/set"];
     UnsubscribeRequest ["fan/set"];
     SubscribeRequest ["lamp/set"]]
  /\ AdapterLaws.tracked a = ["lamp/set"]
  /\ AdapterLaws.routed a = ["lamp/set"; "fan/set"; "lamp/set"].
Proof. repeat split. Qed.

End Trials.

(** ** Required fields the builder does not check *)

Module RequiredFields.
Import (hints) Sensors Lights Device.

#[local] Existing Instance Scenario.recording_writer.
#[local] Existing Instance Scenario.lenient.
#[local] Existing Instance Scenario.JsonMarshal_Duration.

(** A sensor component with the given cell topics and no [UniqueID]. *)
Definition unidentified (prefix availability state : string)
    : Component.Component (Sensors.Sensor string unit) :=
  {| Component.ComponentPlatform :=
       Scenario.sensor_of (Some (Value.NewValue state (Some StringMarshaler)));
     Component.TopicPrefix := prefix;
     Component.Name := ""; Component.EntityCategory := ""; Component.Icon := "";
     Component.Picture := None;
     Component.Availability := Some (Value.NewValue availability (Some AvailabilityMarshaler));
     Component.CustomAvailabilityValues :=
       {| CustomAvailable := ""; CustomUnavailable := "" |};
     Component.DefaultEntityID := ""; Component.UniqueID := "";
     Component.ComponentWriteOptions := WriteOptions_zero;
     Component.subscribedTopics := [] |}.

(** C4. [UniqueID] is tagged [hqtt:"required"] and the package comment says
    tagged fields are checked when marshalling, but [Component.MarshalJSONTo]
    hands it to the optional helper.  So two components that each miss their
    required [UniqueID] are assembled without any error and published, with
    no unique id in either of them; the combined error the claim asks for
    does not exist.  Likewise a required cell whose topic is empty passes
    the check under a non-empty prefix, because the joined topic is then
    the prefix followed by a separator; under the empty prefix the same
    cells are reported. *)
Theorem Configure_publishes_components_without_UniqueID :
  let thermo := unidentified "thermo" "available" "state" in
  let hygro := unidentified "hygro" "available" "state" in
  Component.UniqueID thermo = "" /\ Component.UniqueID hygro = ""
  /\ Device.Valid Scenario.bench = None
  /\ Device.Configure Scenario.bench (@nil Scenario.Published) "homeassistant"
       [("thermo", Component.MarshalJSONTo (W := unit) thermo);
        ("hygro", Component.MarshalJSONTo (W := unit) hygro)]
     = ([("homeassistant/device/hqtt__example__fake_light__Example__Device/config",
          {| QoS := 0%N; Retain := true |}, [])],
        None)
  /\ Component.MarshalJSONTo (W := unit) thermo []
     = (None,
        [BeginObject; Str "p"; Encoded (JString "sensor"); Str "name"; Null;
         Str "avty_t"; Str "thermo/available"; Str "stat_t"; Str "thermo/state";
         EndObject])
  /\ Component.MarshalJSONTo (W := unit) (unidentified "hygro" "" "") []
     = (None,
        [BeginObject; Str "p"; Encoded (JString "sensor"); Str "name"; Null;
         Str "avty_t"; Str "hygro/"; Str "stat_t"; Str "hygro/"; EndObject])
  /\ fst (Component.MarshalJSONTo (W := unit) (unidentified "" "" "") [])
     = Some (Joined [violation "availability" ErrTopicRequired;
                     Joined [violation "state" ErrTopicRequired]]).
Proof. repeat split. Qed.

End RequiredFields.
